(** * ATS process kernels: boundary-condition composition, admissibility,
      preconditioner update and error norm

    A shallow embedding of the solver callbacks of the Richards flow kernel
    ([Richards::UpdateBoundaryConditions_], [ApplyBoundaryConditions_],
    [IsAdmissible], [SetupRichardsFlow_]) and of the energy kernel
    ([EnergyBase::fun], [update_precon], [enorm]).

    Conventions of the embedding:
    - a C++ [double] is an exact rational ([Q]); rounding, infinities and
      NaN are outside the model, comparisons are the exact ones;
    - a [std::vector] or an Epetra vector view is a [list], read with
      [vget] and written with stdpp's [<[i:=x]>];  an access out of range
      is undefined behaviour in the source: the model reads [0] and leaves
      the vector unchanged on a write;
    - the owned view of a ghosted vector is a window on the storage of
      the vector: read at a ghost index, where the source does not check
      the index, it gives the ghost entry stored there ([vview]);
    - a [Functions::BoundaryFunction] (a [std::map<int,double>]) is a
      [gmap nat double];
    - an exception ([Exceptions::amanzi_throw]) or a failed [ASSERT] is an
      [Err] result of the [result] monad. *)

From Stdlib Require Import QArith Qabs Qpower ZArith String List Lia.
From stdpp Require Import base option list gmap strings.

(** ** Numbers *)

Abbreviation double := Q (only parsing).

(** [x < y] on doubles, as a boolean. *)
Definition dlt (x y : double) : bool :=
  match (x ?= y)%Q with Lt => true | _ => false end.

(** [x > y]. *)
Definition dgt (x y : double) : bool := dlt y x.

(** [x >= y]. *)
Definition dge (x y : double) : bool := negb (dlt x y).

(** [std::abs]. *)
Definition dabs (x : double) : double := Qabs x.

(** [std::max<double>(a, b)]: [(a < b) ? b : a]. *)
Definition std_max (a b : double) : double := if dlt a b then b else a.

(** [std::min(a, b)]: [(b < a) ? b : a]. *)
Definition std_min (a b : double) : double := if dlt b a then b else a.

(** ** Vectors *)

(** [v[i]] for reading. *)
Definition vget (v : list double) (i : nat) : double := default 0%Q (v !! i).

(** [v[i]] for an [int] index that may be negative. *)
Definition vgetZ (v : list double) (i : Z) : double :=
  if (i <? 0)%Z then 0%Q else vget v (Z.to_nat i).

(** ** Errors *)

Inductive error : Type :=
  | Exception (msg : string)
  | AssertionFailure (cond : string)
  | MissingField (key : string).

(** The line feed that ends a message. *)
Definition LF : string := String (Ascii.ascii_of_nat 10) EmptyString.

Inductive result (A : Type) : Type :=
  | Ok (a : A)
  | Err (e : error).
Arguments Ok {A} a.
Arguments Err {A} e.

(** The error monad; [x ← m; k] is stdpp's notation for its bind. *)
#[global] Instance result_ret : MRet result := fun A a => Ok a.
#[global] Instance result_bind : MBind result := fun A B k m =>
  match m with
  | Ok a => k a
  | Err e => Err e
  end.

(** Modelled from the spec: the [ASSERT] macro of dbc.hh, which is not among
    the sources.  The spec treats a violated assertion as a fatal error
    that is never recovered. *)
Definition ASSERT (cond : bool) (what : string) : result unit :=
  if cond then Ok tt else Err (AssertionFailure what).

(** ** Composite vectors *)

(** One component of a ghosted vector: the owned entries come first, the
    ghost entries follow.  [ViewComponent(name, false)] is [cp_owned],
    [ViewComponent(name, true)] is [ghosted]. *)
Record Component : Type := mkComponent {
  cp_owned : list double;
  cp_ghost : list double
}.

(** The storage of a component: the owned entries, then the ghost
    entries. *)
Definition ghosted (c : Component) : list double := cp_owned c ++ cp_ghost c.

(** [view[0][i]] for the view [ViewComponent(name, false)] of the
    component [c], where the source takes the index [i] from elsewhere
    than the length of the view: the view is a window on the storage of
    the ghosted vector, so that an index past the owned entries reads the
    ghost entry stored there. *)
Definition vview (c : Component) (i : nat) : double := vget (ghosted c) i.

(** The same for an [int] index that may be negative. *)
Definition vviewZ (c : Component) (i : Z) : double := vgetZ (ghosted c) i.

Record CompositeVector : Type := mkCompositeVector {
  cv_cell : Component;
  cv_face : option Component;
  cv_boundary_face : option Component
}.

(** ** Parameter lists *)

(** The part of [Teuchos::ParameterList] the kernels use: typed entries
    and one level of sublists.  [get<T>(name, default)] gives the default
    when the entry is absent and throws when it holds another type;
    [sublist(name)] gives an empty list when absent, [sublist(name, true)]
    throws. *)
Inductive ParameterEntry : Type :=
  | PBool (b : bool)
  | PString (s : string)
  | PDouble (d : double).

Record ParameterList : Type := mkParameterList {
  pl_entries : gmap string ParameterEntry;
  pl_sublists : gmap string (gmap string ParameterEntry)
}.

Definition get_bool (entries : gmap string ParameterEntry) (name : string)
  (dflt : bool) : result bool :=
  match entries !! name with
  | None => Ok dflt
  | Some (PBool b) => Ok b
  | Some _ => Err (Exception ("invalid parameter type: " ++ name))
  end.

Definition get_string (entries : gmap string ParameterEntry) (name : string)
  (dflt : string) : result string :=
  match entries !! name with
  | None => Ok dflt
  | Some (PString s) => Ok s
  | Some _ => Err (Exception ("invalid parameter type: " ++ name))
  end.

Definition get_double (entries : gmap string ParameterEntry) (name : string)
  (dflt : double) : result double :=
  match entries !! name with
  | None => Ok dflt
  | Some (PDouble d) => Ok d
  | Some _ => Err (Exception ("invalid parameter type: " ++ name))
  end.

Definition sublist (plist : ParameterList) (name : string)
  : gmap string ParameterEntry :=
  default ∅ (pl_sublists plist !! name).

Definition sublist_must_exist (plist : ParameterList) (name : string)
  : result (gmap string ParameterEntry) :=
  match pl_sublists plist !! name with
  | Some l => Ok l
  | None => Err (Exception ("sublist does not exist: " ++ name))
  end.

(** [std::vector::resize(n, x)]. *)
Definition resize {A} (n : nat) (x : A) (v : list A) : list A :=
  take n v ++ replicate (n - length v) x.

(** ** Mesh queries used by the kernels *)

Record Mesh : Type := mkMesh {
  (** [num_entities(FACE, OWNED)] *)
  num_faces_owned : nat;
  (** [num_entities(FACE, USED)] *)
  num_faces_used : nat;
  (** [face_get_cells(f, USED, &cells)] *)
  face_get_cells : nat -> list nat;
  (** [face_area(f)] *)
  face_area : nat -> double;
  (** [face_map(false).GID(f)] *)
  face_map_GID : nat -> Z;
  (** [cell_map(false).GID(c)] *)
  cell_map_GID : nat -> Z;
  (** [exterior_face_map().LID(gid)] *)
  exterior_face_map_LID : Z -> Z
}.

(** [Epetra_BlockMap::GID(lid)] for a map with the global ids [gids]: an
    invalid local id gives -1. *)
Definition GID (gids : nat -> Z) (lid : Z) : Z :=
  if (lid <? 0)%Z then (-1)%Z else gids (Z.to_nat lid).

(** ** Collective reductions

    The processes of the communicator are a non-empty list of
    contributions, the calling process first; every process receives the
    result of the reduction. *)

(** A value with its location, [ENorm_t] (the type of [MPI_DOUBLE_INT]). *)
Record ENorm_t : Type := mkENorm { value : double; gid : Z }.

(** [MPI_MIN] and [MPI_MAX] of two contributions. *)
Definition MPI_MIN (a b : double) : double := if dlt b a then b else a.
Definition MPI_MAX (a b : double) : double := if dlt a b then b else a.

(** [MPI_MINLOC] and [MPI_MAXLOC]: the extremal value, and the lower
    index among equal values. *)
Definition MPI_MINLOC (a b : ENorm_t) : ENorm_t :=
  if dlt (value a) (value b) then a
  else if dlt (value b) (value a) then b
  else {| value := value a; gid := Z.min (gid a) (gid b) |}.

Definition MPI_MAXLOC (a b : ENorm_t) : ENorm_t :=
  if dlt (value b) (value a) then a
  else if dlt (value a) (value b) then b
  else {| value := value a; gid := Z.min (gid a) (gid b) |}.

(** [MPI_Allreduce] with the operation [op]; [MinAll] and [MaxAll] of the
    communicator are the instances for [MPI_MIN] and [MPI_MAX]. *)
Definition Allreduce {A} (op : A -> A -> A) (mine : A) (others : list A)
  : A :=
  foldl op mine others.

(** ** Extrema and their locations *)

(** The order of the maxima: greatest first. *)
Definition ge (x y : double) : Prop := (y <= x)%Q.

(** The loop for one extremum: the best entry so far with its index. *)
Definition arg_loop (better : double -> double -> bool) (init : double)
  (val : nat -> double) (n : nat) : double * Z :=
  foldl (fun '(m, i) c =>
           if better (val c) m then (val c, Z.of_nat c) else (m, i))
        (init, (-1)%Z) (seq 0 n).

(** The choice between two contributions of a reduction. *)
Definition pick (better : double -> double -> bool) (a b : double)
  : double :=
  if better b a then b else a.

Definition pick_loc (better : double -> double -> bool) (a b : ENorm_t)
  : ENorm_t :=
  if better (value a) (value b) then a
  else if better (value b) (value a) then b
  else {| value := value a; gid := Z.min (gid a) (gid b) |}.

(** What a process contributes to a reduction with location: the extremum
    of its view, with the global id of its local index. *)
Definition contribution (better : double -> double -> bool) (init : double)
  (view : list double * (nat -> Z)) : ENorm_t :=
  let r := arg_loop better init (vget view.1) (length view.1) in
  {| value := r.1; gid := GID view.2 r.2 |}.

(** [e] reports the extremum of the views with its location, for loops
    that start from the value [start] at the index -1.  Its value is
    [le] every entry.  When some entry passes the start value ([start]
    is not [le] it), [e] is the extremum itself: the value of an entry
    of some view, with the global id of that entry.  When no entry
    passes the start value, [e] is the start value at the id -1. *)
Definition reports (le : double -> double -> Prop) (start : double)
  (views : list (list double * (nat -> Z))) (e : ENorm_t) : Prop :=
  (forall view x, view ∈ views -> x ∈ view.1 -> le (value e) x) /\
  ((exists view x, view ∈ views /\ x ∈ view.1 /\ ~ le start x) ->
   exists view c, view ∈ views /\ c < length view.1 /\
                  (vget view.1 c == value e)%Q /\ gid e = view.2 c) /\
  ((forall view x, view ∈ views -> x ∈ view.1 -> le start x) ->
   (value e == start)%Q /\ gid e = (-1)%Z).

(** A pressure outside the hard bounds of [IsAdmissible]. *)
Definition out_of_bounds (x : double) : Prop :=
  (x < -1e9)%Q \/ (1e8 < x)%Q.

(** ** Markers, verbosity, flux updates *)

(** Modelled from the spec: the boundary-condition kinds of OperatorDefs.hh,
    which is not among the sources; these are the three markers the
    kernels write. *)
Inductive Matrix_bc : Type :=
  | OPERATOR_BC_NONE
  | OPERATOR_BC_DIRICHLET
  | OPERATOR_BC_NEUMANN.

#[global] Instance Matrix_bc_eq_dec : EqDecision Matrix_bc.
Proof. solve_decision. Defined.

(** Verbosity levels of the verbose object [vo_]. *)
Inductive EVerbosityLevel : Type :=
  | VERB_NONE | VERB_LOW | VERB_MEDIUM | VERB_HIGH | VERB_EXTREME.

Definition verb_rank (l : EVerbosityLevel) : nat :=
  match l with
  | VERB_NONE => 0 | VERB_LOW => 1 | VERB_MEDIUM => 2
  | VERB_HIGH => 3 | VERB_EXTREME => 4
  end.

(** [vo_->os_OK(level)] for a verbose object set to [vo]. *)
Definition os_OK (vo level : EVerbosityLevel) : bool :=
  verb_rank level <=? verb_rank vo.

Inductive EUpdateFlux : Type :=
  | UPDATE_FLUX_ITERATION
  | UPDATE_FLUX_TIMESTEP
  | UPDATE_FLUX_VIS
  | UPDATE_FLUX_NEVER.

(** * The flow kernel *)

Module Flow.

(** The fields of the state [S_next_] that the flow kernel reads.  The
    setup of the kernel requires all of them but the temperature, which
    belongs to another kernel: the state may hold none. *)
Record State : Type := mkState {
  (** field [key_] ("pressure") *)
  pressure : CompositeVector;
  (** "numerical_rel_perm", component "face" *)
  numerical_rel_perm : Component;
  (** "temperature", component "face", when the state holds the field *)
  temperature : option Component;
  (** scalar "atmospheric_pressure" *)
  atmospheric_pressure : double;
  (** "surface_pressure", component "cell", owned view *)
  surface_pressure : list double;
  (** "surface_subsurface_flux", component "cell", owned view *)
  surface_subsurface_flux : list double;
  (** [GetMesh("surface")->entity_get_parent(CELL, c)] *)
  surface_entity_get_parent : nat -> nat
}.

(** The members of [Richards] that the modelled functions use. *)
Record Richards : Type := mkRichards {
  mesh_ : Mesh;
  S_next_ : State;
  vo_ : EVerbosityLevel;
  bc_pressure_ : gmap nat double;
  bc_flux_ : gmap nat double;
  bc_seepage_ : gmap nat double;
  infiltrate_only_if_unfrozen_ : bool;
  coupled_to_surface_via_head_ : bool;
  coupled_to_surface_via_flux_ : bool;
  update_flux_ : EUpdateFlux;
  niter_ : nat;
  bc_markers_ : list Matrix_bc;
  bc_values_ : list double
}.

(** [bc_markers_[f] = m; bc_values_[f] = v;] *)
Definition set_bc (f : nat) (m : Matrix_bc) (v : double) (pk : Richards)
  : Richards :=
  {| mesh_ := mesh_ pk; S_next_ := S_next_ pk; vo_ := vo_ pk;
     bc_pressure_ := bc_pressure_ pk; bc_flux_ := bc_flux_ pk;
     bc_seepage_ := bc_seepage_ pk;
     infiltrate_only_if_unfrozen_ := infiltrate_only_if_unfrozen_ pk;
     coupled_to_surface_via_head_ := coupled_to_surface_via_head_ pk;
     coupled_to_surface_via_flux_ := coupled_to_surface_via_flux_ pk;
     update_flux_ := update_flux_ pk; niter_ := niter_ pk;
     bc_markers_ := <[f:=m]> (bc_markers_ pk);
     bc_values_ := <[f:=v]> (bc_values_ pk) |}.

(** The (kind, value) pair the two arrays hold for face [f], when [f] is an
    index of both. *)
Definition bc_at (pk : Richards) (f : nat) : option (Matrix_bc * double) :=
  match bc_markers_ pk !! f, bc_values_ pk !! f with
  | Some m, Some v => Some (m, v)
  | _, _ => None
  end.

(** Modelled from the spec: [State::GetFieldData], which is not among
    the sources, for a field that the state may not hold: the look-up of
    an absent field is a fatal error that names the key. *)
Definition GetFieldData_temperature (S : State) : result Component :=
  match temperature S with
  | Some temp => Ok temp
  | None => Err (MissingField "temperature")
  end.

(** [Richards::BoundaryValue]; [face_id] may be the id of a ghost face. *)
Definition BoundaryValue (mesh : Mesh) (solution : CompositeVector)
  (face_id : nat) : result double :=
  match cv_face solution with
  | Some pres => Ok (vview pres face_id)
  | None =>
    match cv_boundary_face solution with
    | Some pres =>
      let face_gid := face_map_GID mesh face_id in
      let face_lbid := exterior_face_map_LID mesh face_gid in
      Ok (vviewZ pres face_lbid)
    | None =>
      Err (Exception ("No component is defined for boundary faces" ++ LF))
    end
  end.

(** [if (!kr && rel_perm[0][f] > 0.) bc_values_[f] /= rel_perm[0][f];]
    applied to the value [v] just stored for face [f]. *)
Definition divide_by_rel_perm (kr : bool) (rel_perm : Component) (f : nat)
  (v : double) : double :=
  if negb kr && dgt (vview rel_perm f) 0%Q
  then (v / vview rel_perm f)%Q else v.

(** *** The blocks of [Richards::UpdateBoundaryConditions_], in source order *)

(** "initialize all to 0" *)
Definition init_bcs (pk : Richards) : Richards :=
  foldl (fun acc n => set_bc n OPERATOR_BC_NONE 0%Q acc) pk
        (seq 0 (length (bc_markers_ pk))).

(** "Dirichlet boundary conditions" *)
Definition dirichlet_bcs (pk : Richards) : Richards :=
  map_fold (fun f v acc => set_bc f OPERATOR_BC_DIRICHLET v acc) pk
           (bc_pressure_ pk).

(** "Standard Neuman boundary conditions" and "Neumann boundary conditions
    that turn off if temp < freezing" *)
Definition flux_bcs (kr : bool) (pk : Richards) : result Richards :=
  let rel_perm := numerical_rel_perm (S_next_ pk) in
  if negb (infiltrate_only_if_unfrozen_ pk) then
    Ok (map_fold (fun f v acc =>
                    set_bc f OPERATOR_BC_NEUMANN
                           (divide_by_rel_perm kr rel_perm f v) acc)
                 pk (bc_flux_ pk))
  else
    temp ← GetFieldData_temperature (S_next_ pk);
    Ok (map_fold (fun f v acc =>
                    if dgt (vview temp f) 273.15%Q then
                      set_bc f OPERATOR_BC_NEUMANN
                             (divide_by_rel_perm kr rel_perm f v) acc
                    else
                      set_bc f OPERATOR_BC_NEUMANN 0%Q acc)
                 pk (bc_flux_ pk)).

(** "seepage face -- pressure <= p_atm, outward mass flux >= 0" *)
Definition seepage_bcs (pk : Richards) : result Richards :=
  map_fold (fun f v acc =>
              cur ← acc;
              bc_pressure ← BoundaryValue (mesh_ pk)
                                          (pressure (S_next_ pk)) f;
              if dlt bc_pressure v then
                Ok (set_bc f OPERATOR_BC_NEUMANN 0%Q cur)
              else
                Ok (set_bc f OPERATOR_BC_DIRICHLET v cur))
           (Ok pk) (bc_seepage_ pk).

(** "surface coupling", by head *)
Definition surface_head_bcs (pk : Richards) : Richards :=
  if coupled_to_surface_via_head_ pk then
    let head := surface_pressure (S_next_ pk) in
    foldl (fun acc c =>
             let f := surface_entity_get_parent (S_next_ pk) c in
             set_bc f OPERATOR_BC_DIRICHLET (vget head c) acc)
          pk (seq 0 (length head))
  else pk.

(** "surface coupling", by flux *)
Definition surface_flux_bcs (kr : bool) (pk : Richards) : Richards :=
  if coupled_to_surface_via_flux_ pk then
    let flux := surface_subsurface_flux (S_next_ pk) in
    let rel_perm := numerical_rel_perm (S_next_ pk) in
    foldl (fun acc c =>
             let f := surface_entity_get_parent (S_next_ pk) c in
             set_bc f OPERATOR_BC_NEUMANN
                    (divide_by_rel_perm kr rel_perm f
                       (vget flux c / face_area (mesh_ pk) f)%Q) acc)
          pk (seq 0 (length flux))
  else pk.

(** "mark all remaining boundary conditions as zero flux conditions" *)
Definition remaining_bcs (pk : Richards) : Richards :=
  foldl (fun acc f =>
           if decide (default OPERATOR_BC_NONE (bc_markers_ acc !! f)
                      = OPERATOR_BC_NONE) then
             let ncells := length (face_get_cells (mesh_ pk) f) in
             if decide (ncells = 1) then set_bc f OPERATOR_BC_NEUMANN 0%Q acc
             else acc
           else acc)
        pk (seq 0 (num_faces_owned (mesh_ pk))).

(** [Richards::UpdateBoundaryConditions_(bool kr)] *)
Definition UpdateBoundaryConditions_ (kr : bool) (pk : Richards)
  : result Richards :=
  let pk := init_bcs pk in
  let pk := dirichlet_bcs pk in
  pk ← flux_bcs kr pk;
  pk ← seepage_bcs pk;
  let pk := surface_head_bcs pk in
  let pk := surface_flux_bcs kr pk in
  Ok (remaining_bcs pk).

(** [Richards::ApplyBoundaryConditions_]: the loop runs over the owned
    faces of the "face" component of [pres]. *)
Definition ApplyBoundaryConditions_ (pk : Richards) (pres : CompositeVector)
  : result CompositeVector :=
  match cv_face pres with
  | None => Err (Exception "component face is not defined")
  | Some face =>
    let pres_f :=
      foldl (fun pres_f f =>
               if decide (default OPERATOR_BC_NONE (bc_markers_ pk !! f)
                          = OPERATOR_BC_DIRICHLET)
               then <[f:=vget (bc_values_ pk) f]> pres_f
               else pres_f)
            (cp_owned face) (seq 0 (length (cp_owned face))) in
    Ok {| cv_cell := cv_cell pres;
          cv_face := Some {| cp_owned := pres_f; cp_ghost := cp_ghost face |};
          cv_boundary_face := cv_boundary_face pres |}
  end.

(** *** Admissibility *)

(** What [IsAdmissible] writes to the verbose object. *)
Inductive LogEntry : Type :=
  (** "  Checking admissibility..." *)
  | LogChecking
  (** "    Admissible p? (min/max): minT,  maxT" *)
  | LogMinMax (minT maxT : double)
  (** " is not admissible, as it is not within bounds of constitutive
      models:" *)
  | LogNotAdmissible
  (** "   cells (min/max): [gid] value, [gid] value", for the cells *)
  | LogCellExtrema (min max : ENorm_t)
  (** the same line, printed for the faces *)
  | LogFaceExtrema (min max : ENorm_t).

(** The two loops of [IsAdmissible] over a view [v]: the least and the
    greatest entry with their local indices, from the sentinels [1.e15]
    and [-1.e15] at index [-1]. *)
Definition extrema_loop (v : list double) : (double * Z) * (double * Z) :=
  foldl (fun '(minT, min_i, (maxT, max_i)) c =>
           ((if dlt (vget v c) minT then (vget v c, Z.of_nat c)
             else (minT, min_i)),
            (if dgt (vget v c) maxT then (vget v c, Z.of_nat c)
             else (maxT, max_i))))
        ((1e15%Q, (-1)%Z), ((-1e15)%Q, (-1)%Z))
        (seq 0 (length v)).

(** What one process computes from its trial iterate before the
    reductions. *)
Record LocalExtrema : Type := mkLocalExtrema {
  minT_l : double;
  maxT_l : double;
  local_minT_c : ENorm_t;
  local_maxT_c : ENorm_t;
  local_minT_f : ENorm_t;
  local_maxT_f : ENorm_t
}.

Definition local_extrema (mesh : Mesh) (pres : CompositeVector)
  : LocalExtrema :=
  let '(minT_c, min_c, (maxT_c, max_c)) :=
    extrema_loop (cp_owned (cv_cell pres)) in
  let '(minT_f, min_f, (maxT_f, max_f)) :=
    match cv_face pres with
    | Some face => extrema_loop (cp_owned face)
    | None => ((1e15%Q, (-1)%Z), ((-1e15)%Q, (-1)%Z))
    end in
  {| minT_l := match cv_face pres with
               | Some _ => std_min minT_c minT_f
               | None => minT_c
               end;
     maxT_l := match cv_face pres with
               | Some _ => std_max maxT_c maxT_f
               | None => maxT_c
               end;
     local_minT_c :=
       {| value := minT_c; gid := GID (cell_map_GID mesh) min_c |};
     local_maxT_c :=
       {| value := maxT_c; gid := GID (cell_map_GID mesh) max_c |};
     local_minT_f :=
       {| value := minT_f; gid := GID (face_map_GID mesh) min_f |};
     local_maxT_f :=
       {| value := maxT_f; gid := GID (face_map_GID mesh) max_f |} |}.

(** Another process of the communicator: its mesh partition and its part
    of the trial iterate. *)
Record Rank : Type := mkRank { rk_mesh : Mesh; rk_up : CompositeVector }.

(** [Richards::IsAdmissible]: the answer, the kernel after the call and
    the lines written. *)
Definition IsAdmissible (pk : Richards) (peers : list Rank)
  (up : CompositeVector) : bool * Richards * list LogEntry :=
  let log0 := if os_OK (vo_ pk) VERB_EXTREME then [LogChecking] else [] in
  let me := local_extrema (mesh_ pk) up in
  let others :=
    (fun r => local_extrema (rk_mesh r) (rk_up r)) <$> peers in
  let maxT := Allreduce MPI_MAX (maxT_l me) (maxT_l <$> others) in
  let minT := Allreduce MPI_MIN (minT_l me) (minT_l <$> others) in
  let log1 :=
    if os_OK (vo_ pk) VERB_HIGH then [LogMinMax minT maxT] else [] in
  if dlt minT (-1e9)%Q || dgt maxT 1e8%Q then
    let log2 :=
      if os_OK (vo_ pk) VERB_MEDIUM then
        [LogNotAdmissible;
         LogCellExtrema
           (Allreduce MPI_MINLOC (local_minT_c me) (local_minT_c <$> others))
           (Allreduce MPI_MAXLOC (local_maxT_c me) (local_maxT_c <$> others))]
        ++ match cv_face up with
           | Some _ =>
             [LogFaceExtrema
                (Allreduce MPI_MINLOC (local_minT_f me)
                           (local_minT_f <$> others))
                (Allreduce MPI_MAXLOC (local_maxT_f me)
                           (local_maxT_f <$> others))]
           | None => []
           end
      else [] in
    (false, pk, log0 ++ log1 ++ log2)
  else
    (true, pk, log0 ++ log1).

(** The primary unknowns of one process: its owned cell pressures and,
    when the vector has faces, its owned face pressures. *)
Definition unknowns (pres : CompositeVector) : list double :=
  cp_owned (cv_cell pres) ++
  match cv_face pres with
  | Some face => cp_owned face
  | None => []
  end.

(** The processes of the communicator, the calling one first. *)
Definition ranks (pk : Richards) (peers : list Rank) (up : CompositeVector)
  : list Rank :=
  {| rk_mesh := mesh_ pk; rk_up := up |} :: peers.

(** The owned cells of a process with their global ids, and its owned
    faces with theirs. *)
Definition cell_view (r : Rank) : list double * (nat -> Z) :=
  (cp_owned (cv_cell (rk_up r)), cell_map_GID (rk_mesh r)).

Definition face_view (r : Rank) : list double * (nat -> Z) :=
  (match cv_face (rk_up r) with
   | Some face => cp_owned face
   | None => []
   end, face_map_GID (rk_mesh r)).

(** The trial iterate with one cell pressure [p]. *)
Definition example_iterate (p : double) : CompositeVector :=
  {| cv_cell := mkComponent [1%Q; p] [];
     cv_face := Some (mkComponent [5%Q; 0%Q; 7%Q; 3%Q] [0%Q]);
     cv_boundary_face := None |}.

(** *** Setup *)

(** The boundary functions the factory [FlowBCFactory] creates from the
    "boundary conditions" sublist; the factory is not among the sources
    and its products are taken as given. *)
Record FlowBCFactory : Type := mkFlowBCFactory {
  CreatePressure : gmap nat double;
  CreateMassFlux : gmap nat double;
  CreateSeepageFacePressure : gmap nat double
}.

(** The members after the constructor [Richards::Richards], for the mesh,
    state and verbose object of the base classes. *)
Definition Richards_ctor (mesh : Mesh) (S : State) (vo : EVerbosityLevel)
  : Richards :=
  {| mesh_ := mesh; S_next_ := S; vo_ := vo;
     bc_pressure_ := ∅; bc_flux_ := ∅; bc_seepage_ := ∅;
     infiltrate_only_if_unfrozen_ := false;
     coupled_to_surface_via_head_ := false;
     coupled_to_surface_via_flux_ := false;
     update_flux_ := UPDATE_FLUX_ITERATION; niter_ := 0;
     bc_markers_ := []; bc_values_ := [] |}.

(** [Richards::SetupRichardsFlow_], up to "Create the boundary condition
    data structures": the reads of the parameter list that can throw, the
    boundary functions and the two arrays.  The requirements on the state
    and the permeability tensor are not modelled. *)
Definition setup_boundary_conditions (plist : ParameterList)
  (bc_factory : FlowBCFactory) (pk : Richards) : result Richards :=
  _ ← get_bool (sublist plist "Diffusion") "TPFA use cells only" false;
  _ ← get_double (pl_entries plist) "permeability rescaling" 1%Q;
  is_source_term ← get_bool (pl_entries plist) "source term" false;
  _ ← (if (is_source_term : bool)
       then get_bool (pl_entries plist) "explicit source term" false
       else Ok false);
  bc_plist ← sublist_must_exist plist "boundary conditions";
  unfrozen ← get_bool bc_plist "infiltrate only if unfrozen" false;
  let nfaces := num_faces_used (mesh_ pk) in
  Ok {| mesh_ := mesh_ pk; S_next_ := S_next_ pk; vo_ := vo_ pk;
        bc_pressure_ := CreatePressure bc_factory;
        bc_flux_ := CreateMassFlux bc_factory;
        bc_seepage_ := CreateSeepageFacePressure bc_factory;
        infiltrate_only_if_unfrozen_ := unfrozen;
        coupled_to_surface_via_head_ := coupled_to_surface_via_head_ pk;
        coupled_to_surface_via_flux_ := coupled_to_surface_via_flux_ pk;
        update_flux_ := update_flux_ pk; niter_ := niter_ pk;
        bc_markers_ := resize nfaces OPERATOR_BC_NONE (bc_markers_ pk);
        bc_values_ := resize nfaces 0%Q (bc_values_ pk) |}.

(** "how often to update the fluxes?" *)
Definition setup_update_flux (plist : ParameterList) : result EUpdateFlux :=
  updatestring ← get_string (pl_entries plist) "update flux mode" "iteration";
  if String.eqb updatestring "iteration" then Ok UPDATE_FLUX_ITERATION
  else if String.eqb updatestring "timestep" then Ok UPDATE_FLUX_TIMESTEP
  else if String.eqb updatestring "vis" then Ok UPDATE_FLUX_VIS
  else if String.eqb updatestring "never" then Ok UPDATE_FLUX_NEVER
  else Err (Exception
              ("Unknown frequence for updating the overland flux: "
               ++ updatestring)).

Definition with_coupling (flux head : bool) (update_flux : EUpdateFlux)
  (pk : Richards) : Richards :=
  {| mesh_ := mesh_ pk; S_next_ := S_next_ pk; vo_ := vo_ pk;
     bc_pressure_ := bc_pressure_ pk; bc_flux_ := bc_flux_ pk;
     bc_seepage_ := bc_seepage_ pk;
     infiltrate_only_if_unfrozen_ := infiltrate_only_if_unfrozen_ pk;
     coupled_to_surface_via_head_ := head;
     coupled_to_surface_via_flux_ := flux;
     update_flux_ := update_flux; niter_ := niter_ pk;
     bc_markers_ := bc_markers_ pk; bc_values_ := bc_values_ pk |}.

(** "coupling", with the assertion "Make sure coupling isn't flagged
    multiple ways." *)
Definition setup_coupling (plist : ParameterList) (update_flux : EUpdateFlux)
  (pk : Richards) : result Richards :=
  via_flux ← get_bool (pl_entries plist) "coupled to surface via flux" false;
  via_head ← get_bool (pl_entries plist) "coupled to surface via head" false;
  let update_flux :=
    if (via_head : bool) then UPDATE_FLUX_ITERATION else update_flux in
  _ ← ASSERT (negb (via_flux && via_head))
        "!(coupled_to_surface_via_flux_ && coupled_to_surface_via_head_)";
  Ok (with_coupling via_flux via_head update_flux pk).

(** "Create the upwinding method": the name must be a known one. *)
Definition setup_upwinding (plist : ParameterList) : result unit :=
  method_name ← get_string (pl_entries plist)
                  "relative permeability method" "upwind with gravity";
  if String.eqb method_name "upwind with gravity" then Ok tt
  else if String.eqb method_name "cell centered" then Ok tt
  else if String.eqb method_name "upwind with Darcy flux" then
    _ ← get_bool (pl_entries plist)
          "upwind flux from previous iteration" false;
    Ok tt
  else if String.eqb method_name "arithmetic mean" then Ok tt
  else Err (Exception
              ("Richards Flow PK has no upwinding method named: "
               ++ method_name)).

(** [Richards::SetupRichardsFlow_]; the operators created at its end are
    not modelled. *)
Definition SetupRichardsFlow_ (plist : ParameterList)
  (bc_factory : FlowBCFactory) (pk : Richards) : result Richards :=
  pk ← setup_boundary_conditions plist bc_factory pk;
  update_flux ← setup_update_flux plist;
  pk ← setup_coupling plist update_flux pk;
  _ ← get_bool (pl_entries plist) "clobber surface rel perm" false;
  _ ← setup_upwinding plist;
  _ ← get_bool (pl_entries plist) "precondition using WC" false;
  _ ← get_bool (pl_entries plist)
        "modify predictor with consistent faces" false;
  _ ← get_bool (pl_entries plist) "modify predictor for flux BCs" false;
  _ ← get_bool (pl_entries plist)
        "modify predictor for initial flux BCs" false;
  _ ← get_bool (pl_entries plist) "modify predictor via water content" false;
  Ok pk.

(** *** The composition rules of the boundary conditions, face by face *)

Definition bc_entry : Type := Matrix_bc * double.

(** The members the composer reads and never writes. *)
Definition env (pk : Richards) :=
  (mesh_ pk, S_next_ pk, vo_ pk, bc_pressure_ pk, bc_flux_ pk,
   bc_seepage_ pk, infiltrate_only_if_unfrozen_ pk,
   coupled_to_surface_via_head_ pk, coupled_to_surface_via_flux_ pk,
   update_flux_ pk, niter_ pk).

(** The last surface cell below [n] whose parent face is [f]. *)
Definition surface_cell_of (parent : nat -> nat) (n f : nat) : option nat :=
  last (filter (fun c => parent c = f) (seq 0 n)).

(** The pressure the seepage test reads at face [f]. *)
Definition boundary_pressure (pk : Richards) (f : nat) : double :=
  match BoundaryValue (mesh_ pk) (pressure (S_next_ pk)) f with
  | Ok p => p
  | Err _ => 0%Q
  end.

(** Prescribed pressure: Dirichlet with the prescribed value. *)
Definition pressure_rule (pk : Richards) (f : nat) : option bc_entry :=
  (fun v => (OPERATOR_BC_DIRICHLET, v)) <$> bc_pressure_ pk !! f.

(** The temperature the flux loop reads at face [f], for a state that
    holds the field. *)
Definition face_temperature (pk : Richards) (f : nat) : double :=
  match temperature (S_next_ pk) with
  | Some temp => vview temp f
  | None => 0%Q
  end.

(** The value of a prescribed flux [v] at face [f]. *)
Definition flux_value (kr : bool) (pk : Richards) (f : nat) (v : double)
  : double :=
  if infiltrate_only_if_unfrozen_ pk then
    if dgt (face_temperature pk f) 273.15%Q
    then divide_by_rel_perm kr (numerical_rel_perm (S_next_ pk)) f v
    else 0%Q
  else divide_by_rel_perm kr (numerical_rel_perm (S_next_ pk)) f v.

(** Prescribed flux: Neumann. *)
Definition flux_rule (kr : bool) (pk : Richards) (f : nat) : option bc_entry :=
  (fun v => (OPERATOR_BC_NEUMANN, flux_value kr pk f v)) <$> bc_flux_ pk !! f.

(** The complementarity pair of a seepage face with threshold [v]. *)
Definition seepage_entry (pk : Richards) (f : nat) (v : double) : bc_entry :=
  if dlt (boundary_pressure pk f) v then (OPERATOR_BC_NEUMANN, 0%Q)
  else (OPERATOR_BC_DIRICHLET, v).

Definition seepage_rule (pk : Richards) (f : nat) : option bc_entry :=
  seepage_entry pk f <$> bc_seepage_ pk !! f.

(** Coupling to the surface by head: Dirichlet with the surface pressure. *)
Definition surface_head_rule (pk : Richards) (f : nat) : option bc_entry :=
  if coupled_to_surface_via_head_ pk then
    let head := surface_pressure (S_next_ pk) in
    (fun c => (OPERATOR_BC_DIRICHLET, vget head c)) <$>
      surface_cell_of (surface_entity_get_parent (S_next_ pk)) (length head) f
  else None.

(** Coupling to the surface by flux: Neumann with the surface flux per
    unit of face area. *)
Definition surface_flux_rule (kr : bool) (pk : Richards) (f : nat)
  : option bc_entry :=
  if coupled_to_surface_via_flux_ pk then
    let flux := surface_subsurface_flux (S_next_ pk) in
    (fun c => (OPERATOR_BC_NEUMANN,
               divide_by_rel_perm kr (numerical_rel_perm (S_next_ pk)) f
                 (vget flux c / face_area (mesh_ pk) f)%Q)) <$>
      surface_cell_of (surface_entity_get_parent (S_next_ pk)) (length flux) f
  else None.

(** The explicit condition of face [f], by precedence: coupling, seepage,
    prescribed flux, prescribed pressure. *)
Definition explicit_bc (kr : bool) (pk : Richards) (f : nat)
  : option bc_entry :=
  match surface_flux_rule kr pk f with
  | Some e => Some e
  | None =>
  match surface_head_rule pk f with
  | Some e => Some e
  | None =>
  match seepage_rule pk f with
  | Some e => Some e
  | None =>
  match flux_rule kr pk f with
  | Some e => Some e
  | None => pressure_rule pk f
  end end end end.

(** The fallback of a face without explicit condition, as the source does
    it: zero flux on an owned face with exactly one adjacent cell. *)
Definition default_bc (pk : Richards) (f : nat) : bc_entry :=
  if decide (f < num_faces_owned (mesh_ pk)
             /\ length (face_get_cells (mesh_ pk) f) = 1)
  then (OPERATOR_BC_NEUMANN, 0%Q)
  else (OPERATOR_BC_NONE, 0%Q).

(** The fallback as the specification words it: zero flux on any face with
    exactly one adjacent cell, no condition on the others. *)
Definition spec_default_bc (pk : Richards) (f : nat) : bc_entry :=
  if decide (length (face_get_cells (mesh_ pk) f) = 1)
  then (OPERATOR_BC_NEUMANN, 0%Q)
  else (OPERATOR_BC_NONE, 0%Q).

(** The composed condition of face [f]. *)
Definition composed_bc (kr : bool) (pk : Richards) (f : nat) : bc_entry :=
  match explicit_bc kr pk f with
  | Some e => e
  | None => default_bc pk f
  end.

(** The composed condition as the specification words it, with the
    fallback on every face. *)
Definition spec_composed_bc (kr : bool) (pk : Richards) (f : nat)
  : bc_entry :=
  match explicit_bc kr pk f with
  | Some e => e
  | None => spec_default_bc pk f
  end.

(** Face [f] lies below a cell of the surface mesh and a coupling to the
    surface is switched on: a coupled-domain condition claims the face. *)
Definition coupled_face (pk : Richards) (f : nat) : Prop :=
  (coupled_to_surface_via_head_ pk = true /\
   exists c, c < length (surface_pressure (S_next_ pk)) /\
             surface_entity_get_parent (S_next_ pk) c = f) \/
  (coupled_to_surface_via_flux_ pk = true /\
   exists c, c < length (surface_subsurface_flux (S_next_ pk)) /\
             surface_entity_get_parent (S_next_ pk) c = f).

(** The pressure field provides the values [BoundaryValue] needs. *)
Definition has_boundary_values (sol : CompositeVector) : Prop :=
  is_Some (cv_face sol) \/ is_Some (cv_boundary_face sol).

(** The state holds the temperature the flux loop asks for when the
    fluxes are shut off on frozen faces. *)
Definition has_temperature (pk : Richards) : Prop :=
  infiltrate_only_if_unfrozen_ pk = true ->
  is_Some (temperature (S_next_ pk)).

(** The look-ups of the composer succeed: the temperature is there when
    asked for, and so are the boundary pressures when there are seepage
    faces. *)
Definition can_compose (pk : Richards) : Prop :=
  has_temperature pk /\
  (has_boundary_values (pressure (S_next_ pk)) \/ bc_seepage_ pk = ∅).

(** *** The blocks, face by face *)

(** An entry after a rule had its say. *)
Definition override (rule : option bc_entry) (old : option bc_entry)
  : option bc_entry :=
  match rule with
  | Some e => (fun _ => e) <$> old
  | None => old
  end.

(** The flux loop without its error plumbing. *)
Definition flux_loop (kr : bool) (pk : Richards) : Richards :=
  map_fold (fun f v acc =>
              set_bc f OPERATOR_BC_NEUMANN (flux_value kr pk f v) acc)
           pk (bc_flux_ pk).

(** The seepage loop without its error plumbing. *)
Definition seepage_loop (pk : Richards) : Richards :=
  map_fold (fun f v acc =>
              set_bc f (seepage_entry pk f v).1 (seepage_entry pk f v).2 acc)
           pk (bc_seepage_ pk).

(** What the last block does to one entry of face [f]. *)
Definition remaining_entry (pk : Richards) (f : nat) (old : bc_entry)
  : bc_entry :=
  if decide (old.1 = OPERATOR_BC_NONE) then
    if decide (length (face_get_cells (mesh_ pk) f) = 1)
    then (OPERATOR_BC_NEUMANN, 0%Q) else old
  else old.

(** *** A small mesh for the examples

    Five faces, four of them owned: faces 0, 1 and 2 are boundary faces,
    face 3 is an interior face, face 4 is a ghost face that sees one cell
    on this partition.  One surface cell lies above face 2. *)

Definition example_mesh : Mesh :=
  {| num_faces_owned := 4; num_faces_used := 5;
     face_get_cells := fun f =>
       match f with 0 => [0] | 1 => [0] | 3 => [0; 1] | _ => [1] end;
     face_area := fun _ => 2%Q;
     face_map_GID := fun f => Z.of_nat f;
     cell_map_GID := fun c => Z.of_nat c;
     exterior_face_map_LID := fun g => g |}.

(** [p0] is the pressure at face 0; the ghost face holds the pressure 0,
    the relative permeability 0.25 and the temperature 290. *)
Definition example_state (p0 : double) : State :=
  {| pressure := {| cv_cell := mkComponent [1%Q; 2%Q] [];
                    cv_face := Some (mkComponent [p0; 0%Q; 7%Q; 3%Q] [0%Q]);
                    cv_boundary_face := None |};
     numerical_rel_perm := mkComponent [0.5%Q; 0.5%Q; 0%Q; 1%Q] [0.25%Q];
     temperature := Some (mkComponent [270%Q; 280%Q; 273.15%Q; 275%Q]
                                      [290%Q]);
     atmospheric_pressure := 101325%Q;
     surface_pressure := [101400%Q];
     surface_subsurface_flux := [3%Q];
     surface_entity_get_parent := fun _ => 2 |}.

(** A kernel with a seepage face 0 of threshold 0 that also carries a
    prescribed pressure, and prescribed fluxes at faces 1 and 2; the
    arrays hold stale entries of an earlier pass. *)
Definition example_pk (p0 : double) (unfrozen_only head flux : bool)
  : Richards :=
  {| mesh_ := example_mesh; S_next_ := example_state p0; vo_ := VERB_NONE;
     bc_pressure_ := {[ 0 := 100%Q ]};
     bc_flux_ := {[ 1 := 4%Q; 2 := 6%Q ]};
     bc_seepage_ := {[ 0 := 0%Q ]};
     infiltrate_only_if_unfrozen_ := unfrozen_only;
     coupled_to_surface_via_head_ := head;
     coupled_to_surface_via_flux_ := flux;
     update_flux_ := UPDATE_FLUX_ITERATION; niter_ := 0;
     bc_markers_ := replicate 5 OPERATOR_BC_DIRICHLET;
     bc_values_ := replicate 5 1%Q |}.

(** The state of the example with the pressure 9 at the ghost face. *)
Definition example_ghost_state : State :=
  {| pressure := {| cv_cell := mkComponent [1%Q; 2%Q] [];
                    cv_face := Some (mkComponent [5%Q; 0%Q; 7%Q; 3%Q] [9%Q]);
                    cv_boundary_face := None |};
     numerical_rel_perm := numerical_rel_perm (example_state 5%Q);
     temperature := temperature (example_state 5%Q);
     atmospheric_pressure := 101325%Q;
     surface_pressure := [101400%Q];
     surface_subsurface_flux := [3%Q];
     surface_entity_get_parent := fun _ => 2 |}.

(** A kernel on the mesh of the example with the state [S], the seepage
    faces [seepage] and the prescribed fluxes [flux], no prescribed
    pressure; coupled to the surface by head when [head] is set. *)
Definition example_pk_with (S : State) (seepage flux : gmap nat double)
  (unfrozen_only head : bool) : Richards :=
  {| mesh_ := example_mesh; S_next_ := S; vo_ := VERB_NONE;
     bc_pressure_ := ∅; bc_flux_ := flux; bc_seepage_ := seepage;
     infiltrate_only_if_unfrozen_ := unfrozen_only;
     coupled_to_surface_via_head_ := head;
     coupled_to_surface_via_flux_ := false;
     update_flux_ := UPDATE_FLUX_ITERATION; niter_ := 0;
     bc_markers_ := replicate 5 OPERATOR_BC_NONE;
     bc_values_ := replicate 5 0%Q |}.

(** The state of the example without its temperature field. *)
Definition example_state_without_temperature : State :=
  {| pressure := pressure (example_state 5%Q);
     numerical_rel_perm := numerical_rel_perm (example_state 5%Q);
     temperature := None;
     atmospheric_pressure := 101325%Q;
     surface_pressure := [101400%Q];
     surface_subsurface_flux := [3%Q];
     surface_entity_get_parent := fun _ => 2 |}.

(** A kernel that shuts the fluxes off on frozen faces, on that state. *)
Definition example_pk_without_temperature : Richards :=
  {| mesh_ := example_mesh; S_next_ := example_state_without_temperature;
     vo_ := VERB_NONE;
     bc_pressure_ := ∅; bc_flux_ := {[ 1 := 4%Q ]}; bc_seepage_ := ∅;
     infiltrate_only_if_unfrozen_ := true;
     coupled_to_surface_via_head_ := false;
     coupled_to_surface_via_flux_ := false;
     update_flux_ := UPDATE_FLUX_ITERATION; niter_ := 0;
     bc_markers_ := replicate 5 OPERATOR_BC_NONE;
     bc_values_ := replicate 5 0%Q |}.

(** A parameter list with the two coupling flags as given. *)
Definition example_plist (via_flux via_head : bool) : ParameterList :=
  {| pl_entries :=
       {[ "coupled to surface via flux" := PBool via_flux;
          "coupled to surface via head" := PBool via_head;
          "update flux mode" := PString "timestep" ]};
     pl_sublists := {[ "boundary conditions" := ∅ ]} |}.

Definition example_factory : FlowBCFactory :=
  {| CreatePressure := {[ 0 := 100%Q ]};
     CreateMassFlux := {[ 1 := 4%Q; 2 := 6%Q ]};
     CreateSeepageFacePressure := {[ 0 := 0%Q ]} |}.

(** The arrays of [example_pk 5 false false false] after one pass of the
    composer. *)
Definition example_composed_pk : Richards :=
  set_bc 0 OPERATOR_BC_DIRICHLET 0%Q
    (set_bc 1 OPERATOR_BC_NEUMANN (4 / 0.5)%Q
       (set_bc 2 OPERATOR_BC_NEUMANN 6%Q
          (set_bc 3 OPERATOR_BC_NONE 0%Q
             (set_bc 4 OPERATOR_BC_NONE 0%Q
                (example_pk 5%Q false false false))))).

End Flow.

(** * The energy kernel *)

Module Energy.

(** The state at one time level: the primary variable and the fields that
    no evaluator of this kernel owns, by key (owned views).  A field that
    was never required is a configuration error of the setup, which is not
    modelled: its view is empty here. *)
Record State : Type := mkState {
  time : double;
  (** field [key_] ("temperature") *)
  temperature : CompositeVector;
  fields : gmap string (list double);
  scalars : gmap string double
}.

Definition GetFieldData (S : State) (key : string) : list double :=
  default [] (fields S !! key).

Definition GetScalarData (S : State) (key : string) : double :=
  default 0%Q (scalars S !! key).

Definition set_field (key : string) (v : list double) (S : State) : State :=
  {| time := time S; temperature := temperature S;
     fields := <[key:=v]> (fields S); scalars := scalars S |}.

(** [PKDefaultBase::solution_to_state]: the solution becomes the primary
    variable of the state. *)
Definition solution_to_state (u : CompositeVector) (S : State) : State :=
  {| time := time S; temperature := u;
     fields := fields S; scalars := scalars S |}.

(** A [Functions::BoundaryFunction]: a function of time and the values of
    the last [Compute]. *)
Record BoundaryFunction : Type := mkBoundaryFunction {
  bf_func : double -> gmap nat double;
  bf_values : gmap nat double
}.

Definition Compute (t : double) (bf : BoundaryFunction) : BoundaryFunction :=
  {| bf_func := bf_func bf; bf_values := bf_func bf t |}.

(** The calls the kernel makes on the operator [mfd_preconditioner_]. *)
Inductive MFDCall : Type :=
  | CreateMFDstiffnessMatrices
  | CreateMFDrhsVectors
  | ApplyBoundaryConditions
  | AssembleGlobalMatrices
  | ComputeSchurComplement
  | UpdatePreconditioner.

#[global] Instance MFDCall_eq_dec : EqDecision MFDCall.
Proof. solve_decision. Defined.

(** The operator [Operators::MatrixMFD], which is not among the sources:
    its cell diagonal [Acc_cells()] and the calls made on it, in order. *)
Record MatrixMFD : Type := mkMatrixMFD {
  Acc_cells : list double;
  calls : list MFDCall
}.

(** The members set once at setup. *)
Record Config : Type := mkConfig {
  mesh_ : Mesh;
  vo_ : EVerbosityLevel;
  key_ : string;
  energy_key_ : string;
  de_dT_key_ : string;
  enthalpy_key_ : string;
  flux_key_ : string;
  energy_flux_key_ : string;
  conductivity_key_ : string;
  uw_conductivity_key_ : string;
  source_key_ : string;
  dsource_dT_key_ : string;
  cell_vol_key_ : string;
  is_source_term_ : bool;
  update_flux_ : EUpdateFlux;
  coupled_to_subsurface_via_temp_ : bool;
  coupled_to_subsurface_via_flux_ : bool;
  assemble_preconditioner_ : bool;
  atol_ : double;
  rtol_ : double
}.

(** The members of [EnergyBase] that change during the callbacks. *)
Record EnergyBase : Type := mkEnergyBase {
  config : Config;
  S_next_ : State;
  S_inter_ : State;
  niter_ : nat;
  bc_temperature_ : BoundaryFunction;
  bc_flux_ : BoundaryFunction;
  bc_markers_ : list Matrix_bc;
  bc_values_ : list double;
  (** [advection_->field()] *)
  advection_field_ : CompositeVector;
  mfd_preconditioner_ : MatrixMFD
}.

Definition with_niter (n : nat) (pk : EnergyBase) : EnergyBase :=
  {| config := config pk; S_next_ := S_next_ pk; S_inter_ := S_inter_ pk;
     niter_ := n;
     bc_temperature_ := bc_temperature_ pk; bc_flux_ := bc_flux_ pk;
     bc_markers_ := bc_markers_ pk; bc_values_ := bc_values_ pk;
     advection_field_ := advection_field_ pk;
     mfd_preconditioner_ := mfd_preconditioner_ pk |}.

Definition with_S_next (S : State) (pk : EnergyBase) : EnergyBase :=
  {| config := config pk; S_next_ := S; S_inter_ := S_inter_ pk;
     niter_ := niter_ pk;
     bc_temperature_ := bc_temperature_ pk; bc_flux_ := bc_flux_ pk;
     bc_markers_ := bc_markers_ pk; bc_values_ := bc_values_ pk;
     advection_field_ := advection_field_ pk;
     mfd_preconditioner_ := mfd_preconditioner_ pk |}.

Definition with_bc_functions (bc_temperature bc_flux : BoundaryFunction)
  (pk : EnergyBase) : EnergyBase :=
  {| config := config pk; S_next_ := S_next_ pk; S_inter_ := S_inter_ pk;
     niter_ := niter_ pk;
     bc_temperature_ := bc_temperature; bc_flux_ := bc_flux;
     bc_markers_ := bc_markers_ pk; bc_values_ := bc_values_ pk;
     advection_field_ := advection_field_ pk;
     mfd_preconditioner_ := mfd_preconditioner_ pk |}.

Definition with_bcs (markers : list Matrix_bc) (values : list double)
  (pk : EnergyBase) : EnergyBase :=
  {| config := config pk; S_next_ := S_next_ pk; S_inter_ := S_inter_ pk;
     niter_ := niter_ pk;
     bc_temperature_ := bc_temperature_ pk; bc_flux_ := bc_flux_ pk;
     bc_markers_ := markers; bc_values_ := values;
     advection_field_ := advection_field_ pk;
     mfd_preconditioner_ := mfd_preconditioner_ pk |}.

Definition with_advection_field (field : CompositeVector) (pk : EnergyBase)
  : EnergyBase :=
  {| config := config pk; S_next_ := S_next_ pk; S_inter_ := S_inter_ pk;
     niter_ := niter_ pk;
     bc_temperature_ := bc_temperature_ pk; bc_flux_ := bc_flux_ pk;
     bc_markers_ := bc_markers_ pk; bc_values_ := bc_values_ pk;
     advection_field_ := field;
     mfd_preconditioner_ := mfd_preconditioner_ pk |}.

Definition with_preconditioner (m : MatrixMFD) (pk : EnergyBase)
  : EnergyBase :=
  {| config := config pk; S_next_ := S_next_ pk; S_inter_ := S_inter_ pk;
     niter_ := niter_ pk;
     bc_temperature_ := bc_temperature_ pk; bc_flux_ := bc_flux_ pk;
     bc_markers_ := bc_markers_ pk; bc_values_ := bc_values_ pk;
     advection_field_ := advection_field_ pk;
     mfd_preconditioner_ := m |}.

(** [CompositeVector::PutScalar]. *)
Definition PutScalar_component (x : double) (c : Component) : Component :=
  {| cp_owned := (fun _ => x) <$> cp_owned c;
     cp_ghost := (fun _ => x) <$> cp_ghost c |}.

Definition PutScalar (x : double) (v : CompositeVector) : CompositeVector :=
  {| cv_cell := PutScalar_component x (cv_cell v);
     cv_face := PutScalar_component x <$> cv_face v;
     cv_boundary_face := PutScalar_component x <$> cv_boundary_face v |}.

(** The owned cells of a vector, read and replaced. *)
Definition cells (v : CompositeVector) : list double := cp_owned (cv_cell v).

Definition with_cells (c : list double) (v : CompositeVector)
  : CompositeVector :=
  {| cv_cell := {| cp_owned := c; cp_ghost := cp_ghost (cv_cell v) |};
     cv_face := cv_face v;
     cv_boundary_face := cv_boundary_face v |}.

(** The owned faces of a vector; the view of an absent component is
    empty. *)
Definition faces (v : CompositeVector) : list double :=
  match cv_face v with
  | Some face => cp_owned face
  | None => []
  end.

(** [x <= y] on doubles, as a boolean. *)
Definition dle (x y : double) : bool := negb (dlt y x).

(** The error monitor works on the part of the residual of each process. *)
Record Rank : Type := mkRank { rk_pk : EnergyBase; rk_du : CompositeVector }.

Section Collaborators.

(** Modelled from the spec: the field evaluators, which are not among
    the sources.  By the laws of the evaluator graph (never stale, no
    side effect beyond the cached value) the value read after
    [HasFieldChanged] is a function of the state: [evaluate key S] is the
    field [key] so computed, [evaluate_derivative key wrt S] its partial
    derivative after [HasFieldDerivativeChanged], and
    [IsDependency key wrt] tells whether the evaluator of [key] depends
    on [wrt]. *)
Variable evaluate : string -> State -> CompositeVector.
Variable evaluate_derivative : string -> string -> State -> CompositeVector.
Variable IsDependency : string -> string -> bool.

(** Modelled from the spec: the composer
    [EnergyBase::UpdateBoundaryConditions_], which is not among the
    sources.  It recomputes the two arrays, of the given size, from the
    computed boundary functions and the state. *)
Variable compose_bcs :
  Config -> State -> gmap nat double -> gmap nat double -> nat ->
  list Matrix_bc * list double.

(** Modelled from the spec: [EnergyBase::UpdateConductivityData_], not
    among the sources.  It upwinds the conductivity of the state and
    stores it in the state, as the field [uw_conductivity_key_], from
    which its callers read it back; [upwind_conductivity] is the value
    it stores. *)
Variable upwind_conductivity : Config -> State -> list double.

Definition UpdateConductivityData_ (cfg : Config) (S : State) : State :=
  set_field (uw_conductivity_key_ cfg) (upwind_conductivity cfg S) S.

(** Modelled from the spec: the diffusion operator [matrix_diff_], an
    external collaborator.  [UpdateFlux] gives the face fluxes of a
    temperature for a conductivity; [ComputeNegativeResidual] the
    residual of the operator set up with a conductivity and the boundary
    conditions, applied to a temperature and written over [g]. *)
Variable UpdateFlux : list double -> CompositeVector -> list double.
Variable ComputeNegativeResidual :
  list double -> list Matrix_bc -> list double ->
  CompositeVector -> CompositeVector -> CompositeVector.

(** Modelled from the spec: [ApplyDirichletBCsToEnthalpy_] and the
    advection operator [advection_], external collaborators acting on
    the advected field. *)
Variable ApplyDirichletBCsToEnthalpy_ :
  Config -> State -> gmap nat double -> list Matrix_bc -> list double ->
  CompositeVector -> CompositeVector.
Variable Advection_Apply :
  list double -> gmap nat double -> CompositeVector -> CompositeVector.

(** Modelled from the spec: the cell diagonal that
    [CreateMFDstiffnessMatrices] builds from a conductivity. *)
Variable stiffness_Acc : CompositeVector -> list double.

(** [UpdateBoundaryConditions_()] *)
Definition UpdateBoundaryConditions_ (pk : EnergyBase) : EnergyBase :=
  let '(markers, values) :=
    compose_bcs (config pk) (S_next_ pk)
                (bf_values (bc_temperature_ pk)) (bf_values (bc_flux_ pk))
                (length (bc_markers_ pk)) in
  with_bcs markers values pk.

(** [EnergyBase::ApplyDiffusion_], called with [S = S_next_]: the
    conductivity is written to the state and read back from it. *)
Definition ApplyDiffusion_ (pk : EnergyBase) (g : CompositeVector)
  : EnergyBase * CompositeVector :=
  let pk :=
    with_S_next (UpdateConductivityData_ (config pk) (S_next_ pk)) pk in
  let conductivity :=
    GetFieldData (S_next_ pk) (uw_conductivity_key_ (config pk)) in
  let temp := temperature (S_next_ pk) in
  let pk :=
    match update_flux_ (config pk) with
    | UPDATE_FLUX_ITERATION =>
      with_S_next (set_field (energy_flux_key_ (config pk))
                             (UpdateFlux conductivity temp) (S_next_ pk)) pk
    | _ => pk
    end in
  (pk, ComputeNegativeResidual conductivity (bc_markers_ pk) (bc_values_ pk)
                               temp g).

(** [EnergyBase::AddAccumulation_]: [g_c = 1.0 * g_c + e1 / dt - e0 / dt]
    on the owned cells. *)
Definition AddAccumulation_ (pk : EnergyBase) (g : CompositeVector)
  : CompositeVector :=
  let dt := (time (S_next_ pk) - time (S_inter_ pk))%Q in
  let e1 := cells (evaluate (energy_key_ (config pk)) (S_next_ pk)) in
  let e0 := cells (evaluate (energy_key_ (config pk)) (S_inter_ pk)) in
  with_cells
    (imap (fun c x => (1.0 * x + (1.0 / dt) * vget e1 c
                       + (-1.0 / dt) * vget e0 c)%Q) (cells g)) g.

(** [EnergyBase::AddAdvection_], called with [S = S_next_]. *)
Definition AddAdvection_ (pk : EnergyBase) (g : CompositeVector)
  (negate : bool) : EnergyBase * CompositeVector :=
  let field := PutScalar 0%Q (advection_field_ pk) in
  let flux := GetFieldData (S_next_ pk) (flux_key_ (config pk)) in
  let enthalpy := evaluate (enthalpy_key_ (config pk)) (S_next_ pk) in
  let field := with_cells (cells enthalpy) field in
  let field :=
    ApplyDirichletBCsToEnthalpy_ (config pk) (S_next_ pk)
      (bf_values (bc_temperature_ pk)) (bc_markers_ pk) (bc_values_ pk)
      field in
  let field := Advection_Apply flux (bf_values (bc_flux_ pk)) field in
  let field_c := cells field in
  let c_owned := length (cells g) in
  let g_c :=
    if negate then
      foldl (fun g_c c => <[c:=(vget g_c c - vget field_c c)%Q]> g_c)
            (cells g) (seq 0 c_owned)
    else
      foldl (fun g_c c => <[c:=(vget g_c c + vget field_c c)%Q]> g_c)
            (cells g) (seq 0 c_owned) in
  (with_advection_field field pk, with_cells g_c g).

(** [EnergyBase::AddSources_], called with [S = S_next_]. *)
Definition AddSources_ (pk : EnergyBase) (g : CompositeVector)
  : CompositeVector :=
  if is_source_term_ (config pk) then
    let source1 := cells (evaluate (source_key_ (config pk)) (S_next_ pk)) in
    let ncells := length (cells g) in
    with_cells
      (foldl (fun g_c c => <[c:=(vget g_c c - vget source1 c)%Q]> g_c)
             (cells g) (seq 0 ncells)) g
  else g.

(** [EnergyBase::fun]: the kernel after the call and the residual
    written to [g].  The debugging output is not modelled; the dump of
    the residual by iteration number is compiled out
    ([MORE_DEBUG_FLAG] is 0). *)
Definition fun_ (t_old t_new : double) (u_old u_new g : CompositeVector)
  (pk : EnergyBase) : EnergyBase * CompositeVector :=
  let pk := with_niter (S (niter_ pk)) pk in
  let h := (t_new - t_old)%Q in
  let pk := with_S_next (solution_to_state u_new (S_next_ pk)) pk in
  let pk := with_bc_functions (Compute t_new (bc_temperature_ pk))
                              (Compute t_new (bc_flux_ pk)) pk in
  let pk := UpdateBoundaryConditions_ pk in
  let res := PutScalar 0.0%Q g in
  let '(pk, res) := ApplyDiffusion_ pk res in
  let res := AddAccumulation_ pk res in
  let '(pk, res) := AddAdvection_ pk res true in
  let res := AddSources_ pk res in
  (pk, res).

(** One call on [mfd_preconditioner_]. *)
Definition mfd_call (c : MFDCall) (m : MatrixMFD) : MatrixMFD :=
  {| Acc_cells := Acc_cells m; calls := calls m ++ [c] |}.

Definition with_Acc_cells (acc : list double) (m : MatrixMFD) : MatrixMFD :=
  {| Acc_cells := acc; calls := calls m |}.

(** The coupling of the surface kernel to the subsurface, by
    temperature or by flux. *)
Definition coupled_to_subsurface (pk : EnergyBase) : bool :=
  coupled_to_subsurface_via_temp_ (config pk)
  || coupled_to_subsurface_via_flux_ (config pk).

(** "update the diagonal" of [update_precon]: the accumulation
    derivative [de_dT / h], left out of the cells whose surface pressure
    is below the atmospheric one when the kernel is coupled. *)
Definition update_diagonal (pk : EnergyBase) (de_dT : list double)
  (h : double) (Acc_cells : list double) : list double :=
  let ncells := length de_dT in
  if coupled_to_subsurface pk then
    let pres := GetFieldData (S_next_ pk) "surface_pressure" in
    let patm := GetScalarData (S_next_ pk) "atmospheric_pressure" in
    foldl (fun Acc_cells c =>
             <[c:=(vget Acc_cells c +
                   (if dge (vget pres c) patm then vget de_dT c / h
                    else 0))%Q]> Acc_cells)
          Acc_cells (seq 0 ncells)
  else
    foldl (fun Acc_cells c =>
             <[c:=(vget Acc_cells c + vget de_dT c / h)%Q]> Acc_cells)
          Acc_cells (seq 0 ncells).

(** [EnergyBase::AddSourcesToPrecon_], on the cell diagonal of the
    preconditioner. *)
Definition AddSourcesToPrecon_ (pk : EnergyBase) (h : double)
  (Acc_cells : list double) : list double :=
  if is_source_term_ (config pk)
     && IsDependency (source_key_ (config pk)) (key_ (config pk)) then
    let dsource_dT :=
      cells (evaluate_derivative (source_key_ (config pk))
                                 (key_ (config pk)) (S_next_ pk)) in
    let ncells := length dsource_dT in
    foldl (fun Acc_cells c =>
             <[c:=(vget Acc_cells c - vget dsource_dT c)%Q]> Acc_cells)
          Acc_cells (seq 0 ncells)
  else Acc_cells.

(** "Assemble" of [update_precon]. *)
Definition assemble (pk : EnergyBase) (m : MatrixMFD) : MatrixMFD :=
  if coupled_to_subsurface pk then
    mfd_call AssembleGlobalMatrices m
  else if assemble_preconditioner_ (config pk) then
    mfd_call UpdatePreconditioner
      (mfd_call ComputeSchurComplement
         (mfd_call AssembleGlobalMatrices m))
  else m.

(** [EnergyBase::update_precon]. *)
Definition update_precon (t : double) (up : CompositeVector) (h : double)
  (pk : EnergyBase) : result EnergyBase :=
  _ ← ASSERT (dle (dabs (time (S_next_ pk) - t)) (1e-4 * t)%Q)
        "std::abs(S_next_->time() - t) <= 1.e-4*t";
  let pk := with_S_next (solution_to_state up (S_next_ pk)) pk in
  let pk :=
    with_bc_functions
      (Compute (time (S_next_ pk)) (bc_temperature_ pk))
      (Compute (time (S_next_ pk)) (bc_flux_ pk)) pk in
  let pk := UpdateBoundaryConditions_ pk in
  let conductivity :=
    evaluate (conductivity_key_ (config pk)) (S_next_ pk) in
  let m := mfd_preconditioner_ pk in
  let m := mfd_call CreateMFDstiffnessMatrices
             (with_Acc_cells (stiffness_Acc conductivity) m) in
  let m := mfd_call CreateMFDrhsVectors m in
  let de_dT :=
    cells (evaluate_derivative (energy_key_ (config pk))
                               (key_ (config pk)) (S_next_ pk)) in
  let m := with_Acc_cells (update_diagonal pk de_dT h (Acc_cells m)) m in
  let m := with_Acc_cells (AddSourcesToPrecon_ pk h (Acc_cells m)) m in
  let m := mfd_call ApplyBoundaryConditions m in
  let m := assemble pk m in
  Ok (with_preconditioner m pk).

(** The two loops of [EnergyBase::enorm] on the residual of one
    process: the worst cell ratio with its cell, and the worst face
    ratio.  The quotient of doubles is the quotient of rationals where
    the denominator is not zero; a zero denominator, which gives an
    infinity or a NaN in the source, is outside the model. *)
Definition enorm_cell_ratio (pk : EnergyBase) (du : CompositeVector)
  (c : nat) : double :=
  let energy := cells (evaluate (energy_key_ (config pk)) (S_next_ pk)) in
  let cv := GetFieldData (S_next_ pk) (cell_vol_key_ (config pk)) in
  let h := (time (S_next_ pk) - time (S_inter_ pk))%Q in
  (dabs (h * vget (cells du) c) /
   (atol_ (config pk) * vget cv c * 2e6
    + rtol_ (config pk) * dabs (vget energy c)))%Q.

Definition enorm_face_ratio (pk : EnergyBase) (du : CompositeVector)
  (f : nat) : double :=
  (1e-4 * dabs (vget (faces du) f) /
   (atol_ (config pk) + rtol_ (config pk) * 273.15))%Q.

Definition enorm_cell_loop (pk : EnergyBase) (du : CompositeVector)
  : double * Z :=
  foldl (fun '(enorm_cell, bad_cell) c =>
           let tmp := enorm_cell_ratio pk du c in
           if dgt tmp enorm_cell then (tmp, Z.of_nat c)
           else (enorm_cell, bad_cell))
        (0%Q, (-1)%Z) (seq 0 (length (cells du))).

Definition enorm_face_loop (pk : EnergyBase) (du : CompositeVector)
  : double :=
  foldl (fun enorm_face f => std_max enorm_face (enorm_face_ratio pk du f))
        0%Q (seq 0 (length (faces du))).

(** [EnergyBase::enorm], with [HAVE_MPI]: the value returned to the time
    integrator.  All processes run at the verbosity of the caller (the
    reductions under the verbosity test are collective). *)
Definition enorm (pk : EnergyBase) (peers : list Rank)
  (u du : CompositeVector) : double :=
  let enorm_cell := (enorm_cell_loop pk du).1 in
  let enorm_face := enorm_face_loop pk du in
  let others_cell :=
    (fun r => (enorm_cell_loop (rk_pk r) (rk_du r)).1) <$> peers in
  let others_face :=
    (fun r => enorm_face_loop (rk_pk r) (rk_du r)) <$> peers in
  if os_OK (vo_ (config pk)) VERB_MEDIUM then
    let enorm_cell := Allreduce MPI_MAX enorm_cell others_cell in
    let enorm_face := Allreduce MPI_MAX enorm_face others_face in
    let enorm_val := std_max enorm_face enorm_cell in
    Allreduce MPI_MAX enorm_val ((fun _ => enorm_val) <$> peers)
  else
    let enorm_val := std_max enorm_face enorm_cell in
    Allreduce MPI_MAX enorm_val
      ((fun r => std_max (enorm_face_loop (rk_pk r) (rk_du r))
                         (enorm_cell_loop (rk_pk r) (rk_du r)).1)
       <$> peers).

(** *** Auxiliary notions for the properties *)

(** The ratios of the error norm are defined on a process: the residual
    has faces, each of its cells has its volume and its energy in the
    state, and no denominator is zero (the model has no infinity and no
    NaN for the quotient by zero). *)
Definition well_scaled (pk : EnergyBase) (du : CompositeVector) : Prop :=
  is_Some (cv_face du) /\
  (forall c, c < length (cells du) ->
     exists vol e,
       GetFieldData (S_next_ pk) (cell_vol_key_ (config pk)) !! c = Some vol /\
       cells (evaluate (energy_key_ (config pk)) (S_next_ pk)) !! c = Some e /\
       ~ (atol_ (config pk) * vol * 2e6
          + rtol_ (config pk) * Qabs e == 0)%Q) /\
  ~ (atol_ (config pk) + rtol_ (config pk) * 273.15 == 0)%Q.

(** The kernel on which the blocks of [update_precon] work: the state
    holds the solution, the boundary conditions are recomputed. *)
Definition precon_kernel (up : CompositeVector) (pk : EnergyBase)
  : EnergyBase :=
  UpdateBoundaryConditions_
    (with_bc_functions
       (Compute (time (S_next_ pk)) (bc_temperature_ pk))
       (Compute (time (S_next_ pk)) (bc_flux_ pk))
       (with_S_next (solution_to_state up (S_next_ pk)) pk)).

(** The calls a configuration makes to assemble the preconditioner. *)
Definition assembly_calls (pk : EnergyBase) : list MFDCall :=
  if coupled_to_subsurface pk then [AssembleGlobalMatrices]
  else if assemble_preconditioner_ (config pk) then
    [AssembleGlobalMatrices; ComputeSchurComplement; UpdatePreconditioner]
  else [].

(** The fields of the new-time state that [fun] writes before any of
    its blocks in the sources reads them: the upwinded conductivity and,
    when the fluxes are updated at every iteration, the energy flux. *)
Definition overwritten (cfg : Config) (key : string) : Prop :=
  key = uw_conductivity_key_ cfg \/
  (update_flux_ cfg = UPDATE_FLUX_ITERATION /\ key = energy_flux_key_ cfg).

(** Two states are the same up to the fields that [fun] overwrites. *)
Definition same_state (cfg : Config) (S1 S2 : State) : Prop :=
  time S1 = time S2 /\ temperature S1 = temperature S2 /\
  scalars S1 = scalars S2 /\
  forall key, ~ overwritten cfg key -> fields S1 !! key = fields S2 !! key.

(** The layout of a vector, apart from its number of owned cells. *)
Definition layout (v : CompositeVector) : CompositeVector :=
  with_cells [] (PutScalar 0%Q v).

(** Two kernels agree on what the blocks of [fun] after the diffusion
    read. *)
Definition agree (pk1 pk2 : EnergyBase) : Prop :=
  config pk1 = config pk2 /\
  S_next_ pk1 = S_next_ pk2 /\
  S_inter_ pk1 = S_inter_ pk2 /\
  bf_values (bc_temperature_ pk1) = bf_values (bc_temperature_ pk2) /\
  bf_values (bc_flux_ pk1) = bf_values (bc_flux_ pk2) /\
  bc_markers_ pk1 = bc_markers_ pk2 /\
  bc_values_ pk1 = bc_values_ pk2 /\
  layout (advection_field_ pk1) = layout (advection_field_ pk2).

(** Two kernels agree on what the diffusion block reads. *)
Definition agree_reads (pk1 pk2 : EnergyBase) : Prop :=
  config pk1 = config pk2 /\
  same_state (config pk1) (S_next_ pk1) (S_next_ pk2) /\
  S_inter_ pk1 = S_inter_ pk2 /\
  bf_values (bc_temperature_ pk1) = bf_values (bc_temperature_ pk2) /\
  bf_values (bc_flux_ pk1) = bf_values (bc_flux_ pk2) /\
  bc_markers_ pk1 = bc_markers_ pk2 /\
  bc_values_ pk1 = bc_values_ pk2 /\
  layout (advection_field_ pk1) = layout (advection_field_ pk2).

(** The kernel on which the blocks of [fun] work, for the new time and
    the new solution. *)
Definition fun_kernel (t_new : double) (u_new : CompositeVector)
  (pk : EnergyBase) : EnergyBase :=
  UpdateBoundaryConditions_
    (with_bc_functions
       (Compute t_new (bc_temperature_ pk)) (Compute t_new (bc_flux_ pk))
       (with_S_next (solution_to_state u_new (S_next_ pk))
          (with_niter (S (niter_ pk)) pk))).

End Collaborators.

(** What the residual of [fun] may depend on, for two kernels called at
    the new time [t_new] with the new solution [u_new] and the residual
    vectors [g1] and [g2]: the configuration, the new-time state once it
    holds the solution, up to the fields [fun] overwrites, the old-time
    state, the boundary functions at the new time, and the shapes (not
    the contents) of the two boundary arrays, of the residual vector and
    of the field of the advection operator. *)
Definition same_inputs (t_new : double) (u_new g1 g2 : CompositeVector)
  (pk1 pk2 : EnergyBase) : Prop :=
  config pk1 = config pk2 /\
  same_state (config pk1) (solution_to_state u_new (S_next_ pk1))
                          (solution_to_state u_new (S_next_ pk2)) /\
  S_inter_ pk1 = S_inter_ pk2 /\
  bf_func (bc_temperature_ pk1) t_new = bf_func (bc_temperature_ pk2) t_new /\
  bf_func (bc_flux_ pk1) t_new = bf_func (bc_flux_ pk2) t_new /\
  length (bc_markers_ pk1) = length (bc_markers_ pk2) /\
  PutScalar 0.0%Q g1 = PutScalar 0.0%Q g2 /\
  layout (advection_field_ pk1) = layout (advection_field_ pk2).

(** *** A small problem for the examples

    Two cells and three faces on one process; the collaborators are the
    simplest ones of their types. *)

Definition example_vector (c0 c1 f0 f1 f2 : double) : CompositeVector :=
  {| cv_cell := mkComponent [c0; c1] [];
     cv_face := Some (mkComponent [f0; f1; f2] []);
     cv_boundary_face := None |}.

Definition example_mesh : Mesh :=
  {| num_faces_owned := 3; num_faces_used := 3;
     face_get_cells := fun f => match f with 1 => [0; 1] | 0 => [0] | _ => [1] end;
     face_area := fun _ => 1%Q;
     face_map_GID := fun f => Z.of_nat f;
     cell_map_GID := fun c => Z.of_nat c;
     exterior_face_map_LID := fun g => g |}.

Definition example_config (via_temp via_flux assemble_pc : bool)
  (vo : EVerbosityLevel) : Config :=
  {| mesh_ := example_mesh; vo_ := vo;
     key_ := "temperature"; energy_key_ := "energy";
     de_dT_key_ := "denergy_dtemperature"; enthalpy_key_ := "enthalpy";
     flux_key_ := "mass_flux"; energy_flux_key_ := "energy_flux";
     conductivity_key_ := "thermal_conductivity";
     uw_conductivity_key_ := "upwind_thermal_conductivity";
     source_key_ := "total_energy_source";
     dsource_dT_key_ := "dtotal_energy_source_dtemperature";
     cell_vol_key_ := "cell_volume";
     is_source_term_ := false; update_flux_ := UPDATE_FLUX_ITERATION;
     coupled_to_subsurface_via_temp_ := via_temp;
     coupled_to_subsurface_via_flux_ := via_flux;
     assemble_preconditioner_ := assemble_pc;
     atol_ := 1%Q; rtol_ := 1%Q |}.

(** The state at time [t]: cell 0 is ponded (surface pressure above the
    atmospheric one), cell 1 is dry. *)
Definition example_state (t : double) : State :=
  {| time := t;
     temperature := example_vector 274%Q 275%Q 274%Q 274.5%Q 275%Q;
     fields := {[ "surface_pressure" := [101400%Q; 101000%Q];
                  "cell_volume" := [1%Q; 1%Q];
                  "mass_flux" := [0%Q; 0%Q; 0%Q];
                  "energy_flux" := [0%Q; 0%Q; 0%Q] ]};
     scalars := {[ "atmospheric_pressure" := 101325%Q ]} |}.

Definition example_pk (cfg : Config) (niter : nat) : EnergyBase :=
  {| config := cfg;
     S_next_ := example_state 10%Q; S_inter_ := example_state 8%Q;
     niter_ := niter;
     bc_temperature_ := mkBoundaryFunction (fun _ => {[ 0 := 273%Q ]}) ∅;
     bc_flux_ := mkBoundaryFunction (fun _ => {[ 2 := 0%Q ]}) ∅;
     bc_markers_ := replicate 3 OPERATOR_BC_NONE;
     bc_values_ := replicate 3 0%Q;
     advection_field_ := example_vector 9%Q 9%Q 9%Q 9%Q 9%Q;
     mfd_preconditioner_ := {| Acc_cells := []; calls := [] |} |}.

(** Energy and enthalpy proportional to the cell temperatures, constant
    conductivity and derivatives. *)
Definition example_evaluate (key : string) (S : State) : CompositeVector :=
  if String.eqb key "energy" then
    with_cells ((fun T => (2 * T)%Q) <$> cells (temperature S))
               (temperature S)
  else temperature S.

Definition example_evaluate_derivative (key wrt : string) (S : State)
  : CompositeVector :=
  PutScalar 2%Q (temperature S).

Definition example_compose_bcs (cfg : Config) (S : State)
  (bc_temperature bc_flux : gmap nat double) (n : nat)
  : list Matrix_bc * list double :=
  (replicate n OPERATOR_BC_NEUMANN, replicate n 0%Q).

(** The same kernel later in its life: another iteration count, stale
    boundary arrays, a used advection field, the energy flux and the
    upwinded conductivity of an earlier iterate in its state. *)
Definition example_pk_later (cfg : Config) : EnergyBase :=
  with_niter 7
    (with_bcs (replicate 3 OPERATOR_BC_DIRICHLET) (replicate 3 5%Q)
       (with_advection_field (example_vector 1%Q 1%Q 1%Q 1%Q 1%Q)
          (with_S_next
             (set_field "energy_flux" [9%Q; 9%Q; 9%Q]
                (set_field "upwind_thermal_conductivity" [2%Q; 2%Q; 2%Q]
                   (example_state 10%Q)))
             (example_pk cfg 0)))).

Definition example_stiffness_Acc (conductivity : CompositeVector)
  : list double :=
  [10%Q; 10%Q].

Definition example_conductivity (cfg : Config) (S : State)
  : list double :=
  (fun _ => 1%Q) <$> faces (temperature S).

Definition example_flux (conductivity : list double)
  (temp : CompositeVector) : list double :=
  faces temp.

Definition example_enthalpy_bcs (cfg : Config) (S : State)
  (bc_temperature : gmap nat double) (markers : list Matrix_bc)
  (values : list double) (field : CompositeVector) : CompositeVector :=
  field.

Definition example_advection (flux : list double)
  (bc_flux : gmap nat double) (field : CompositeVector) : CompositeVector :=
  field.

Definition example_residual (conductivity : list double)
  (markers : list Matrix_bc) (values : list double)
  (temp g : CompositeVector) : CompositeVector :=
  temp.

End Energy.

(** * Auxiliary notions for the composer of the flow kernel *)

Module Composer.
Import Flow.

(** The sizes of the two boundary arrays. *)
Definition shape (pk : Richards) : nat * nat :=
  (length (bc_markers_ pk), length (bc_values_ pk)).

(** The kernel [example_pk 5 false false false] with other stale entries
    in its arrays. *)
Definition example_stale_pk : Richards :=
  set_bc 0 OPERATOR_BC_NONE 7%Q
    (set_bc 3 OPERATOR_BC_NEUMANN 9%Q (example_pk 5%Q false false false)).

(** A parameter list that couples by head and asks for flux updates
    once per time step. *)
Definition example_head_plist : ParameterList := example_plist false true.

End Composer.

(** * The consistent-face predictor of the flow kernel *)

Module Predictor.
Import Flow.

(** Modelled from the spec: [CompositeVector::ScatterMasterToGhosted],
    which is not among the sources.  The ghost entries of the component
    take the values that their master copies hold on the processes that
    own them, [master i] for the ghost entry [i]; the owned entries are
    not touched. *)
Definition ScatterMasterToGhosted (master : nat -> double) (c : Component)
  : Component :=
  {| cp_owned := cp_owned c;
     cp_ghost := imap (fun i _ => master i) (cp_ghost c) |}.

(** "average cells to faces to give a reasonable place to start", the
    first block of [Richards::CalculateConsistentFaces]: [u_c] is the
    ghosted view of the cells, [u_f] the owned view of the faces.  The
    faces of a mesh have one or two cells; for a face without cells the
    source divides [0.0] by [0], a NaN, which is outside the model. *)
Definition average_cells_to_faces (master : nat -> double) (mesh : Mesh)
  (u : CompositeVector) : result CompositeVector :=
  let cell := ScatterMasterToGhosted master (cv_cell u) in
  let u_c := ghosted cell in
  match cv_face u with
  | None => Err (Exception "component face is not defined")
  | Some face =>
    let f_owned := length (cp_owned face) in
    let u_f :=
      foldl (fun u_f f =>
               let cells := face_get_cells mesh f in
               let ncells := length cells in
               let face_value :=
                 foldl (fun face_value c => (face_value + vget u_c c)%Q)
                       0.0%Q cells in
               <[f:=(face_value / inject_Z (Z.of_nat ncells))%Q]> u_f)
            (cp_owned face) (seq 0 f_owned) in
    Ok {| cv_cell := cell;
          cv_face := Some {| cp_owned := u_f; cp_ghost := cp_ghost face |};
          cv_boundary_face := cv_boundary_face u |}
  end.

(** An iterate on the mesh of the example whose cell 1 is a ghost cell
    with a stale value. *)
Definition example_iterate : CompositeVector :=
  {| cv_cell := mkComponent [1%Q] [100%Q];
     cv_face := Some (mkComponent [5%Q; 0%Q; 7%Q; 3%Q] [0%Q]);
     cv_boundary_face := None |}.

End Predictor.

(** * The van Genuchten water retention model *)

Module WRM.

(** [get<double>(name)] without a default: an absent entry throws, as an
    entry of another type does. *)
Definition get_double_required (entries : gmap string ParameterEntry)
  (name : string) : result double :=
  match entries !! name with
  | Some (PDouble d) => Ok d
  | Some _ => Err (Exception ("invalid parameter type: " ++ name))
  | None => Err (Exception ("parameter not found: " ++ name))
  end.

(** [isParameter(name)] *)
Definition isParameter (entries : gmap string ParameterEntry)
  (name : string) : bool :=
  bool_decide (is_Some (entries !! name)).

Inductive Krel_function : Type :=
  | FLOW_WRM_MUALEM
  | FLOW_WRM_BURDINE.

(** The arguments of [Spline::Setup(x0, y0, dy0, x1, y1, dy1)]. *)
Record Spline : Type := mkSpline {
  x0 : double; y0 : double; dy0 : double;
  x1 : double; y1 : double; dy1 : double
}.

(** The members of [WRMVanGenuchten]; [fit_] is [None] as long as the
    spline was not set up. *)
Record WRMVanGenuchten : Type := mkWRMVanGenuchten {
  function_ : Krel_function;
  alpha_ : double;
  sr_ : double;
  l_ : double;
  m_ : double;
  n_ : double;
  s0_ : double;
  fit_ : option Spline
}.

Definition FLOW_WRM_TOLERANCE : double := 1e-10%Q.

Section Libm.

(** [pow] of the C library, and the value and the derivative of the
    Hermite spline [fit_] at a point: functions outside the sources. *)
Variable pow : double -> double -> double.
Variable Spline_value : option Spline -> double -> double.
Variable Spline_Derivative : option Spline -> double -> double.

(** [WRMVanGenuchten::k_relative] *)
Definition k_relative (wrm : WRMVanGenuchten) (s : double) : double :=
  if Energy.dle s (s0_ wrm) then
    let se := ((s - sr_ wrm) / (1 - sr_ wrm))%Q in
    match function_ wrm with
    | FLOW_WRM_MUALEM =>
      (pow se (l_ wrm)
       * pow (1.0 - pow (1.0 - pow se (1.0 / m_ wrm)) (m_ wrm)) 2.0)%Q
    | FLOW_WRM_BURDINE =>
      (se * se * (1.0 - pow (1.0 - pow se (1.0 / m_ wrm)) (m_ wrm)))%Q
    end
  else if Qeq_bool s 1.0 then 1.0%Q
  else Spline_value (fit_ wrm) s.

(** [WRMVanGenuchten::d_k_relative] *)
Definition d_k_relative (wrm : WRMVanGenuchten) (s : double) : double :=
  if Energy.dle s (s0_ wrm) then
    let se := ((s - sr_ wrm) / (1 - sr_ wrm))%Q in
    let x := pow se (1.0 / m_ wrm)%Q in
    if dlt (dabs (1.0 - x)) FLOW_WRM_TOLERANCE then 0.0%Q
    else
      let y := pow (1.0 - x)%Q (m_ wrm) in
      let dkdse :=
        match function_ wrm with
        | FLOW_WRM_MUALEM =>
          ((1.0 - y) * (l_ wrm * (1.0 - y) + 2 * x * y / (1.0 - x))
           * pow se (l_ wrm - 1.0))%Q
        | FLOW_WRM_BURDINE =>
          ((2 * (1.0 - y) + x / (1.0 - x)) * se)%Q
        end in
      (dkdse / (1 - sr_ wrm))%Q
  else if Qeq_bool s 1.0 then 0.0%Q
  else Spline_Derivative (fit_ wrm) s.

(** [WRMVanGenuchten::saturation] *)
Definition saturation (wrm : WRMVanGenuchten) (pc : double) : double :=
  if dgt pc 0.0 then
    (pow (1.0 + pow (alpha_ wrm * pc) (n_ wrm)) (- m_ wrm)
     * (1.0 - sr_ wrm) + sr_ wrm)%Q
  else 1.0%Q.

(** [WRMVanGenuchten::d_saturation] *)
Definition d_saturation (wrm : WRMVanGenuchten) (pc : double) : double :=
  if dgt pc 0.0 then
    (- m_ wrm * n_ wrm
     * pow (1.0 + pow (alpha_ wrm * pc) (n_ wrm)) (- m_ wrm - 1.0)
     * pow (alpha_ wrm * pc) (n_ wrm - 1) * alpha_ wrm * (1.0 - sr_ wrm))%Q
  else 0.0%Q.

(** [WRMVanGenuchten::capillaryPressure] *)
Definition capillaryPressure (wrm : WRMVanGenuchten) (s : double)
  : double :=
  let se := ((s - sr_ wrm) / (1.0 - sr_ wrm))%Q in
  let se := std_min se 1.0 in
  let se := std_max se 1e-40 in
  if dlt se 1e-8 then
    (pow se (-1.0 / (m_ wrm * n_ wrm)) / alpha_ wrm)%Q
  else
    (pow (pow se (-1.0 / m_ wrm) - 1.0) (1 / n_ wrm) / alpha_ wrm)%Q.

(** [WRMVanGenuchten::d_capillaryPressure] *)
Definition d_capillaryPressure (wrm : WRMVanGenuchten) (s : double)
  : double :=
  let se := ((s - sr_ wrm) / (1.0 - sr_ wrm))%Q in
  let se := std_min se 1.0 in
  let se := std_max se 1e-40 in
  if dlt se 1e-8 then
    (-1.0 / (m_ wrm * n_ wrm * alpha_ wrm)
     * pow se (-1.0 / (m_ wrm * n_ wrm) - 1.0) / (1.0 - sr_ wrm))%Q
  else
    (-1.0 / (m_ wrm * n_ wrm * alpha_ wrm)
     * pow (pow se (-1.0 / m_ wrm) - 1.0) (1 / n_ wrm - 1.0)
     * pow se (-1.0 / m_ wrm - 1.0) / (1.0 - sr_ wrm))%Q.

(** "map to n,m" of [InitializeFromPlist_]: the pair [(m_, n_)]. *)
Definition map_to_n_m (plist_ : gmap string ParameterEntry)
  (function_ : Krel_function) : result (double * double) :=
  if isParameter plist_ "van Genuchten m" then
    m_ ← get_double_required plist_ "van Genuchten m";
    match function_ with
    | FLOW_WRM_MUALEM => Ok (m_, (1.0 / (1.0 - m_))%Q)
    | FLOW_WRM_BURDINE => Ok (m_, (2.0 / (1.0 - m_))%Q)
    end
  else
    n_ ← get_double_required plist_ "van Genuchten n";
    match function_ with
    | FLOW_WRM_MUALEM => Ok ((1.0 - 1.0 / n_)%Q, n_)
    | FLOW_WRM_BURDINE => Ok ((1.0 - 2.0 / n_)%Q, n_)
    end.

(** [WRMVanGenuchten::InitializeFromPlist_], which is all the constructor
    does. *)
Definition InitializeFromPlist_ (plist_ : gmap string ParameterEntry)
  : result WRMVanGenuchten :=
  fname ← get_string plist_ "Krel function name" "Mualem";
  function_ ←
    (if String.eqb fname "Mualem" then Ok FLOW_WRM_MUALEM
     else if String.eqb fname "Burdine" then Ok FLOW_WRM_BURDINE
     else _ ← ASSERT false "0"; Ok FLOW_WRM_MUALEM);
  alpha_ ← get_double_required plist_ "van Genuchten alpha";
  sr_ ← get_double plist_ "residual saturation" 0.0;
  l_ ← get_double plist_ "Mualem exponent l" 0.5;
  mn ← map_to_n_m plist_ function_;
  width ← get_double plist_ "smoothing interval width [saturation]" 0.0;
  let s0_ := (1.0 - width)%Q in
  let wrm :=
    {| function_ := function_; alpha_ := alpha_; sr_ := sr_; l_ := l_;
       m_ := mn.1; n_ := mn.2; s0_ := s0_; fit_ := None |} in
  if dlt s0_ 1.0 then
    Ok {| function_ := function_; alpha_ := alpha_; sr_ := sr_; l_ := l_;
          m_ := mn.1; n_ := mn.2; s0_ := s0_;
          fit_ := Some (mkSpline s0_ (k_relative wrm s0_)
                                 (d_k_relative wrm s0_) 1.0 1.0 0.0) |}
  else Ok wrm.

End Libm.

(** A parameter list for the examples: Mualem by default, [m = 0.5],
    residual saturation 0.1 and a smoothing interval of width 0.05. *)
Definition example_plist : gmap string ParameterEntry :=
  {[ "van Genuchten alpha" := PDouble 0.001%Q;
     "van Genuchten m" := PDouble 0.5%Q;
     "residual saturation" := PDouble 0.1%Q;
     "smoothing interval width [saturation]" := PDouble 0.05%Q ]}.

(** The model of that list, without its spline. *)
Definition example_wrm : WRMVanGenuchten :=
  {| function_ := FLOW_WRM_MUALEM; alpha_ := 0.001%Q; sr_ := 0.1%Q;
     l_ := 0.5%Q; m_ := 0.5%Q; n_ := 2%Q; s0_ := 0.95%Q; fit_ := None |}.

(** Stand-ins for the library functions in the examples. *)
Definition example_pow (x y : double) : double := x.
Definition example_spline (fit : option Spline) (s : double) : double := s.

End WRM.

(** * Field evaluators *)

Module Evaluators.

(** The cell components of the fields of a state, by key (owned views).
    A field that was never required is a configuration error of the
    setup, which is not modelled: its view is empty here. *)
Definition GetFieldData (S : gmap string (list double)) (key : string)
  : list double :=
  default [] (S !! key).

(** [get<bool>(name)] without a default. *)
Definition get_bool_required (entries : gmap string ParameterEntry)
  (name : string) : result bool :=
  match entries !! name with
  | Some (PBool b) => Ok b
  | Some _ => Err (Exception ("invalid parameter type: " ++ name))
  | None => Err (Exception ("parameter not found: " ++ name))
  end.

(** ** Water content of the Richards equation *)

Record RichardsWaterContent : Type := mkRichardsWaterContent {
  wc_my_key_ : string;
  wc_dependencies_ : gset string
}.

(** The constructor [RichardsWaterContent::RichardsWaterContent], up to
    the compatibility check against the state. *)
Definition RichardsWaterContent_ctor : RichardsWaterContent :=
  let dependencies_ : gset string := ∅ in
  let dependencies_ := {[ "porosity" ]} ∪ dependencies_ in
  let dependencies_ := {[ "saturation_liquid" ]} ∪ dependencies_ in
  let dependencies_ := {[ "molar_density_liquid" ]} ∪ dependencies_ in
  let dependencies_ := {[ "saturation_gas" ]} ∪ dependencies_ in
  let dependencies_ := {[ "molar_density_gas" ]} ∪ dependencies_ in
  let dependencies_ := {[ "mol_frac_gas" ]} ∪ dependencies_ in
  {| wc_my_key_ := "water_content"; wc_dependencies_ := dependencies_ |}.

(** One loop of [EvaluateFieldPartialDerivative_]. *)
Definition cell_loop (val : nat -> double) (result : list double)
  : list double :=
  foldl (fun result c => <[c:=val c]> result) result (seq 0 (length result)).

(** [RichardsWaterContent::EvaluateFieldPartialDerivative_]; the stray
    character before the assignment of the porosity branch is left
    out. *)
Definition wc_EvaluateFieldPartialDerivative_
  (S : gmap string (list double)) (wrt_key : string)
  (result : list double) : list double :=
  let phi := GetFieldData S "porosity" in
  let s_l := GetFieldData S "saturation_liquid" in
  let n_l := GetFieldData S "molar_density_liquid" in
  let s_g := GetFieldData S "saturation_gas" in
  let n_g := GetFieldData S "molar_density_gas" in
  let omega_g := GetFieldData S "mol_frac_gas" in
  if String.eqb wrt_key "porosity" then
    cell_loop (fun c => (vget s_l c * vget n_l c
                         + vget s_g c * vget n_g c * vget omega_g c)%Q) result
  else if String.eqb wrt_key "saturation_liquid" then
    cell_loop (fun c => (vget phi c * vget n_l c)%Q) result
  else if String.eqb wrt_key "molar_density_liquid" then
    cell_loop (fun c => (vget phi c * vget s_l c)%Q) result
  else if String.eqb wrt_key "saturation_gas" then
    cell_loop (fun c => (vget phi c * vget n_g c * vget omega_g c)%Q) result
  else if String.eqb wrt_key "molar_density_gas" then
    cell_loop (fun c => (vget phi c * vget s_g c * vget omega_g c)%Q) result
  else if String.eqb wrt_key "mol_frac_gas" then
    cell_loop (fun c => (vget phi c * vget s_g c * vget n_g c)%Q) result
  else result.

(** The fields of two cells for the examples. *)
Definition example_wc_fields : gmap string (list double) :=
  {[ "porosity" := [0.25%Q; 0.5%Q];
     "saturation_liquid" := [0.5%Q; 1%Q];
     "molar_density_liquid" := [55000%Q; 55000%Q];
     "saturation_gas" := [0.5%Q; 0%Q];
     "molar_density_gas" := [40%Q; 40%Q];
     "mol_frac_gas" := [0.01%Q; 0.01%Q] ]}.

End Evaluators.

Module EnergySource.
Import Evaluators.

(** ** Energy source from an advected mass source *)

Record AdvectedEnergySourceEvaluator : Type :=
  mkAdvectedEnergySourceEvaluator {
  my_key_ : string;
  dependencies_ : gset string;
  domain_ : string;
  internal_enthalpy_key_ : string;
  external_enthalpy_key_ : string;
  mass_source_key_ : string;
  internal_density_key_ : string;
  external_density_key_ : string;
  cell_vol_key_ : string;
  conducted_source_key_ : string;
  include_conduction_ : bool
}.

(** [AdvectedEnergySourceEvaluator::InitializeFromPlist_], from the key
    [my_key] and the dependencies [deps] that the constructor of the base
    class leaves. *)
Definition InitializeFromPlist_ (plist_ : gmap string ParameterEntry)
  (my_key : string) (deps : gset string)
  : result AdvectedEnergySourceEvaluator :=
  domain_ ← get_string plist_ "domain" "";
  let domain_prefix :=
    if String.eqb domain_ "" then domain_ else (domain_ ++ "_")%string in
  internal_enthalpy_key_ ←
    get_string plist_ "internal enthalpy key"
               (domain_prefix ++ "enthalpy");
  external_enthalpy_key_ ←
    get_string plist_ "external enthalpy key"
               (domain_prefix ++ "mass_source_enthalpy");
  mass_source_key_ ←
    get_string plist_ "mass source key" (domain_prefix ++ "mass_source");
  internal_density_key_ ←
    get_string plist_ "internal density key"
               (domain_prefix ++ "molar_density_liquid");
  external_density_key_ ←
    get_string plist_ "external density key"
               (domain_prefix ++ "source_molar_density");
  let deps := {[ internal_enthalpy_key_ ]} ∪ deps in
  let deps := {[ external_enthalpy_key_ ]} ∪ deps in
  let deps := {[ mass_source_key_ ]} ∪ deps in
  let deps := {[ internal_density_key_ ]} ∪ deps in
  let deps := {[ external_density_key_ ]} ∪ deps in
  include_conduction_ ← get_bool_required plist_ "include conduction";
  conducted ←
    (if (include_conduction_ : bool) then
       key ← get_string plist_ "conducted energy source key"
                        (domain_prefix ++ "conducted_energy_source");
       Ok (key, {[ key ]} ∪ deps)
     else Ok (""%string, deps));
  cell_vol_key_ ←
    get_string plist_ "cell volume key" (domain_prefix ++ "cell_volume");
  my_key ←
    (if String.eqb my_key "" then
       if include_conduction_ then
         get_string plist_ "energy source key"
                    (domain_prefix ++ "total_energy_source")
       else
         get_string plist_ "energy source key"
                    (domain_prefix ++ "advected_energy_source")
     else Ok my_key);
  Ok {| my_key_ := my_key; dependencies_ := conducted.2;
        domain_ := domain_;
        internal_enthalpy_key_ := internal_enthalpy_key_;
        external_enthalpy_key_ := external_enthalpy_key_;
        mass_source_key_ := mass_source_key_;
        internal_density_key_ := internal_density_key_;
        external_density_key_ := external_density_key_;
        cell_vol_key_ := cell_vol_key_;
        conducted_source_key_ := conducted.1;
        include_conduction_ := include_conduction_ |}.

(** [AdvectedEnergySourceEvaluator::EvaluateField_], on the owned cells
    of [result]. *)
Definition EvaluateField_ (ev : AdvectedEnergySourceEvaluator)
  (S : gmap string (list double)) (result : list double) : list double :=
  let int_enth := GetFieldData S (internal_enthalpy_key_ ev) in
  let ext_enth := GetFieldData S (external_enthalpy_key_ ev) in
  let mass_source := GetFieldData S (mass_source_key_ ev) in
  let int_dens := GetFieldData S (internal_density_key_ ev) in
  let ext_dens := GetFieldData S (internal_density_key_ ev) in
  let cv := GetFieldData S (cell_vol_key_ ev) in
  let ncells := length result in
  let res :=
    foldl (fun res c =>
             if dgt (vget mass_source c) 0 then
               <[c:=(vget cv c * vget mass_source c * vget ext_dens c
                     * vget ext_enth c)%Q]> res
             else
               <[c:=(vget cv c * vget mass_source c * vget int_dens c
                     * vget int_enth c)%Q]> res)
          result (seq 0 ncells) in
  if include_conduction_ ev then
    let cond := GetFieldData S (conducted_source_key_ ev) in
    foldl (fun res c => <[c:=(vget res c + vget cv c * vget cond c)%Q]> res)
          res (seq 0 ncells)
  else res.

(** [AdvectedEnergySourceEvaluator::EvaluateFieldPartialDerivative_] *)
Definition EvaluateFieldPartialDerivative_
  (ev : AdvectedEnergySourceEvaluator) (S : gmap string (list double))
  (wrt_key : string) (result : list double) : list double :=
  (fun _ => 0%Q) <$> result.

(** A surface water source with its own density field. *)
Definition example_plist : gmap string ParameterEntry :=
  {[ "domain" := PString "surface"; "include conduction" := PBool false ]}.

Definition example_fields (source_density : double)
  : gmap string (list double) :=
  {[ "surface_enthalpy" := [10%Q; 10%Q];
     "surface_mass_source_enthalpy" := [20%Q; 20%Q];
     "surface_mass_source" := [1%Q; (-1)%Q];
     "surface_molar_density_liquid" := [3%Q; 3%Q];
     "surface_source_molar_density" := [source_density; source_density];
     "surface_cell_volume" := [2%Q; 2%Q] ]}.

End EnergySource.

Module TopCells.
Import Evaluators.

(** ** Surface values copied to the cells below the surface *)

(** [get<std::string>(name)] without a default. *)
Definition get_string_required (entries : gmap string ParameterEntry)
  (name : string) : result string :=
  match entries !! name with
  | Some (PString s) => Ok s
  | Some _ => Err (Exception ("invalid parameter type: " ++ name))
  | None => Err (Exception ("parameter not found: " ++ name))
  end.

Record TopCellsSurfaceEvaluator : Type := mkTopCellsSurfaceEvaluator {
  my_key_ : string;
  dependency_key_ : string;
  dependency_tag_key_ : string;
  negate_ : bool
}.

(** The constructor [TopCellsSurfaceEvaluator::TopCellsSurfaceEvaluator]. *)
Definition TopCellsSurfaceEvaluator_ctor
  (plist_ : gmap string ParameterEntry) : result TopCellsSurfaceEvaluator :=
  my_key_ ← get_string_required plist_ "subsurface key";
  dependency_key_ ← get_string_required plist_ "surface key";
  dependency_tag_key_ ← get_string plist_ "surface tag key" "";
  negate_ ← get_bool plist_ "negate" false;
  Ok {| my_key_ := my_key_; dependency_key_ := dependency_key_;
        dependency_tag_key_ := dependency_tag_key_; negate_ := negate_ |}.

(** The queries made on the surface mesh. *)
Record SurfaceMesh : Type := mkSurfaceMesh {
  (** [num_entities(CELL, OWNED)] *)
  num_cells_owned : nat;
  (** [entity_get_parent(CELL, c)] *)
  entity_get_parent : nat -> nat
}.

(** [CompositeVector::Scale]. *)
Definition Scale_component (a : double) (c : Component) : Component :=
  {| cp_owned := (fun x => (a * x)%Q) <$> cp_owned c;
     cp_ghost := (fun x => (a * x)%Q) <$> cp_ghost c |}.

Definition Scale (a : double) (v : CompositeVector) : CompositeVector :=
  {| cv_cell := Scale_component a (cv_cell v);
     cv_face := Scale_component a <$> cv_face v;
     cv_boundary_face := Scale_component a <$> cv_boundary_face v |}.

(** [cells[0]] of the cells of face [f]. *)
Definition cell_below (mesh : Mesh) (f : nat) : nat :=
  default 0 (head (face_get_cells mesh f)).

(** One pass of the loop of [Evaluate_], for the surface cell [c]. *)
Definition copy_step (surf : SurfaceMesh) (mesh : Mesh)
  (surf_vector_cells : list double) (acc : result (list double)) (c : nat)
  : result (list double) :=
  result_cells ← acc;
  let f := entity_get_parent surf c in
  let cells := face_get_cells mesh f in
  _ ← ASSERT (bool_decide (length cells = 1)) "cells.size() == 1";
  Ok (<[cell_below mesh f:=vget surf_vector_cells c]> result_cells).

(** The loop of [Evaluate_] over the owned surface cells. *)
Definition copy_loop (surf : SurfaceMesh) (mesh : Mesh)
  (surf_vector_cells : list double) (result_cells : list double)
  : result (list double) :=
  foldl (copy_step surf mesh surf_vector_cells)
        (Ok result_cells) (seq 0 (num_cells_owned surf)).

(** [TopCellsSurfaceEvaluator::Evaluate_]: [surf] is the mesh of the
    surface vector, [mesh] the mesh of [result]. *)
Definition Evaluate_ (ev : TopCellsSurfaceEvaluator) (surf : SurfaceMesh)
  (mesh : Mesh) (surf_vector_cells : list double)
  : CompositeVector -> result CompositeVector :=
  fun result =>
    result_cells ←
      copy_loop surf mesh surf_vector_cells (Energy.cells result);
    let result := Energy.with_cells result_cells result in
    Ok (if negate_ ev then Scale (-1) result else result).

(** What [Evaluate_] does to an entry it does not overwrite. *)
Definition signed (ev : TopCellsSurfaceEvaluator) (x : double) : double :=
  if negate_ ev then (-1 * x)%Q else x.

(** Two surface cells over a subsurface column of three cells: the
    surface cells lie above the faces 0 and 1, whose cells are 0 and 2. *)
Definition example_surface : SurfaceMesh :=
  {| num_cells_owned := 2; entity_get_parent := fun c => c |}.

Definition example_mesh : Mesh :=
  {| num_faces_owned := 3; num_faces_used := 3;
     face_get_cells := fun f =>
       match f with 0 => [0] | 1 => [2] | _ => [1; 2] end;
     face_area := fun _ => 1%Q;
     face_map_GID := fun f => Z.of_nat f;
     cell_map_GID := fun c => Z.of_nat c;
     exterior_face_map_LID := fun g => g |}.

Definition example_result : CompositeVector :=
  {| cv_cell := mkComponent [7%Q; 8%Q; 9%Q] [];
     cv_face := None; cv_boundary_face := None |}.

End TopCells.

Module EOS.
Import TopCells.

(** ** The keys of the equation-of-state evaluator *)

Inductive EOSMode : Type :=
  | EOS_MODE_MASS
  | EOS_MODE_MOLAR
  | EOS_MODE_BOTH.

(** [s.find(pat)]: the position of the first occurrence, [None] for
    [std::string::npos]. *)
Definition find (pat s : string) : option nat := String.index 0 pat s.

(** [s.substr(pos, n)], for [pos] within [s]. *)
Definition substr (pos n : nat) (s : string) : string :=
  String.substring pos n s.

(** The members the constructor sets before it turns to the
    dependencies. *)
Record EOSEvaluator : Type := mkEOSEvaluator {
  tag_ : string;
  mode_ : EOSMode;
  my_keys_ : list (string * string)
}.

(** "my keys", for the molar density *)
Definition molar_keys (plist_ : gmap string ParameterEntry) (name tag_ : string)
  (my_keys_ : list (string * string)) : result (list (string * string)) :=
  match find "molar" name with
  | Some molar_pos =>
    molar_key ← get_string plist_ "molar density key" name;
    Ok (my_keys_ ++ [(molar_key, tag_)])
  | None =>
    match find "mass" name with
    | Some mass_pos =>
      let molar_key :=
        (substr 0 mass_pos name ++ "molar"
         ++ substr (mass_pos + 4) (String.length name) name)%string in
      molar_key ← get_string plist_ "molar density key" molar_key;
      Ok (my_keys_ ++ [(molar_key, tag_)])
    | None =>
      molar_key ← get_string_required plist_ "molar density key";
      Ok (my_keys_ ++ [(molar_key, tag_)])
    end
  end.

(** "my keys", for the mass density *)
Definition mass_keys (plist_ : gmap string ParameterEntry) (name tag_ : string)
  (my_keys_ : list (string * string)) : result (list (string * string)) :=
  match find "mass" name with
  | Some mass_pos =>
    mass_key ← get_string plist_ "mass density key" name;
    Ok (my_keys_ ++ [(mass_key, tag_)])
  | None =>
    match find "molar" name with
    | Some molar_pos =>
      let mass_key :=
        (substr 0 molar_pos name ++ "mass"
         ++ substr (molar_pos + 5) (String.length name) name)%string in
      mass_key ← get_string plist_ "mass density key" mass_key;
      Ok (my_keys_ ++ [(mass_key, tag_)])
    | None =>
      mass_key ← get_string_required plist_ "mass density key";
      Ok (my_keys_ ++ [(mass_key, tag_)])
    end
  end.

(** The constructor [EOSEvaluator::EOSEvaluator], up to "Set up my
    dependencies". *)
Definition EOSEvaluator_ctor (plist_ : gmap string ParameterEntry)
  : result EOSEvaluator :=
  tag_ ← get_string plist_ "tag" "";
  mode ← get_string plist_ "EOS basis" "molar";
  mode_ ←
    (if String.eqb mode "molar" then Ok EOS_MODE_MOLAR
     else if String.eqb mode "mass" then Ok EOS_MODE_MASS
     else if String.eqb mode "both" then Ok EOS_MODE_BOTH
     else _ ← ASSERT false "0"; Ok EOS_MODE_MOLAR);
  name ← get_string_required plist_ "evaluator name";
  my_keys_ ←
    match mode_ with
    | EOS_MODE_MOLAR | EOS_MODE_BOTH => molar_keys plist_ name tag_ []
    | EOS_MODE_MASS => Ok []
    end;
  my_keys_ ←
    match mode_ with
    | EOS_MODE_MASS | EOS_MODE_BOTH => mass_keys plist_ name tag_ my_keys_
    | EOS_MODE_MOLAR => Ok my_keys_
    end;
  Ok {| tag_ := tag_; mode_ := mode_; my_keys_ := my_keys_ |}.

Definition example_plist : gmap string ParameterEntry :=
  {[ "evaluator name" := PString "molar_density_liquid";
     "EOS basis" := PString "both";
     "tag" := PString "next" ]}.

End EOS.

Module RelPerm.

(** ** Relative permeability of the unfrozen fraction *)

(** The entries of the parameter list this model reads. *)
Inductive NumericEntry : Type :=
  | PInt (i : Z)
  | PReal (d : double).

Definition get_int (entries : gmap string NumericEntry) (name : string)
  (dflt : Z) : result Z :=
  match entries !! name with
  | None => Ok dflt
  | Some (PInt i) => Ok i
  | Some _ => Err (Exception ("invalid parameter type: " ++ name))
  end.

Definition get_real (entries : gmap string NumericEntry) (name : string)
  (dflt : double) : result double :=
  match entries !! name with
  | None => Ok dflt
  | Some (PReal d) => Ok d
  | Some _ => Err (Exception ("invalid parameter type: " ++ name))
  end.

Record ZeroUFRelPermModel : Type := mkZeroUFRelPermModel {
  pi_ : double;
  alpha_ : Z;
  h_cutoff_ : double
}.

(** [boost::math::constants::pi<double>()]: the double next to pi. *)
Definition pi_double : double := (884279719003555 # 281474976710656)%Q.

(** The constructor [ZeroUFRelPermModel::ZeroUFRelPermModel]; [%] on
    [int] is the remainder of the division that truncates. *)
Definition ZeroUFRelPermModel_ctor (plist_ : gmap string NumericEntry)
  : result ZeroUFRelPermModel :=
  alpha_ ← get_int plist_ "unfrozen rel perm alpha" 4;
  if negb (Z.rem alpha_ 2 =? 0)%Z then
    Err (Exception
           "Unfrozen Fraction Rel Perm: alpha must be an even integer")
  else
    h_cutoff_ ← get_real plist_ "unfrozen rel perm cutoff height" 0.01;
    Ok {| pi_ := pi_double; alpha_ := alpha_; h_cutoff_ := h_cutoff_ |}.

Section Libm.

(** [std::sin], a function outside the sources. *)
Variable sin : double -> double.

(** [ZeroUFRelPermModel::SurfaceRelPerm]; [std::pow] with an integer
    exponent is the power of the rationals. *)
Definition SurfaceRelPerm (model : ZeroUFRelPermModel) (uf h : double)
  : double :=
  let kr := (sin (pi_ model * uf / 2) ^ alpha_ model)%Q in
  if Energy.dle h 0 then 0%Q
  else if dlt h (h_cutoff_ model) then
    let fac := (sin (pi_ model * (h / h_cutoff_ model) / 2) ^ 2)%Q in
    (kr * fac)%Q
  else kr.

End Libm.

(** A stand-in for the sine in the examples: the parabola through
    [(0, 0)], [(pi/2, 1)] and [(pi, 0)]. *)
Definition example_sin (x : double) : double :=
  (4 * x * (pi_double - x) / (pi_double * pi_double))%Q.

End RelPerm.

(** * Comparisons, extremum loops and reductions *)

Module Reductions.

Lemma dlt_lt (x y : double) : dlt x y = true <-> (x < y)%Q.
Proof.
  unfold dlt. rewrite Qlt_alt. destruct (x ?= y)%Q; split; congruence.
Qed.

Lemma dlt_ge (x y : double) : dlt x y = false <-> (y <= x)%Q.
Proof.
  rewrite <- not_true_iff_false, dlt_lt. split.
  - apply Qnot_lt_le.
  - apply Qle_not_lt.
Qed.

(** Closes the impossible cases left by a case analysis on decisions. *)
Ltac absurd_decisions :=
  exfalso;
  repeat match goal with H : _ /\ _ |- _ => destruct H end;
  match goal with
  | H : ~ _ |- _ =>
    solve [apply H; repeat split; (lia || assumption || congruence)]
  | _ => lia
  end.

Section Extremum.
Variable better : double -> double -> bool.
Variable le : double -> double -> Prop.
Hypothesis le_refl : forall x, le x x.
Hypothesis le_trans : forall x y z, le x y -> le y z -> le x z.
Hypothesis better_le : forall x y, better x y = true -> le x y.
Hypothesis not_better_le : forall x y, better x y = false -> le y x.

Lemma arg_loop_spec init (val : nat -> double) n :
  let r := arg_loop better init val n in
  le r.1 init /\
  (forall c, c < n -> le r.1 (val c)) /\
  (r = (init, (-1)%Z) \/ exists c, c < n /\ r = (val c, Z.of_nat c)).
Proof.
  unfold arg_loop. induction n as [|n (IHi & IHa & IHr)].
  - cbn [seq foldl fst]. split; [apply le_refl|].
    split; [intros c Hc; lia | left; reflexivity].
  - rewrite seq_S, foldl_app. cbn [foldl Nat.add].
    destruct (foldl _ _ (seq 0 n)) as [m i]. cbn [fst] in *.
    destruct (better (val n) m) eqn:Hb; cbn [fst].
    + apply better_le in Hb. split; [eauto|]. split.
      * intros c Hc. destruct (decide (c = n)) as [->|Hne];
          [apply le_refl|]. apply le_trans with m; [exact Hb|].
        apply IHa. lia.
      * right. exists n. split; [lia|reflexivity].
    + apply not_better_le in Hb. split; [exact IHi|]. split.
      * intros c Hc. destruct (decide (c = n)) as [->|Hne];
          [exact Hb|]. apply IHa. lia.
      * destruct IHr as [IHr|(c & Hc & IHr)]; [left; exact IHr|].
        right. exists c. split; [lia|exact IHr].
Qed.

Lemma pick_le a b : le (pick better a b) a /\ le (pick better a b) b.
Proof.
  unfold pick. destruct (better b a) eqn:Hb.
  - split; [apply better_le; exact Hb | apply le_refl].
  - split; [apply le_refl | apply not_better_le; exact Hb].
Qed.

Lemma pick_in a b : pick better a b = a \/ pick better a b = b.
Proof. unfold pick. destruct (better b a); auto. Qed.

(** A reduction with [pick] is below every contribution and is one of
    them. *)
Lemma Allreduce_pick mine others :
  let r := Allreduce (pick better) mine others in
  (forall y, y ∈ mine :: others -> le r y) /\ r ∈ mine :: others.
Proof.
  unfold Allreduce. revert mine.
  induction others as [|o others IH]; intros mine; cbn [foldl].
  - split; [|apply list_elem_of_here].
    intros y Hy. apply list_elem_of_singleton in Hy as ->. apply le_refl.
  - destruct (IH (pick better mine o)) as [IHa IHr]. split.
    + intros y Hy.
      assert (Hp : le (foldl (pick better) (pick better mine o) others)
                      (pick better mine o))
        by (apply IHa, list_elem_of_here).
      destruct (pick_le mine o) as [Hm Ho].
      apply elem_of_cons in Hy as [->|Hy]; [eauto|].
      apply elem_of_cons in Hy as [->|Hy]; [eauto|].
      apply IHa. apply list_elem_of_further. exact Hy.
    + apply elem_of_cons in IHr as [IHr|IHr].
      * rewrite IHr. destruct (pick_in mine o) as [->| ->].
        -- apply list_elem_of_here.
        -- apply list_elem_of_further, list_elem_of_here.
      * do 2 apply list_elem_of_further. exact IHr.
Qed.

Lemma pick_loc_spec a b :
  let r := pick_loc better a b in
  le (value r) (value a) /\ le (value r) (value b) /\
  ((le (value a) (value r) /\ gid r = gid a) \/
   (le (value b) (value r) /\ gid r = gid b)).
Proof.
  unfold pick_loc. destruct (better (value a) (value b)) eqn:Hab.
  - cbn. split; [apply le_refl|]. split; [apply better_le; exact Hab|].
    left. split; [apply le_refl | reflexivity].
  - destruct (better (value b) (value a)) eqn:Hba; cbn.
    + split; [apply better_le; exact Hba|]. split; [apply le_refl|].
      right. split; [apply le_refl | reflexivity].
    + apply not_better_le in Hab, Hba.
      split; [apply le_refl|]. split; [exact Hba|].
      destruct (Z.min_spec (gid a) (gid b)) as [[_ ->]|[_ ->]].
      * left. split; [apply le_refl | reflexivity].
      * right. split; [exact Hab | reflexivity].
Qed.

(** A reduction with [pick_loc] reports a value below every
    contribution, with the location of a contribution of that value. *)
Lemma Allreduce_pick_loc mine others :
  let r := Allreduce (pick_loc better) mine others in
  (forall y, y ∈ mine :: others -> le (value r) (value y)) /\
  exists y, y ∈ mine :: others /\
            le (value y) (value r) /\ gid r = gid y.
Proof.
  unfold Allreduce. revert mine.
  induction others as [|o others IH]; intros mine; cbn [foldl].
  - split.
    + intros y Hy. apply list_elem_of_singleton in Hy as ->. apply le_refl.
    + exists mine. split; [apply list_elem_of_here|].
      split; [apply le_refl | reflexivity].
  - destruct (IH (pick_loc better mine o)) as [IHa (y & Hy & Hle & Hg)].
    destruct (pick_loc_spec mine o) as (Hm & Ho & Hloc).
    assert (Hp : le (value (foldl (pick_loc better)
                              (pick_loc better mine o) others))
                    (value (pick_loc better mine o)))
      by (apply IHa, list_elem_of_here).
    split.
    + intros z Hz.
      apply elem_of_cons in Hz as [->|Hz]; [eauto|].
      apply elem_of_cons in Hz as [->|Hz]; [eauto|].
      apply IHa. apply list_elem_of_further. exact Hz.
    + apply elem_of_cons in Hy as [->|Hy].
      * destruct Hloc as [[Hl Hgl]|[Hl Hgl]].
        -- exists mine. split; [apply list_elem_of_here|].
           split; [eauto | congruence].
        -- exists o.
           split; [apply list_elem_of_further, list_elem_of_here|].
           split; [eauto | congruence].
      * exists y. split; [do 2 apply list_elem_of_further; exact Hy|].
        split; assumption.
Qed.

Hypothesis le_antisym : forall x y, le x y -> le y x -> (x == y)%Q.

(** The loop over a view finds the extremum of the view and its local
    index, or keeps the sentinel. *)
Lemma arg_loop_located init v (gids : nat -> Z) :
  let r := arg_loop better init (vget v) (length v) in
  (forall x, x ∈ v -> le r.1 x) /\
  ((exists c, c < length v /\ r.1 = vget v c /\ GID gids r.2 = gids c) \/
   (r.1 = init /\ GID gids r.2 = (-1)%Z)).
Proof.
  destruct (arg_loop_spec init (vget v) (length v)) as (_ & Hall & Hat).
  split.
  - intros x Hx. apply list_elem_of_lookup in Hx as [c Hc].
    assert (Hlt : c < length v) by (eapply lookup_lt_Some, Hc).
    specialize (Hall c Hlt). unfold vget in Hall. rewrite Hc in Hall.
    exact Hall.
  - destruct Hat as [->|(c & Hc & ->)].
    + right. split; reflexivity.
    + left. exists c. split; [exact Hc|]. split; [reflexivity|].
      cbn [snd]. unfold GID.
      destruct (Z.ltb_spec (Z.of_nat c) 0); [lia|].
      rewrite Nat2Z.id. reflexivity.
Qed.

(** A reduction of the local extrema is below all entries of all views,
    and is an entry with its location or the start value at -1. *)
Lemma Allreduce_located init (views : list (list double * (nat -> Z)))
  (mine : list double * (nat -> Z)) :
  let e := Allreduce (pick_loc better) (contribution better init mine)
                     (contribution better init <$> views) in
  (forall view x, view ∈ mine :: views -> x ∈ view.1 -> le (value e) x) /\
  ((exists view c, view ∈ mine :: views /\ c < length view.1 /\
                   (vget view.1 c == value e)%Q /\ gid e = view.2 c) \/
   ((value e == init)%Q /\ gid e = (-1)%Z)).
Proof.
  cbv zeta. set (contrib := contribution better init).
  destruct (Allreduce_pick_loc (contrib mine)
              (contrib <$> views)) as [Hall (y & Hy & Hle & Hg)].
  change (contrib mine :: (contrib <$> views))
    with (contrib <$> (mine :: views)) in *.
  split.
  - intros view x Hview Hx.
    apply le_trans with (value (contrib view)).
    + apply Hall. apply list_elem_of_fmap. eauto.
    + unfold contrib, contribution. cbn [value].
      apply (arg_loop_located init view.1 view.2). exact Hx.
  - apply list_elem_of_fmap in Hy as (view & -> & Hview).
    assert (Heq : (value (contrib view) ==
                   value (Allreduce (pick_loc better) (contrib mine)
                            (contrib <$> views)))%Q).
    { apply le_antisym; [exact Hle|].
      apply Hall. apply list_elem_of_fmap. eauto. }
    rewrite Hg. unfold contrib, contribution in Heq |- *.
    cbn [value gid] in *.
    destruct (arg_loop_located init view.1 view.2)
      as [_ [(c & Hc & Hv & Hgid)|[Hv Hgid]]].
    + left. exists view, c. split; [exact Hview|]. split; [exact Hc|].
      split; [rewrite <- Hv; exact Heq | exact Hgid].
    + right. split; [rewrite <- Heq, Hv; reflexivity | exact Hgid].
Qed.

Hypothesis le_compat : forall a b x, (a == b)%Q -> le a x -> le b x.
Hypothesis better_strict : forall x y, better x y = true -> ~ le y x.

(** A loop none of whose entries passes the start value keeps it. *)
Lemma arg_loop_start init (val : nat -> double) n :
  (forall c, c < n -> le init (val c)) ->
  arg_loop better init val n = (init, (-1)%Z).
Proof.
  unfold arg_loop. induction n as [|n IH]; intros Hall; [reflexivity|].
  rewrite seq_S, foldl_app. cbn [foldl Nat.add].
  rewrite IH by (intros c Hc; apply Hall; lia).
  destruct (better (val n) init) eqn:Hb; [|reflexivity].
  exfalso. apply (better_strict _ _ Hb). apply Hall. lia.
Qed.

(** A reduction of contributions that all are the start value at -1 is
    the start value at -1. *)
Lemma Allreduce_start init (others : list ENorm_t) :
  (forall y, y ∈ others -> y = {| value := init; gid := (-1)%Z |}) ->
  Allreduce (pick_loc better) {| value := init; gid := (-1)%Z |} others
  = {| value := init; gid := (-1)%Z |}.
Proof.
  unfold Allreduce. induction others as [|o others IH]; intros Hall;
    [reflexivity|].
  cbn [foldl]. rewrite (Hall o) by apply list_elem_of_here.
  assert (Hp : pick_loc better {| value := init; gid := (-1)%Z |}
                 {| value := init; gid := (-1)%Z |}
               = {| value := init; gid := (-1)%Z |}).
  { unfold pick_loc. cbn [value gid].
    destruct (better init init) eqn:Hb; reflexivity. }
  rewrite Hp. apply IH. intros y Hy. apply Hall.
  apply list_elem_of_further. exact Hy.
Qed.

(** A reduction of the local extrema reports the extremum of all
    views. *)
Lemma Allreduce_reports init (views : list (list double * (nat -> Z)))
  (mine : list double * (nat -> Z)) :
  reports le init (mine :: views)
    (Allreduce (pick_loc better) (contribution better init mine)
               (contribution better init <$> views)).
Proof.
  destruct (Allreduce_located init views mine) as [Hall Hat].
  split; [exact Hall|]. split.
  - intros (view & x & Hview & Hx & Hpass).
    destruct Hat as [Hat|[Hv _]]; [exact Hat|].
    exfalso. apply Hpass. apply (le_compat _ _ _ Hv).
    apply (Hall view x Hview Hx).
  - intros Hnone.
    assert (Hc : forall view, view ∈ mine :: views ->
      contribution better init view = {| value := init; gid := (-1)%Z |}).
    { intros view Hview. unfold contribution.
      rewrite arg_loop_start; [reflexivity|].
      intros c Hc. apply (Hnone view); [exact Hview|].
      destruct (lookup_lt_is_Some_2 view.1 c Hc) as [x Hx].
      unfold vget. rewrite Hx. apply list_elem_of_lookup. eauto. }
    rewrite (Hc mine) by apply list_elem_of_here.
    rewrite Allreduce_start; [split; reflexivity|].
    intros y Hy. apply list_elem_of_fmap in Hy as (view & -> & Hview).
    apply Hc. apply list_elem_of_further. exact Hview.
Qed.
End Extremum.

Lemma dlt_le x y : dlt x y = true -> (x <= y)%Q.
Proof. intros H. apply Qlt_le_weak, dlt_lt, H. Qed.

Lemma not_dlt_le x y : dlt x y = false -> (y <= x)%Q.
Proof. apply dlt_ge. Qed.

Lemma ge_refl x : ge x x.
Proof. apply Qle_refl. Qed.

Lemma ge_trans x y z : ge x y -> ge y z -> ge x z.
Proof. unfold ge. eauto using Qle_trans. Qed.

Lemma dgt_ge x y : dgt x y = true -> ge x y.
Proof. apply dlt_le. Qed.

Lemma not_dgt_ge x y : dgt x y = false -> ge y x.
Proof. apply not_dlt_le. Qed.

Lemma vget_elem_of v c : c < length v -> vget v c ∈ v.
Proof.
  intros Hc. destruct (lookup_lt_is_Some_2 v c Hc) as [x Hx].
  unfold vget. rewrite Hx. apply list_elem_of_lookup. eauto.
Qed.

(** At an owned index the unchecked read of a view is the checked
    one. *)
Lemma vview_owned (c : Component) (i : nat) :
  i < length (cp_owned c) -> vview c i = vget (cp_owned c) i.
Proof.
  intros Hi. unfold vview, vget, ghosted.
  rewrite lookup_app_l by exact Hi. reflexivity.
Qed.

Lemma elem_of_vget v x : x ∈ v -> exists c, c < length v /\ vget v c = x.
Proof.
  intros Hx. apply list_elem_of_lookup in Hx as [c Hc]. exists c. split.
  - eapply lookup_lt_Some, Hc.
  - unfold vget. rewrite Hc. reflexivity.
Qed.

(** The least entry found by the loop is below a bound [b] exactly when
    some entry is, for a bound not above the sentinel. *)
Lemma arg_loop_min_lt v b :
  ~ (1e15 < b)%Q ->
  ((arg_loop dlt 1e15%Q (vget v) (length v)).1 < b)%Q <->
  exists x, x ∈ v /\ (x < b)%Q.
Proof.
  intros Hb.
  destruct (arg_loop_spec dlt Qle Qle_refl Qle_trans dlt_le not_dlt_le
              1e15%Q (vget v) (length v)) as (_ & Hall & Hat).
  split.
  - intros Hlt. destruct Hat as [Hat|(c & Hc & Hat)];
      rewrite Hat in Hlt; cbn [fst] in Hlt; [contradiction|].
    exists (vget v c). split; [apply vget_elem_of; exact Hc | exact Hlt].
  - intros (x & Hx & Hlt). apply elem_of_vget in Hx as (c & Hc & <-).
    eapply Qle_lt_trans; [apply Hall; exact Hc | exact Hlt].
Qed.

Lemma arg_loop_max_gt v b :
  ~ (b < -1e15)%Q ->
  (b < (arg_loop dgt (-1e15)%Q (vget v) (length v)).1)%Q <->
  exists x, x ∈ v /\ (b < x)%Q.
Proof.
  intros Hb.
  destruct (arg_loop_spec dgt ge ge_refl ge_trans dgt_ge not_dgt_ge
              (-1e15)%Q (vget v) (length v)) as (_ & Hall & Hat).
  split.
  - intros Hlt. destruct Hat as [Hat|(c & Hc & Hat)];
      rewrite Hat in Hlt; cbn [fst] in Hlt; [contradiction|].
    exists (vget v c). split; [apply vget_elem_of; exact Hc | exact Hlt].
  - intros (x & Hx & Hlt). apply elem_of_vget in Hx as (c & Hc & <-).
    eapply Qlt_le_trans; [exact Hlt | apply Hall; exact Hc].
Qed.

Lemma pick_min_lt a b t :
  (pick dlt a b < t)%Q <-> (a < t)%Q \/ (b < t)%Q.
Proof.
  destruct (pick_le dlt Qle Qle_refl dlt_le not_dlt_le a b) as [Ha Hb].
  split.
  - intros H. destruct (pick_in dlt a b) as [E|E]; rewrite E in H; auto.
  - intros [H|H]; [apply Qle_lt_trans with a | apply Qle_lt_trans with b];
      assumption.
Qed.

Lemma pick_max_gt a b t :
  (t < pick dgt a b)%Q <-> (t < a)%Q \/ (t < b)%Q.
Proof.
  destruct (pick_le dgt ge ge_refl dgt_ge not_dgt_ge a b) as [Ha Hb].
  split.
  - intros H. destruct (pick_in dgt a b) as [E|E]; rewrite E in H; auto.
  - intros [H|H]; [apply Qlt_le_trans with a | apply Qlt_le_trans with b];
      assumption.
Qed.

Lemma ge_antisym x y : ge x y -> ge y x -> (x == y)%Q.
Proof. unfold ge. intros H1 H2. apply Qle_antisym; assumption. Qed.

Lemma Qle_compat_l a b x : (a == b)%Q -> (a <= x)%Q -> (b <= x)%Q.
Proof. intros E H. rewrite <- E. exact H. Qed.

Lemma ge_compat_l a b x : (a == b)%Q -> ge a x -> ge b x.
Proof. unfold ge. intros E H. rewrite <- E. exact H. Qed.

Lemma dlt_strict x y : dlt x y = true -> ~ (y <= x)%Q.
Proof. intros H. apply Qlt_not_le, dlt_lt, H. Qed.

Lemma dgt_strict x y : dgt x y = true -> ~ ge y x.
Proof. intros H. unfold ge. apply Qlt_not_le, dlt_lt, H. Qed.

(** A loop over the indices [0 .. n-1] that rewrites entry [c] of a vector
    as a function [F c] of that entry. *)
Lemma index_loop_lookup (F : nat -> double -> double) (n : nat)
  (l : list double) :
  length (foldl (fun l c => <[c:=F c (vget l c)]> l) l (seq 0 n)) = length l
  /\
  forall j,
    foldl (fun l c => <[c:=F c (vget l c)]> l) l (seq 0 n) !! j =
    if decide (j < n) then F j <$> (l !! j) else l !! j.
Proof.
  induction n as [|n [IHlen IH]].
  - split; [reflexivity|]. intros j. cbn [seq foldl].
    case_decide; [lia | reflexivity].
  - rewrite seq_S, foldl_app. cbn [foldl Nat.add].
    split; [rewrite length_insert; exact IHlen|].
    intros j. destruct (decide (n = j)) as [<-|Hne].
    + destruct (decide (n < S n)) as [_|]; [|lia].
      unfold vget at 1. rewrite (IH n).
      destruct (decide (n < n)) as [|_]; [lia|].
      destruct (l !! n) as [x|] eqn:Hn.
      * rewrite list_lookup_insert_eq; [reflexivity|].
        rewrite IHlen. eapply lookup_lt_Some, Hn.
      * rewrite list_insert_ge.
        -- rewrite (IH n). destruct (decide (n < n)); [lia | exact Hn].
        -- rewrite IHlen. apply lookup_ge_None, Hn.
    + rewrite list_lookup_insert_ne by assumption. rewrite IH.
      repeat case_decide; try reflexivity; lia.
Qed.

End Reductions.

(** * The flow kernel: properties *)

Module FlowTheory.
Import Flow Reductions.

(** ** One write *)

Lemma env_set_bc f m v pk : env (set_bc f m v pk) = env pk.
Proof. reflexivity. Qed.

Lemma bc_at_set_bc f m v pk g :
  bc_at (set_bc f m v pk) g =
  if decide (f = g) then (fun _ => (m, v)) <$> bc_at pk g else bc_at pk g.
Proof.
  unfold bc_at, set_bc; simpl. case_decide as Hfg.
  - subst g.
    destruct (bc_markers_ pk !! f) as [m0|] eqn:Hm;
      destruct (bc_values_ pk !! f) as [v0|] eqn:Hv; simpl.
    + apply lookup_lt_Some in Hm as Hm'. apply lookup_lt_Some in Hv as Hv'.
      rewrite !list_lookup_insert_eq by assumption. reflexivity.
    + apply lookup_ge_None in Hv.
      rewrite (list_insert_ge (bc_values_ pk)) by assumption.
      apply lookup_ge_None in Hv. rewrite Hv.
      destruct (<[f:=m]> (bc_markers_ pk) !! f); reflexivity.
    + apply lookup_ge_None in Hm.
      rewrite (list_insert_ge (bc_markers_ pk)) by assumption.
      apply lookup_ge_None in Hm. rewrite Hm. reflexivity.
    + apply lookup_ge_None in Hm.
      rewrite (list_insert_ge (bc_markers_ pk)) by assumption.
      apply lookup_ge_None in Hm. rewrite Hm. reflexivity.
  - rewrite !list_lookup_insert_ne by assumption. reflexivity.
Qed.

Lemma bc_at_marker pk f m v :
  bc_at pk f = Some (m, v) ->
  bc_markers_ pk !! f = Some m /\ bc_values_ pk !! f = Some v.
Proof.
  unfold bc_at.
  destruct (bc_markers_ pk !! f), (bc_values_ pk !! f); intros [=]; subst; auto.
Qed.

Lemma bc_at_lt pk f : is_Some (bc_at pk f) -> f < length (bc_markers_ pk).
Proof.
  intros [[m v] H]. apply bc_at_marker in H as [H _].
  eapply lookup_lt_Some, H.
Qed.

(** ** Loops *)

(** A loop whose steps leave the read-only members alone leaves them
    alone. *)
Lemma env_foldl {A} (step : Richards -> A -> Richards) (l : list A) :
  (forall acc a, env (step acc a) = env acc) ->
  forall pk, env (foldl step pk l) = env pk.
Proof.
  intros Hstep. induction l as [|a l IH]; intros pk; simpl.
  - reflexivity.
  - rewrite IH. apply Hstep.
Qed.

Lemma env_map_fold (step : nat -> double -> Richards -> Richards)
  (m : gmap nat double) pk :
  (forall k v acc, env (step k v acc) = env acc) ->
  env (map_fold step pk m) = env pk.
Proof.
  intros Hstep.
  apply (map_fold_weak_ind (fun r _ => env r = env pk)).
  - reflexivity.
  - intros k v m' r _ IH. rewrite Hstep. exact IH.
Qed.

(** A loop over the indices [0 .. n-1] whose step [i] rewrites entry [i]
    alone, as a function [T i] of that entry. *)
Lemma bc_at_index_loop (step : Richards -> nat -> Richards)
  (T : nat -> bc_entry -> bc_entry) (n : nat) :
  (forall acc i j,
      bc_at (step acc i) j =
      if decide (i = j) then T i <$> bc_at acc j else bc_at acc j) ->
  forall pk j,
    bc_at (foldl step pk (seq 0 n)) j =
    if decide (j < n) then T j <$> bc_at pk j else bc_at pk j.
Proof.
  intros Hstep. induction n as [|n IH]; intros pk j.
  - cbn [seq foldl]. case_decide; [lia | reflexivity].
  - rewrite seq_S, foldl_app. cbn [foldl Nat.add]. rewrite Hstep, IH.
    repeat case_decide; subst; try lia; try reflexivity.
Qed.

(** A loop over a boundary function whose step for face [k] rewrites entry
    [k] alone. *)
Lemma bc_at_map_loop (step : nat -> double -> Richards -> Richards)
  (g : nat -> double -> bc_entry) :
  (forall k v acc j,
      bc_at (step k v acc) j =
      if decide (k = j) then (fun _ => g k v) <$> bc_at acc j
      else bc_at acc j) ->
  forall (m : gmap nat double) pk j,
    bc_at (map_fold step pk m) j =
    match m !! j with
    | Some v => (fun _ => g j v) <$> bc_at pk j
    | None => bc_at pk j
    end.
Proof.
  intros Hstep m pk.
  apply (map_fold_weak_ind (fun r (m : gmap nat double) => forall j,
    bc_at r j = match m !! j with
                | Some v => (fun _ => g j v) <$> bc_at pk j
                | None => bc_at pk j
                end)).
  - intros j. rewrite lookup_empty. reflexivity.
  - intros k v m' r Hnone IH j. rewrite Hstep. case_decide as Hkj.
    + subst j. rewrite lookup_insert_eq, IH, Hnone.
      destruct (bc_at pk k); reflexivity.
    + rewrite lookup_insert_ne by assumption. apply IH.
Qed.

(** A loop over the surface cells [0 .. n-1] whose step [c] rewrites the
    entry of the parent face of [c]: the last cell of a face decides. *)
Lemma bc_at_surface_loop (step : Richards -> nat -> Richards)
  (parent : nat -> nat) (g : nat -> bc_entry) (n : nat) :
  (forall acc c j,
      bc_at (step acc c) j =
      if decide (parent c = j) then (fun _ => g c) <$> bc_at acc j
      else bc_at acc j) ->
  forall pk j,
    bc_at (foldl step pk (seq 0 n)) j =
    match surface_cell_of parent n j with
    | Some c => (fun _ => g c) <$> bc_at pk j
    | None => bc_at pk j
    end.
Proof.
  intros Hstep. unfold surface_cell_of.
  induction n as [|n IH]; intros pk j.
  - reflexivity.
  - rewrite seq_S, foldl_app, filter_app. cbn [foldl Nat.add].
    rewrite Hstep, IH. rewrite filter_cons, filter_nil.
    case_decide as Hp.
    + rewrite last_snoc.
      destruct (last (filter (fun c => parent c = j) (seq 0 n)));
        destruct (bc_at pk j); reflexivity.
    + rewrite app_nil_r. reflexivity.
Qed.

(** ** The blocks of the composer, face by face *)

Lemma env_init_bcs pk : env (init_bcs pk) = env pk.
Proof. apply env_foldl. intros; apply env_set_bc. Qed.

Lemma bc_at_init_bcs pk f :
  bc_at (init_bcs pk) f = (fun _ => (OPERATOR_BC_NONE, 0%Q)) <$> bc_at pk f.
Proof.
  unfold init_bcs.
  rewrite (bc_at_index_loop _ (fun _ _ => (OPERATOR_BC_NONE, 0%Q))).
  - case_decide as Hlt; [reflexivity|].
    destruct (bc_at pk f) eqn:Hf; [|reflexivity].
    exfalso. apply Hlt, bc_at_lt. rewrite Hf. eauto.
  - intros acc i j. apply bc_at_set_bc.
Qed.

Lemma env_dirichlet_bcs pk : env (dirichlet_bcs pk) = env pk.
Proof. apply env_map_fold. intros; apply env_set_bc. Qed.

Lemma bc_at_dirichlet_bcs pk f :
  bc_at (dirichlet_bcs pk) f = override (pressure_rule pk f) (bc_at pk f).
Proof.
  unfold dirichlet_bcs, pressure_rule.
  rewrite (bc_at_map_loop _ (fun _ v => (OPERATOR_BC_DIRICHLET, v))).
  - destruct (bc_pressure_ pk !! f); reflexivity.
  - intros k v acc j. apply bc_at_set_bc.
Qed.

(** Two loops over a boundary function whose steps agree are the same
    loop. *)
Lemma map_fold_steps {B} (step1 step2 : nat -> double -> B -> B)
  (m : gmap nat double) (b : B) :
  (forall k v acc, step1 k v acc = step2 k v acc) ->
  map_fold step1 b m = map_fold step2 b m.
Proof.
  intros H. rewrite !map_fold_foldr.
  induction (map_to_list m) as [|[k v] l IH]; simpl; [reflexivity|].
  rewrite IH. apply H.
Qed.

(** With the temperature at hand when it is asked for, the flux loop
    runs through. *)
Lemma flux_bcs_Ok kr pk :
  has_temperature pk -> flux_bcs kr pk = Ok (flux_loop kr pk).
Proof.
  unfold has_temperature, flux_bcs, flux_loop, flux_value, face_temperature,
    GetFieldData_temperature.
  intros Ht. destruct (infiltrate_only_if_unfrozen_ pk); simpl.
  - destruct (Ht eq_refl) as [temp ->]. simpl. f_equal.
    apply map_fold_steps. intros k v acc.
    destruct (dgt (vview temp k) 273.15%Q); reflexivity.
  - reflexivity.
Qed.

(** Without it the look-up raises the exception. *)
Lemma flux_bcs_Err kr pk :
  ~ has_temperature pk -> flux_bcs kr pk = Err (MissingField "temperature").
Proof.
  unfold has_temperature, flux_bcs, GetFieldData_temperature. intros Ht.
  destruct (infiltrate_only_if_unfrozen_ pk); simpl.
  - destruct (temperature (S_next_ pk)); [|reflexivity].
    exfalso. apply Ht. eauto.
  - exfalso. apply Ht. discriminate.
Qed.

Lemma has_temperature_dec pk : {has_temperature pk} + {~ has_temperature pk}.
Proof.
  unfold has_temperature.
  destruct (infiltrate_only_if_unfrozen_ pk); [|left; discriminate].
  destruct (temperature (S_next_ pk)); [left; eauto|].
  right. intros H. destruct (H eq_refl) as [? [=]].
Qed.

Lemma env_flux_loop kr pk : env (flux_loop kr pk) = env pk.
Proof. apply env_map_fold. intros; apply env_set_bc. Qed.

Lemma bc_at_flux_loop kr pk f :
  bc_at (flux_loop kr pk) f = override (flux_rule kr pk f) (bc_at pk f).
Proof.
  unfold flux_loop, flux_rule.
  rewrite (bc_at_map_loop _ (fun k v =>
             (OPERATOR_BC_NEUMANN, flux_value kr pk k v))).
  - destruct (bc_flux_ pk !! f); reflexivity.
  - intros k v acc j. apply bc_at_set_bc.
Qed.

Lemma has_boundary_values_dec sol :
  {has_boundary_values sol} + {~ has_boundary_values sol}.
Proof.
  unfold has_boundary_values.
  destruct (cv_face sol); [left; eauto|].
  destruct (cv_boundary_face sol); [left; eauto|].
  right. intros [[? [=]]|[? [=]]].
Qed.

Lemma BoundaryValue_Ok mesh sol f :
  has_boundary_values sol -> exists p, BoundaryValue mesh sol f = Ok p.
Proof.
  unfold has_boundary_values, BoundaryValue. intros [[c Hc]|[c Hc]].
  - rewrite Hc. eauto.
  - rewrite Hc. destruct (cv_face sol); eauto.
Qed.

Lemma BoundaryValue_Err mesh sol f :
  ~ has_boundary_values sol ->
  BoundaryValue mesh sol f =
  Err (Exception ("No component is defined for boundary faces" ++ LF)).
Proof.
  unfold has_boundary_values, BoundaryValue. intros Hn.
  destruct (cv_face sol); [exfalso; apply Hn; eauto|].
  destruct (cv_boundary_face sol); [exfalso; apply Hn; eauto|].
  reflexivity.
Qed.

(** With face or boundary-face pressures the seepage loop runs through. *)
Lemma seepage_bcs_Ok pk :
  has_boundary_values (pressure (S_next_ pk)) ->
  seepage_bcs pk = Ok (seepage_loop pk).
Proof.
  intros Hv. unfold seepage_bcs, seepage_loop.
  rewrite !map_fold_foldr.
  induction (map_to_list (bc_seepage_ pk)) as [|[f v] l IH]; simpl.
  - reflexivity.
  - rewrite IH. simpl. unfold seepage_entry, boundary_pressure.
    destruct (BoundaryValue_Ok (mesh_ pk) _ f Hv) as [p ->]. simpl.
    destruct (dlt p v); reflexivity.
Qed.

(** Without them the first seepage face raises the exception. *)
Lemma seepage_bcs_Err pk :
  ~ has_boundary_values (pressure (S_next_ pk)) ->
  bc_seepage_ pk <> ∅ ->
  seepage_bcs pk =
  Err (Exception ("No component is defined for boundary faces" ++ LF)).
Proof.
  intros Hv Hne. unfold seepage_bcs. rewrite map_fold_foldr.
  assert (Hl : map_to_list (bc_seepage_ pk) <> []).
  { intros Hl. apply map_to_list_empty_iff in Hl. contradiction. }
  induction (map_to_list (bc_seepage_ pk)) as [|[f v] l IH]; [congruence|].
  simpl. destruct l as [|x l].
  - simpl. rewrite (BoundaryValue_Err _ _ f Hv). reflexivity.
  - rewrite IH by discriminate. reflexivity.
Qed.

Lemma seepage_bcs_empty pk : bc_seepage_ pk = ∅ -> seepage_bcs pk = Ok pk.
Proof. intros H. unfold seepage_bcs. rewrite H. apply map_fold_empty. Qed.

Lemma seepage_loop_empty pk : bc_seepage_ pk = ∅ -> seepage_loop pk = pk.
Proof. intros H. unfold seepage_loop. rewrite H. apply map_fold_empty. Qed.

Lemma env_seepage_loop pk : env (seepage_loop pk) = env pk.
Proof. apply env_map_fold. intros; apply env_set_bc. Qed.

Lemma bc_at_seepage_loop pk f :
  bc_at (seepage_loop pk) f = override (seepage_rule pk f) (bc_at pk f).
Proof.
  unfold seepage_loop, seepage_rule.
  rewrite (bc_at_map_loop _ (fun k v => seepage_entry pk k v)).
  - destruct (bc_seepage_ pk !! f); reflexivity.
  - intros k v acc j. rewrite bc_at_set_bc.
    destruct (seepage_entry pk k v). reflexivity.
Qed.

Lemma env_surface_head_bcs pk : env (surface_head_bcs pk) = env pk.
Proof.
  unfold surface_head_bcs. destruct (coupled_to_surface_via_head_ pk);
    [|reflexivity].
  apply env_foldl. intros; apply env_set_bc.
Qed.

Lemma bc_at_surface_head_bcs pk f :
  bc_at (surface_head_bcs pk) f =
  override (surface_head_rule pk f) (bc_at pk f).
Proof.
  unfold surface_head_bcs, surface_head_rule.
  destruct (coupled_to_surface_via_head_ pk); [|reflexivity].
  cbv zeta.
  rewrite (bc_at_surface_loop _ (surface_entity_get_parent (S_next_ pk))
             (fun c => (OPERATOR_BC_DIRICHLET,
                        vget (surface_pressure (S_next_ pk)) c))).
  - destruct (surface_cell_of _ _ f); reflexivity.
  - intros acc c j. apply bc_at_set_bc.
Qed.

Lemma env_surface_flux_bcs kr pk : env (surface_flux_bcs kr pk) = env pk.
Proof.
  unfold surface_flux_bcs. destruct (coupled_to_surface_via_flux_ pk);
    [|reflexivity].
  apply env_foldl. intros; apply env_set_bc.
Qed.

Lemma bc_at_surface_flux_bcs kr pk f :
  bc_at (surface_flux_bcs kr pk) f =
  override (surface_flux_rule kr pk f) (bc_at pk f).
Proof.
  unfold surface_flux_bcs, surface_flux_rule.
  destruct (coupled_to_surface_via_flux_ pk); [|reflexivity].
  cbv zeta.
  rewrite (bc_at_surface_loop _ (surface_entity_get_parent (S_next_ pk))
    (fun c =>
       (OPERATOR_BC_NEUMANN,
        divide_by_rel_perm kr (numerical_rel_perm (S_next_ pk))
          (surface_entity_get_parent (S_next_ pk) c)
          (vget (surface_subsurface_flux (S_next_ pk)) c /
           face_area (mesh_ pk) (surface_entity_get_parent (S_next_ pk) c))%Q))).
  - unfold surface_cell_of.
    destruct (last _) as [c|] eqn:Hc; [|reflexivity].
    apply last_Some_elem_of, list_elem_of_filter in Hc as [-> _].
    reflexivity.
  - intros acc c j. apply bc_at_set_bc.
Qed.

Lemma env_remaining_bcs pk : env (remaining_bcs pk) = env pk.
Proof.
  unfold remaining_bcs. apply env_foldl.
  intros acc f. repeat case_decide; reflexivity.
Qed.

Lemma bc_at_remaining_bcs pk f :
  bc_at (remaining_bcs pk) f =
  if decide (f < num_faces_owned (mesh_ pk))
  then remaining_entry pk f <$> bc_at pk f else bc_at pk f.
Proof.
  unfold remaining_bcs.
  apply (bc_at_index_loop _ (remaining_entry pk)).
  intros acc i j. unfold remaining_entry.
  destruct (bc_at acc i) as [[m v]|] eqn:Hi.
  - apply bc_at_marker in Hi as Hi'. destruct Hi' as [Hm _]. rewrite Hm.
    simpl. repeat case_decide; subst; rewrite ?bc_at_set_bc, ?Hi;
      simpl; repeat case_decide; try congruence; try reflexivity.
  - repeat case_decide; subst; rewrite ?bc_at_set_bc, ?Hi;
      repeat case_decide; try congruence; try reflexivity.
Qed.

(** ** The whole composer *)

(** The rules read the read-only members alone. *)
Lemma rules_env a b :
  env a = env b ->
  (forall f, pressure_rule a f = pressure_rule b f) /\
  (forall kr f, flux_rule kr a f = flux_rule kr b f) /\
  (forall f, seepage_rule a f = seepage_rule b f) /\
  (forall f, surface_head_rule a f = surface_head_rule b f) /\
  (forall kr f, surface_flux_rule kr a f = surface_flux_rule kr b f) /\
  (forall f old, remaining_entry a f old = remaining_entry b f old) /\
  mesh_ a = mesh_ b /\ S_next_ a = S_next_ b /\
  bc_seepage_ a = bc_seepage_ b.
Proof.
  destruct a, b. unfold env; simpl. intros [=]; subst.
  repeat split.
Qed.

Lemma can_compose_env a b : env a = env b -> can_compose a -> can_compose b.
Proof.
  destruct a, b. unfold env, can_compose, has_temperature; simpl.
  intros [=]; subst. tauto.
Qed.

(** Every rule marks the face: only a face without explicit condition is
    left to the last block. *)
Lemma explicit_bc_marked kr pk f e :
  explicit_bc kr pk f = Some e -> e.1 <> OPERATOR_BC_NONE.
Proof.
  unfold explicit_bc, surface_flux_rule, surface_head_rule, seepage_rule,
    flux_rule, pressure_rule, seepage_entry.
  intros H.
  repeat match type of H with
  | context [if ?b then _ else _] => destruct b
  | context [_ <$> ?o] => destruct o; simpl in H
  end; simplify_eq; simpl; try discriminate.
  all: repeat match goal with
  | |- context [if ?b then _ else _] => destruct b
  end; simpl; discriminate.
Qed.

Lemma override_Some rule old :
  override rule (Some old) = Some (default old rule).
Proof. destruct rule; reflexivity. Qed.

Lemma override_None rule : override rule None = None.
Proof. destruct rule; reflexivity. Qed.

(** Later blocks overwrite earlier ones: the chain of overrides is the
    precedence of [explicit_bc]. *)
Lemma explicit_bc_chain kr pk f (d : bc_entry) :
  default (default (default (default (default d
    (pressure_rule pk f)) (flux_rule kr pk f)) (seepage_rule pk f))
    (surface_head_rule pk f)) (surface_flux_rule kr pk f)
  = default d (explicit_bc kr pk f).
Proof.
  unfold explicit_bc.
  destruct (surface_flux_rule kr pk f), (surface_head_rule pk f),
    (seepage_rule pk f), (flux_rule kr pk f), (pressure_rule pk f);
    reflexivity.
Qed.

(** The composer runs through when the seepage loop can read its
    pressures, and then holds, face by face, the composed condition. *)
Lemma UpdateBoundaryConditions_composed kr pk :
  can_compose pk ->
  exists pk',
    UpdateBoundaryConditions_ kr pk = Ok pk' /\
    env pk' = env pk /\
    forall f, bc_at pk' f = (fun _ => composed_bc kr pk f) <$> bc_at pk f.
Proof.
  intros Hcan. unfold UpdateBoundaryConditions_.
  set (p1 := init_bcs pk).
  set (p2 := dirichlet_bcs p1).
  set (p3 := flux_loop kr p2).
  assert (E1 : env p1 = env pk) by apply env_init_bcs.
  assert (E2 : env p2 = env pk)
    by (unfold p2; rewrite env_dirichlet_bcs; exact E1).
  assert (E3 : env p3 = env pk)
    by (unfold p3; rewrite env_flux_loop; exact E2).
  assert (Hf : flux_bcs kr p2 = Ok p3).
  { apply flux_bcs_Ok.
    apply (can_compose_env pk p2 (eq_sym E2) Hcan). }
  rewrite Hf. simpl.
  assert (Hs : seepage_bcs p3 = Ok (seepage_loop p3)).
  { destruct (rules_env _ _ E3) as (_&_&_&_&_&_&_&HS&Hsp).
    destruct Hcan as [_ [Hv|He]].
    - apply seepage_bcs_Ok. rewrite HS. exact Hv.
    - rewrite seepage_loop_empty by congruence.
      apply seepage_bcs_empty. congruence. }
  rewrite Hs. simpl.
  set (p4 := seepage_loop p3).
  set (p5 := surface_head_bcs p4).
  set (p6 := surface_flux_bcs kr p5).
  assert (E4 : env p4 = env pk)
    by (unfold p4; rewrite env_seepage_loop; exact E3).
  assert (E5 : env p5 = env pk)
    by (unfold p5; rewrite env_surface_head_bcs; exact E4).
  assert (E6 : env p6 = env pk)
    by (unfold p6; rewrite env_surface_flux_bcs; exact E5).
  eexists. split; [reflexivity|]. split.
  { rewrite env_remaining_bcs. exact E6. }
  destruct (rules_env _ _ E1) as (R1&_).
  destruct (rules_env _ _ E2) as (_&R2&_).
  destruct (rules_env _ _ E3) as (_&_&R3&_).
  destruct (rules_env _ _ E4) as (_&_&_&R4&_).
  destruct (rules_env _ _ E5) as (_&_&_&_&R5&_).
  destruct (rules_env _ _ E6) as (_&_&_&_&_&R6&M6&_).
  intros f.
  rewrite bc_at_remaining_bcs, M6.
  replace (bc_at p6 f) with
    (override (surface_flux_rule kr pk f)
       (override (surface_head_rule pk f)
          (override (seepage_rule pk f)
             (override (flux_rule kr pk f)
                (override (pressure_rule pk f)
                   ((fun _ => (OPERATOR_BC_NONE, 0%Q)) <$> bc_at pk f)))))).
  2:{ unfold p6. rewrite bc_at_surface_flux_bcs, R5.
      unfold p5. rewrite bc_at_surface_head_bcs, R4.
      unfold p4. rewrite bc_at_seepage_loop, R3.
      unfold p3. rewrite bc_at_flux_loop, R2.
      unfold p2. rewrite bc_at_dirichlet_bcs, R1.
      unfold p1. rewrite bc_at_init_bcs. reflexivity. }
  destruct (bc_at pk f) as [old|].
  { cbn [fmap option_fmap option_map]. rewrite !override_Some.
    cbn [fmap option_fmap option_map].
    rewrite (explicit_bc_chain kr pk f), R6.
    unfold composed_bc.
    destruct (explicit_bc kr pk f) as [e|] eqn:He; cbn [default].
    - pose proof (explicit_bc_marked _ _ _ _ He) as Hm.
      unfold remaining_entry. repeat case_decide; try reflexivity.
      contradiction.
    - unfold remaining_entry, default_bc. cbn [fst].
      repeat case_decide; try reflexivity; tauto. }
  rewrite !override_None. case_decide; reflexivity.
Qed.

Lemma surface_cell_of_None parent n f :
  (forall c, c < n -> parent c <> f) -> surface_cell_of parent n f = None.
Proof.
  intros H. unfold surface_cell_of.
  destruct (last _) as [c|] eqn:Hc; [|reflexivity].
  apply last_Some_elem_of, list_elem_of_filter in Hc as [Hp Hin].
  apply elem_of_seq in Hin. exfalso. apply (H c); [lia | assumption].
Qed.

Lemma not_coupled_face kr pk f :
  ~ coupled_face pk f ->
  surface_flux_rule kr pk f = None /\ surface_head_rule pk f = None.
Proof.
  intros Hn. unfold surface_flux_rule, surface_head_rule. split.
  - destruct (coupled_to_surface_via_flux_ pk) eqn:Hc; [|reflexivity].
    rewrite surface_cell_of_None; [reflexivity|].
    intros c Hlt Hp. apply Hn. right. eauto.
  - destruct (coupled_to_surface_via_head_ pk) eqn:Hc; [|reflexivity].
    rewrite surface_cell_of_None; [reflexivity|].
    intros c Hlt Hp. apply Hn. left. eauto.
Qed.

Lemma example_has_boundary_values p0 :
  has_boundary_values (pressure (example_state p0)).
Proof. left. eexists. reflexivity. Defined.

Lemma example_has_temperature p0 unfrozen_only head flux :
  has_temperature (example_pk p0 unfrozen_only head flux).
Proof. intros _. eexists. reflexivity. Defined.

Lemma example_can_compose p0 unfrozen_only head flux :
  can_compose (example_pk p0 unfrozen_only head flux).
Proof.
  split; [apply example_has_temperature|].
  left. apply example_has_boundary_values.
Defined.

(** The composed condition, for the faces of the arrays. *)
Lemma composition_composed_aux kr pk :
  can_compose pk ->
  exists pk',
    UpdateBoundaryConditions_ kr pk = Ok pk' /\
    forall f, is_Some (bc_at pk f) ->
              bc_at pk' f = Some (composed_bc kr pk f).
Proof.
  intros Hrun.
  destruct (UpdateBoundaryConditions_composed kr pk Hrun)
    as (pk' & Hok & _ & Hat).
  exists pk'. split; [exact Hok|].
  intros f [old Hold]. rewrite Hat, Hold. reflexivity.
Qed.

(** ** Seepage faces *)

(** The pressure [BoundaryValue] reads is the entry of the pressure
    vector: of its "face" component at the face, or else of its
    "boundary_face" component at the boundary id of the face. *)
Lemma boundary_pressure_entry pk f p :
  match cv_face (pressure (S_next_ pk)),
        cv_boundary_face (pressure (S_next_ pk)) with
  | Some face, _ => (cp_owned face ++ cp_ghost face) !! f = Some p
  | None, Some bface =>
    let lbid :=
      exterior_face_map_LID (mesh_ pk) (face_map_GID (mesh_ pk) f) in
    (0 <= lbid)%Z /\
    (cp_owned bface ++ cp_ghost bface) !! Z.to_nat lbid = Some p
  | None, None => False
  end ->
  boundary_pressure pk f = p.
Proof.
  unfold boundary_pressure, BoundaryValue, vview, vviewZ, vgetZ, vget,
    ghosted.
  destruct (cv_face (pressure (S_next_ pk))) as [face|].
  - intros ->. reflexivity.
  - destruct (cv_boundary_face (pressure (S_next_ pk))) as [bface|];
      [|contradiction].
    cbv zeta. intros [Hpos ->].
    destruct (Z.ltb_spec
                (exterior_face_map_LID (mesh_ pk) (face_map_GID (mesh_ pk) f))
                0); [lia | reflexivity].
Qed.

(** C1, as stated, fails on a seepage face that a coupled-domain
    condition claims.  Face 2 of the example lies below the surface
    cell; listed as a seepage face of threshold 0, with the boundary
    pressure 7 above the threshold, it would be Dirichlet at 0; coupled
    to the surface by head, it is Dirichlet at the surface pressure
    101400, the block of the coupling coming after the seepage block. *)
Lemma seepage_complementarity_counterexample :
  exists pk',
    UpdateBoundaryConditions_ false
      (example_pk_with (example_state 5%Q) {[ 2 := 0%Q ]} ∅ false true)
      = Ok pk' /\
    bc_seepage_
      (example_pk_with (example_state 5%Q) {[ 2 := 0%Q ]} ∅ false true) !! 2
      = Some 0%Q /\
    BoundaryValue example_mesh (pressure (example_state 5%Q)) 2 = Ok 7%Q /\
    (0 <= 7)%Q /\
    bc_at pk' 2 = Some (OPERATOR_BC_DIRICHLET, 101400%Q) /\
    bc_at pk' 2 <> Some (OPERATOR_BC_DIRICHLET, 0%Q).
Proof.
  eexists. split; [vm_compute; reflexivity|].
  split; [reflexivity|].
  split; [vm_compute; reflexivity|].
  split; [vm_compute; discriminate|].
  split; [vm_compute; reflexivity|].
  vm_compute. discriminate.
Qed.

(** C1, amended.  With its look-ups served the composer runs through,
    and every face [f] of the seepage-face boundary function that no
    coupled-domain condition claims carries the complementarity pair
    afterwards: zero-flux Neumann when the current boundary pressure [p]
    is strictly below the threshold [v], Dirichlet at the threshold [v]
    when it is greater or equal.  The boundary pressure is the entry of
    the pressure vector of the state: of its "face" component at the
    face (an owned or a ghost face), or else of its "boundary_face"
    component at the boundary id of the face.  The face is an index of
    the two arrays. *)
Theorem seepage_complementarity (kr : bool) (pk : Richards) :
  has_temperature pk ->
  has_boundary_values (pressure (S_next_ pk)) ->
  exists pk',
    UpdateBoundaryConditions_ kr pk = Ok pk' /\
    forall f v p,
      bc_seepage_ pk !! f = Some v ->
      is_Some (bc_at pk f) ->
      ~ coupled_face pk f ->
      match cv_face (pressure (S_next_ pk)),
            cv_boundary_face (pressure (S_next_ pk)) with
      | Some face, _ => (cp_owned face ++ cp_ghost face) !! f = Some p
      | None, Some bface =>
        let lbid :=
          exterior_face_map_LID (mesh_ pk) (face_map_GID (mesh_ pk) f) in
        (0 <= lbid)%Z /\
        (cp_owned bface ++ cp_ghost bface) !! Z.to_nat lbid = Some p
      | None, None => False
      end ->
      ((p < v)%Q -> bc_at pk' f = Some (OPERATOR_BC_NEUMANN, 0%Q)) /\
      ((v <= p)%Q -> bc_at pk' f = Some (OPERATOR_BC_DIRICHLET, v)).
Proof.
  intros Ht Hv.
  destruct (composition_composed_aux kr pk (conj Ht (or_introl Hv)))
    as (pk' & Hrun & Hat).
  exists pk'. split; [exact Hrun|].
  intros f v p Hseep Hsome Hnc Hp.
  apply boundary_pressure_entry in Hp.
  destruct (not_coupled_face kr _ _ Hnc) as [Hflux Hhead].
  assert (Hc : bc_at pk' f = Some (seepage_entry pk f v)).
  { rewrite (Hat f Hsome). unfold composed_bc, explicit_bc, seepage_rule.
    rewrite Hflux, Hhead, Hseep. reflexivity. }
  rewrite Hc. unfold seepage_entry. rewrite Hp. split.
  - intros Hlt. apply dlt_lt in Hlt. rewrite Hlt. reflexivity.
  - intros Hge. apply dlt_ge in Hge. rewrite Hge. reflexivity.
Qed.

(** The scenario of the specification: threshold 0 and boundary pressure
    5 give Dirichlet(0). *)
Lemma seepage_complementarity_witness :
  has_temperature (example_pk 5%Q false false false) /\
  has_boundary_values (pressure (S_next_ (example_pk 5%Q false false false)))
  /\ exists pk',
       UpdateBoundaryConditions_ false (example_pk 5%Q false false false)
         = Ok pk' /\
       bc_at pk' 0 = Some (OPERATOR_BC_DIRICHLET, 0%Q).
Proof.
  split; [apply example_has_temperature|].
  split; [apply example_has_boundary_values|].
  destruct (seepage_complementarity false (example_pk 5%Q false false false)
              (example_has_temperature 5%Q false false false)
              (example_has_boundary_values 5%Q)) as (pk' & Hrun & H).
  exists pk'. split; [exact Hrun|].
  apply (H 0 0%Q 5%Q).
  - vm_compute. reflexivity.
  - eexists. vm_compute. reflexivity.
  - intros [[Hc _]|[Hc _]]; discriminate Hc.
  - reflexivity.
  - vm_compute. discriminate.
Defined.

(** The other half of the scenario: boundary pressure -5 gives
    Neumann(0). *)
Example seepage_scenario_below :
  exists pk',
    UpdateBoundaryConditions_ false (example_pk (-5)%Q false false false)
      = Ok pk' /\
    bc_at pk' 0 = Some (OPERATOR_BC_NEUMANN, 0%Q).
Proof. eexists. split; vm_compute; reflexivity. Qed.

(** A seepage face may be a ghost face of the partition: the pressure
    read there is the ghost entry of the pressure vector.  Ghost face 4
    of the example, at the pressure 9, with the threshold 8, is
    Dirichlet at 8. *)
Example seepage_on_ghost_face :
  exists pk',
    UpdateBoundaryConditions_ false
      (example_pk_with example_ghost_state {[ 4 := 8%Q ]} ∅ false false)
      = Ok pk' /\
    BoundaryValue example_mesh (pressure example_ghost_state) 4 = Ok 9%Q /\
    bc_at pk' 4 = Some (OPERATOR_BC_DIRICHLET, 8%Q).
Proof.
  eexists. split; [vm_compute; reflexivity|].
  split; vm_compute; reflexivity.
Qed.

(** ** Precedence *)

(** C2, as stated, fails on a ghost face.  Face 4 of the example mesh is
    not owned by the partition, has exactly one adjacent cell there and
    no explicit condition; the last block of the composer visits the owned
    faces alone, so the face stays unmarked, where the claim assigns it
    zero-flux Neumann. *)
Lemma composition_precedence_counterexample :
  exists pk',
    UpdateBoundaryConditions_ false (example_pk 5%Q false false false)
      = Ok pk' /\
    length (face_get_cells (mesh_ (example_pk 5%Q false false false)) 4) = 1
    /\ explicit_bc false (example_pk 5%Q false false false) 4 = None
    /\ spec_composed_bc false (example_pk 5%Q false false false) 4
       = (OPERATOR_BC_NEUMANN, 0%Q)
    /\ bc_at pk' 4 = Some (OPERATOR_BC_NONE, 0%Q)
    /\ bc_at pk' 4
       <> Some (spec_composed_bc false (example_pk 5%Q false false false) 4).
Proof.
  eexists. split; [vm_compute; reflexivity|].
  split; [reflexivity|].
  split; [vm_compute; reflexivity|].
  split; [vm_compute; reflexivity|].
  split; [vm_compute; reflexivity|].
  vm_compute. discriminate.
Qed.

(** C2, amended.  After one pass of the composer every face [f] of the
    arrays carries exactly the pair [composed_bc kr pk f]: the condition
    of the first rule, in the order coupling by flux, coupling by head,
    seepage, prescribed flux, prescribed pressure, that lists the face;
    without any, zero-flux Neumann if the face is owned and has exactly
    one adjacent cell, and no condition with value 0 otherwise (a ghost
    face, or a face whose number of adjacent cells is not one).  In
    particular a seepage face that no coupling claims carries its
    complementarity pair, whatever the fallback would give.  The pass
    completes when the look-ups of the composer are served. *)
Theorem composition_precedence (kr : bool) (pk : Richards) :
  can_compose pk ->
  exists pk',
    UpdateBoundaryConditions_ kr pk = Ok pk' /\
    forall f, is_Some (bc_at pk f) ->
      bc_at pk' f = Some (composed_bc kr pk f) /\
      (forall e, surface_flux_rule kr pk f = Some e ->
                 composed_bc kr pk f = e) /\
      (forall e, surface_flux_rule kr pk f = None ->
                 surface_head_rule pk f = Some e ->
                 composed_bc kr pk f = e) /\
      (forall v, ~ coupled_face pk f -> bc_seepage_ pk !! f = Some v ->
                 composed_bc kr pk f = seepage_entry pk f v) /\
      (forall v, ~ coupled_face pk f -> bc_seepage_ pk !! f = None ->
                 bc_flux_ pk !! f = Some v ->
                 composed_bc kr pk f
                 = (OPERATOR_BC_NEUMANN, flux_value kr pk f v)) /\
      (forall v, ~ coupled_face pk f -> bc_seepage_ pk !! f = None ->
                 bc_flux_ pk !! f = None ->
                 bc_pressure_ pk !! f = Some v ->
                 composed_bc kr pk f = (OPERATOR_BC_DIRICHLET, v)) /\
      (explicit_bc kr pk f = None ->
       f < num_faces_owned (mesh_ pk) ->
       length (face_get_cells (mesh_ pk) f) = 1 ->
       composed_bc kr pk f = (OPERATOR_BC_NEUMANN, 0%Q)) /\
      (explicit_bc kr pk f = None ->
       ~ (f < num_faces_owned (mesh_ pk)
          /\ length (face_get_cells (mesh_ pk) f) = 1) ->
       composed_bc kr pk f = (OPERATOR_BC_NONE, 0%Q)).
Proof.
  intros Hrun.
  destruct (UpdateBoundaryConditions_composed kr pk Hrun)
    as (pk' & Hok & _ & Hat).
  exists pk'. split; [exact Hok|].
  intros f [old Hold].
  split; [rewrite Hat, Hold; reflexivity|].
  unfold composed_bc, explicit_bc, seepage_rule, flux_rule, pressure_rule.
  repeat split.
  - intros e ->. reflexivity.
  - intros e -> ->. reflexivity.
  - intros v Hnc Hs. destruct (not_coupled_face kr _ _ Hnc) as [-> ->].
    rewrite Hs. reflexivity.
  - intros v Hnc Hs Hf. destruct (not_coupled_face kr _ _ Hnc) as [-> ->].
    rewrite Hs, Hf. reflexivity.
  - intros v Hnc Hs Hf Hp. destruct (not_coupled_face kr _ _ Hnc) as [-> ->].
    rewrite Hs, Hf, Hp. reflexivity.
  - intros -> Ho Hc. unfold default_bc. case_decide; [reflexivity|tauto].
  - intros -> Hn. unfold default_bc. case_decide; [tauto|reflexivity].
Qed.

(** On the example the seepage rule of face 0 beats its prescribed
    pressure and wins over the fallback. *)
Lemma composition_precedence_witness :
  can_compose (example_pk 5%Q false false false)
  /\ exists pk',
       UpdateBoundaryConditions_ false (example_pk 5%Q false false false)
         = Ok pk' /\
       bc_at pk' 0 = Some (OPERATOR_BC_DIRICHLET, 0%Q).
Proof.
  split; [apply example_can_compose|].
  destruct (composition_precedence false (example_pk 5%Q false false false)
              (example_can_compose 5%Q false false false))
    as (pk' & Hrun & H).
  exists pk'. split; [exact Hrun|].
  assert (Hs : is_Some (bc_at (example_pk 5%Q false false false) 0))
    by (eexists; reflexivity).
  destruct (H 0 Hs) as [H0 _]. rewrite H0. vm_compute. reflexivity.
Defined.

(** The example, composed: seepage on face 0, fluxes on faces 1 and 2, no
    condition on the interior face 3 nor on the ghost face 4. *)
Example example_pk_composed :
  UpdateBoundaryConditions_ false (example_pk 5%Q false false false)
  = Ok example_composed_pk.
Proof. vm_compute. reflexivity. Qed.

(** Coupled to the surface by head, face 2 below the surface cell takes
    the surface pressure and loses its prescribed flux; coupled by flux,
    it takes the surface flux per unit of face area. *)
Example coupling_overrides_flux :
  (exists pk',
     UpdateBoundaryConditions_ true (example_pk 5%Q false true false)
       = Ok pk' /\
     bc_at pk' 2 = Some (OPERATOR_BC_DIRICHLET, 101400%Q)) /\
  (exists pk',
     UpdateBoundaryConditions_ true (example_pk 5%Q false false true)
       = Ok pk' /\
     bc_at pk' 2 = Some (OPERATOR_BC_NEUMANN, (3 / 2)%Q)).
Proof.
  split; eexists; (split; [vm_compute; reflexivity|]);
    vm_compute; reflexivity.
Qed.

(** A prescribed flux on the ghost face 4 is divided by the relative
    permeability stored for that face, the ghost entry 0.25. *)
Example flux_on_ghost_face :
  exists pk',
    UpdateBoundaryConditions_ false
      (example_pk_with (example_state 5%Q) ∅ {[ 4 := 2%Q ]} false false)
      = Ok pk' /\
    bc_at pk' 4 = Some (OPERATOR_BC_NEUMANN, (2 / 0.25)%Q).
Proof. eexists. split; vm_compute; reflexivity. Qed.

(** ** Prescribed fluxes *)

(** C5, as stated, fails on a face of the prescribed-flux list that a
    condition of higher precedence claims.  With "infiltrate only if
    unfrozen" switched on, face 1 of the example, listed for the flux 4
    and as a seepage face of threshold 0, at the boundary pressure 0,
    ends Dirichlet at 0; face 2, listed for the flux 6 and lying below
    the surface cell of a kernel coupled by head, ends Dirichlet at the
    surface pressure. *)
Lemma unfrozen_infiltration_counterexample :
  (exists pk',
     UpdateBoundaryConditions_ false
       (example_pk_with (example_state 5%Q) {[ 1 := 0%Q ]} {[ 1 := 4%Q ]}
          true false) = Ok pk' /\
     bc_flux_ (example_pk_with (example_state 5%Q) {[ 1 := 0%Q ]}
                 {[ 1 := 4%Q ]} true false) !! 1
       = Some 4%Q /\
     bc_at pk' 1 = Some (OPERATOR_BC_DIRICHLET, 0%Q) /\
     forall v, bc_at pk' 1 <> Some (OPERATOR_BC_NEUMANN, v)) /\
  (exists pk',
     UpdateBoundaryConditions_ false (example_pk 5%Q true true false)
       = Ok pk' /\
     bc_flux_ (example_pk 5%Q true true false) !! 2 = Some 6%Q /\
     bc_at pk' 2 = Some (OPERATOR_BC_DIRICHLET, 101400%Q) /\
     forall v, bc_at pk' 2 <> Some (OPERATOR_BC_NEUMANN, v)).
Proof.
  split; eexists; (split; [vm_compute; reflexivity|]);
    (split; [reflexivity|]); (split; [vm_compute; reflexivity|]);
    intros v H; vm_compute in H; discriminate H.
Qed.

(** C5, amended.  With "infiltrate only if unfrozen" switched on and the
    temperature field in the state, every face [f] of the
    prescribed-flux boundary function that no seepage or coupled-domain
    condition claims (an index of the arrays) is marked Neumann.  Its
    value is 0 when the face temperature [T] is at or below 273.15; when
    it is above 273.15 the value is the prescribed flux [q], divided by
    the upwinded relative permeability [k] of the face when the composer
    is called with [kr = false] and [k] is strictly positive.  [T] and
    [k] are the entries of the "face" components of the two fields at
    the face, an owned or a ghost one. *)
Theorem unfrozen_infiltration (kr : bool) (pk : Richards)
  (temp : Component) :
  infiltrate_only_if_unfrozen_ pk = true ->
  temperature (S_next_ pk) = Some temp ->
  has_boundary_values (pressure (S_next_ pk)) \/ bc_seepage_ pk = ∅ ->
  exists pk',
    UpdateBoundaryConditions_ kr pk = Ok pk' /\
    forall f q T k,
      bc_flux_ pk !! f = Some q ->
      is_Some (bc_at pk f) ->
      bc_seepage_ pk !! f = None ->
      ~ coupled_face pk f ->
      (cp_owned temp ++ cp_ghost temp) !! f = Some T ->
      (cp_owned (numerical_rel_perm (S_next_ pk))
       ++ cp_ghost (numerical_rel_perm (S_next_ pk))) !! f = Some k ->
      exists v,
        bc_at pk' f = Some (OPERATOR_BC_NEUMANN, v) /\
        ((T <= 273.15)%Q -> v = 0%Q) /\
        ((273.15 < T)%Q ->
         (kr = false -> (0 < k)%Q -> v = (q / k)%Q) /\
         (kr = false -> (k <= 0)%Q -> v = q) /\
         (kr = true -> v = q)).
Proof.
  intros Hinf Htemp Hrun.
  assert (Hcan : can_compose pk).
  { split; [|exact Hrun]. intros _. rewrite Htemp. eauto. }
  destruct (composition_composed_aux kr pk Hcan) as (pk' & Hok & Hat).
  exists pk'. split; [exact Hok|].
  intros f q T k Hq Hsome Hseep Hnc HT Hk.
  exists (flux_value kr pk f q). split.
  - rewrite (Hat f Hsome). unfold composed_bc, explicit_bc, seepage_rule,
      flux_rule.
    destruct (not_coupled_face kr _ _ Hnc) as [-> ->].
    rewrite Hseep, Hq. reflexivity.
  - unfold flux_value, face_temperature, divide_by_rel_perm, dgt, vview,
      vget, ghosted.
    rewrite Hinf, Htemp, HT, Hk. cbn [default from_option id]. split.
    + intros Hle. apply dlt_ge in Hle. rewrite Hle. reflexivity.
    + intros Hgt. apply dlt_lt in Hgt. rewrite Hgt. repeat split.
      * intros -> Hpos. apply dlt_lt in Hpos. rewrite Hpos. reflexivity.
      * intros -> Hle. apply dlt_ge in Hle. rewrite Hle. reflexivity.
      * intros ->. reflexivity.
Qed.

(** On the example, with [kr = false]: face 1 is at 280 K with relative
    permeability 0.5 and carries the flux 4 / 0.5. *)
Lemma unfrozen_infiltration_witness :
  infiltrate_only_if_unfrozen_ (example_pk 5%Q true false false) = true /\
  temperature (S_next_ (example_pk 5%Q true false false))
    = Some (mkComponent [270%Q; 280%Q; 273.15%Q; 275%Q] [290%Q]) /\
  (has_boundary_values (pressure (S_next_ (example_pk 5%Q true false false)))
   \/ bc_seepage_ (example_pk 5%Q true false false) = ∅) /\
  exists pk',
    UpdateBoundaryConditions_ false (example_pk 5%Q true false false)
      = Ok pk' /\
    bc_at pk' 1 = Some (OPERATOR_BC_NEUMANN, (4 / 0.5)%Q).
Proof.
  split; [reflexivity|]. split; [reflexivity|].
  split; [left; apply example_has_boundary_values|].
  destruct (unfrozen_infiltration false (example_pk 5%Q true false false)
              _ eq_refl eq_refl
              (or_introl (example_has_boundary_values 5%Q)))
    as (pk' & Hrun & H).
  exists pk'. split; [exact Hrun|].
  destruct (H 1 4%Q 280%Q 0.5%Q) as (v & Hv & _ & Hwarm).
  - reflexivity.
  - eexists. reflexivity.
  - reflexivity.
  - intros [[Hc _]|[Hc _]]; discriminate Hc.
  - reflexivity.
  - reflexivity.
  - rewrite Hv. f_equal. f_equal.
    apply Hwarm; reflexivity.
Defined.

(** Face 2 is at 273.15 K exactly: the test is [temp > 273.15], the flux
    is shut off there as well. *)
Example flux_at_freezing_point_is_zero :
  exists pk',
    UpdateBoundaryConditions_ false (example_pk 5%Q true false false)
      = Ok pk' /\
    face_temperature (example_pk 5%Q true false false) 2 = 273.15%Q /\
    bc_at pk' 2 = Some (OPERATOR_BC_NEUMANN, 0%Q).
Proof.
  eexists. split; [vm_compute; reflexivity|].
  split; vm_compute; reflexivity.
Qed.

(** Without a temperature field in the state the look-up of the flux
    loop throws. *)
Example unfrozen_infiltration_without_temperature :
  UpdateBoundaryConditions_ false example_pk_without_temperature
  = Err (MissingField "temperature").
Proof. vm_compute. reflexivity. Qed.

(** ** Applying the conditions to the pressure *)

Lemma apply_loop_spec (markers : list Matrix_bc) (values : list double)
  (n : nat) (l : list double) :
  let step := fun (pres_f : list double) (f : nat) =>
    if decide (default OPERATOR_BC_NONE (markers !! f)
               = OPERATOR_BC_DIRICHLET)
    then <[f:=vget values f]> pres_f else pres_f in
  length (foldl step l (seq 0 n)) = length l /\
  forall f,
    foldl step l (seq 0 n) !! f =
    if decide (f < n /\ f < length l /\
               default OPERATOR_BC_NONE (markers !! f)
               = OPERATOR_BC_DIRICHLET)
    then Some (vget values f) else l !! f.
Proof.
  intros step. induction n as [|n [IHlen IH]].
  - split; [reflexivity|]. intros f. cbn [seq foldl].
    case_decide; [lia|reflexivity].
  - rewrite seq_S, foldl_app. cbn [foldl Nat.add]. split.
    + unfold step at 1. case_decide; rewrite ?length_insert; exact IHlen.
    + intros f. unfold step at 1.
      destruct (decide (default OPERATOR_BC_NONE (markers !! n)
                        = OPERATOR_BC_DIRICHLET)) as [Hd|Hd].
      * destruct (decide (n = f)) as [->|Hne].
        -- destruct (decide (f < length l)) as [Hlt|Hge].
           ++ rewrite list_lookup_insert_eq by lia.
              case_decide as Hc; [reflexivity|].
              exfalso. apply Hc. repeat split; [lia|lia|exact Hd].
           ++ rewrite list_insert_ge by lia. rewrite IH.
              repeat case_decide; try reflexivity; absurd_decisions.
        -- rewrite list_lookup_insert_ne by assumption. rewrite IH.
           repeat case_decide; try reflexivity; absurd_decisions.
      * rewrite IH.
        destruct (decide (f = n)) as [->|Hne];
          repeat case_decide; try reflexivity; absurd_decisions.
Qed.

(** C10.  Applied to a pressure vector with a "face" component,
    [ApplyBoundaryConditions_] returns a vector whose owned face entry is
    the composed boundary value at every face marked Dirichlet, and the
    entry it had at every face not marked Dirichlet; the cell entries, the
    ghost face entries and the boundary-face component are the ones it
    had. *)
Theorem ApplyBoundaryConditions_frame (pk : Richards)
  (pres : CompositeVector) (face : Component) :
  cv_face pres = Some face ->
  exists pres_f,
    ApplyBoundaryConditions_ pk pres =
      Ok {| cv_cell := cv_cell pres;
            cv_face := Some {| cp_owned := pres_f;
                               cp_ghost := cp_ghost face |};
            cv_boundary_face := cv_boundary_face pres |} /\
    length pres_f = length (cp_owned face) /\
    forall f,
      (f < length (cp_owned face) ->
       bc_markers_ pk !! f = Some OPERATOR_BC_DIRICHLET ->
       pres_f !! f = Some (vget (bc_values_ pk) f)) /\
      (bc_markers_ pk !! f <> Some OPERATOR_BC_DIRICHLET ->
       pres_f !! f = cp_owned face !! f).
Proof.
  intros Hface. unfold ApplyBoundaryConditions_. rewrite Hface.
  eexists. split; [reflexivity|].
  destruct (apply_loop_spec (bc_markers_ pk) (bc_values_ pk)
              (length (cp_owned face)) (cp_owned face)) as [Hlen Hat].
  split; [exact Hlen|].
  intros f. rewrite (Hat f). split.
  - intros Hlt Hm. rewrite Hm. simpl.
    case_decide as Hc; [reflexivity|]. exfalso. apply Hc. auto.
  - intros Hm. case_decide as Hc; [|reflexivity].
    destruct Hc as (_ & _ & Hd).
    destruct (bc_markers_ pk !! f) as [m|]; simpl in Hd;
      [congruence | discriminate].
Qed.

(** On the composed example: face 0 is Dirichlet and takes the value 0,
    face 1 is Neumann and keeps its pressure. *)
Lemma ApplyBoundaryConditions_frame_witness :
  cv_face (pressure (example_state 5%Q))
    = Some (mkComponent [5%Q; 0%Q; 7%Q; 3%Q] [0%Q]) /\
  exists pres',
    ApplyBoundaryConditions_ example_composed_pk
      (pressure (example_state 5%Q)) = Ok pres' /\
    cv_cell pres' = mkComponent [1%Q; 2%Q] [] /\
    cv_face pres' = Some (mkComponent [0%Q; 0%Q; 7%Q; 3%Q] [0%Q]).
Proof.
  split; [reflexivity|].
  destruct (ApplyBoundaryConditions_frame example_composed_pk
              (pressure (example_state 5%Q)) _ eq_refl)
    as (pres_f & Hrun & Hlen & Hat).
  eexists. split; [exact Hrun|]. split; [reflexivity|].
  cbn [cv_face]. do 2 f_equal.
  apply list_eq. intros f.
  destruct (Hat f) as [HD HN].
  destruct f as [|[|[|[|[|f]]]]].
  - rewrite HD; [reflexivity | cbn; lia | reflexivity].
  - rewrite HN; [reflexivity | intros H; vm_compute in H; discriminate H].
  - rewrite HN; [reflexivity | intros H; vm_compute in H; discriminate H].
  - rewrite HN; [reflexivity | intros H; vm_compute in H; discriminate H].
  - rewrite HN; [reflexivity | intros H; vm_compute in H; discriminate H].
  - rewrite HN; [reflexivity | intros H; vm_compute in H; discriminate H].
Defined.

(** ** Setup and the coupling modes *)

Lemma bind_Ok {A B} (m : result A) (k : A -> result B) (b : B) :
  m ≫= k = Ok b -> exists a, m = Ok a /\ k a = Ok b.
Proof. destruct m as [a|e]; simpl; [eauto | discriminate]. Qed.

(** Inverts a successful run of a sequence of binds. *)
Ltac invert_binds H :=
  repeat match type of H with
  | _ ≫= _ = Ok _ =>
    let a := fresh "a" in let Ha := fresh "Ha" in
    apply bind_Ok in H as (a & Ha & H)
  end.

Lemma setup_boundary_conditions_coupling plist fac pk pk1 :
  setup_boundary_conditions plist fac pk = Ok pk1 ->
  coupled_to_surface_via_flux_ pk1 = coupled_to_surface_via_flux_ pk /\
  coupled_to_surface_via_head_ pk1 = coupled_to_surface_via_head_ pk.
Proof.
  unfold setup_boundary_conditions. intros H. invert_binds H.
  injection H as <-. split; reflexivity.
Qed.

Lemma setup_coupling_Ok plist uf pk pk' :
  setup_coupling plist uf pk = Ok pk' ->
  get_bool (pl_entries plist) "coupled to surface via flux" false
    = Ok (coupled_to_surface_via_flux_ pk') /\
  get_bool (pl_entries plist) "coupled to surface via head" false
    = Ok (coupled_to_surface_via_head_ pk') /\
  coupled_to_surface_via_flux_ pk' && coupled_to_surface_via_head_ pk'
    = false.
Proof.
  unfold setup_coupling. intros H. invert_binds H.
  injection H as <-. simpl. repeat split; try assumption.
  unfold ASSERT in *. destruct (a && a0); [discriminate | reflexivity].
Qed.

Lemma setup_coupling_conflict plist uf pk :
  get_bool (pl_entries plist) "coupled to surface via flux" false = Ok true ->
  get_bool (pl_entries plist) "coupled to surface via head" false = Ok true ->
  setup_coupling plist uf pk =
  Err (AssertionFailure
         "!(coupled_to_surface_via_flux_ && coupled_to_surface_via_head_)").
Proof. intros Hf Hh. unfold setup_coupling. rewrite Hf, Hh. reflexivity. Qed.

(** C9.  The two surface-coupling modes exclude each other.  A run of
    [SetupRichardsFlow_] that passes leaves the two flags as the parameter
    list gives them and never both true, so for every kernel that carries
    these flags one of the two coupled-domain rules (Dirichlet from the
    surface head, Neumann from the surface flux) is inactive on all
    faces.  With both flags set in the parameter list the setup does not
    pass: once the steps before the coupling block went through, it stops
    on the failed assertion. *)
Theorem coupling_modes_exclusive (plist : ParameterList)
  (fac : FlowBCFactory) (pk : Richards) :
  (forall pk',
      SetupRichardsFlow_ plist fac pk = Ok pk' ->
      get_bool (pl_entries plist) "coupled to surface via flux" false
        = Ok (coupled_to_surface_via_flux_ pk') /\
      get_bool (pl_entries plist) "coupled to surface via head" false
        = Ok (coupled_to_surface_via_head_ pk') /\
      ~ (coupled_to_surface_via_flux_ pk' = true /\
         coupled_to_surface_via_head_ pk' = true) /\
      forall pk2 kr,
        coupled_to_surface_via_flux_ pk2 = coupled_to_surface_via_flux_ pk' ->
        coupled_to_surface_via_head_ pk2 = coupled_to_surface_via_head_ pk' ->
        (forall f, surface_head_rule pk2 f = None) \/
        (forall f, surface_flux_rule kr pk2 f = None)) /\
  (get_bool (pl_entries plist) "coupled to surface via flux" false = Ok true ->
   get_bool (pl_entries plist) "coupled to surface via head" false = Ok true ->
   (exists e, SetupRichardsFlow_ plist fac pk = Err e) /\
   forall pk1 uf,
     setup_boundary_conditions plist fac pk = Ok pk1 ->
     setup_update_flux plist = Ok uf ->
     SetupRichardsFlow_ plist fac pk =
     Err (AssertionFailure
            "!(coupled_to_surface_via_flux_ && coupled_to_surface_via_head_)")).
Proof.
  split.
  - intros pk' H. unfold SetupRichardsFlow_ in H. invert_binds H.
    injection H as ->.
    destruct (setup_coupling_Ok _ _ _ _ Ha1) as (Hf & Hh & Hex).
    split; [exact Hf|]. split; [exact Hh|]. split.
    + intros [Hf' Hh']. rewrite Hf', Hh' in Hex. discriminate.
    + intros pk2 kr E2f E2h.
      unfold surface_head_rule, surface_flux_rule. rewrite E2f, E2h.
      destruct (coupled_to_surface_via_flux_ pk'),
        (coupled_to_surface_via_head_ pk'); try discriminate; auto.
  - intros Hf Hh. split.
    + unfold SetupRichardsFlow_.
      destruct (setup_boundary_conditions plist fac pk) as [pk1|e];
        [|simpl; eauto].
      destruct (setup_update_flux plist) as [uf|e]; [|simpl; eauto].
      simpl. rewrite (setup_coupling_conflict _ _ _ Hf Hh). simpl. eauto.
    + intros pk1 uf H1 H2. unfold SetupRichardsFlow_. rewrite H1, H2.
      simpl. rewrite (setup_coupling_conflict _ _ _ Hf Hh). reflexivity.
Qed.

(** A parameter list that couples by flux alone passes the setup, and
    the rule of the coupling by head is inactive afterwards. *)
Lemma coupling_modes_exclusive_witness :
  exists pk',
    SetupRichardsFlow_ (example_plist true false) example_factory
      (Richards_ctor example_mesh (example_state 5%Q) VERB_NONE) = Ok pk' /\
    coupled_to_surface_via_flux_ pk' = true /\
    coupled_to_surface_via_head_ pk' = false /\
    ~ (coupled_to_surface_via_flux_ pk' = true /\
       coupled_to_surface_via_head_ pk' = true).
Proof.
  destruct (coupling_modes_exclusive (example_plist true false)
              example_factory
              (Richards_ctor example_mesh (example_state 5%Q) VERB_NONE))
    as [H _].
  eexists. split; [vm_compute; reflexivity|].
  split; [reflexivity|]. split; [reflexivity|].
  refine (proj1 (proj2 (proj2 (H _ _)))).
  vm_compute. reflexivity.
Defined.

(** With both flags set the setup stops on the assertion. *)
Example coupling_conflict_is_fatal :
  SetupRichardsFlow_ (example_plist true true) example_factory
    (Richards_ctor example_mesh (example_state 5%Q) VERB_NONE)
  = Err (AssertionFailure
           "!(coupled_to_surface_via_flux_ && coupled_to_surface_via_head_)").
Proof. vm_compute. reflexivity. Qed.

Lemma extrema_loop_arg_loops v :
  extrema_loop v =
  (arg_loop dlt 1e15%Q (vget v) (length v),
   arg_loop dgt (-1e15)%Q (vget v) (length v)).
Proof.
  unfold extrema_loop, arg_loop. generalize (length v) as n.
  induction n as [|n IH].
  - reflexivity.
  - rewrite seq_S, !foldl_app, IH. clear IH. cbn [foldl Nat.add].
    destruct (foldl _ (1e15%Q, _) (seq 0 n)) as [m i].
    destruct (foldl _ ((-1e15)%Q, _) (seq 0 n)) as [m' i']. reflexivity.
Qed.

Lemma local_minT_lt mesh pres b :
  ~ (1e15 < b)%Q ->
  (minT_l (local_extrema mesh pres) < b)%Q <->
  exists x, x ∈ unknowns pres /\ (x < b)%Q.
Proof.
  intros Hb. unfold local_extrema, unknowns.
  rewrite extrema_loop_arg_loops.
  pose proof (arg_loop_min_lt (cp_owned (cv_cell pres)) b Hb) as Hc.
  destruct (arg_loop dlt 1e15%Q (vget (cp_owned (cv_cell pres))) _) as [mc ic].
  destruct (arg_loop dgt (-1e15)%Q (vget (cp_owned (cv_cell pres))) _) as [xc jc].
  destruct (cv_face pres) as [face|].
  - rewrite extrema_loop_arg_loops.
    pose proof (arg_loop_min_lt (cp_owned face) b Hb) as Hf.
    destruct (arg_loop dlt 1e15%Q (vget (cp_owned face)) _) as [mf jf].
    destruct (arg_loop dgt (-1e15)%Q (vget (cp_owned face)) _) as [xf kf].
    cbn [minT_l fst] in *. change (std_min mc mf) with (pick dlt mc mf).
    rewrite pick_min_lt, Hc, Hf. split.
    + intros [(x & Hx & Hlt)|(x & Hx & Hlt)]; exists x;
        (split; [apply elem_of_app; auto | exact Hlt]).
    + intros (x & Hx & Hlt). apply elem_of_app in Hx as [Hx|Hx]; eauto.
  - cbn [minT_l fst] in *. rewrite Hc, app_nil_r. reflexivity.
Qed.

Lemma local_maxT_gt mesh pres b :
  ~ (b < -1e15)%Q ->
  (b < maxT_l (local_extrema mesh pres))%Q <->
  exists x, x ∈ unknowns pres /\ (b < x)%Q.
Proof.
  intros Hb. unfold local_extrema, unknowns.
  rewrite extrema_loop_arg_loops.
  pose proof (arg_loop_max_gt (cp_owned (cv_cell pres)) b Hb) as Hc.
  destruct (arg_loop dlt 1e15%Q (vget (cp_owned (cv_cell pres))) _) as [mc ic].
  destruct (arg_loop dgt (-1e15)%Q (vget (cp_owned (cv_cell pres))) _) as [xc jc].
  destruct (cv_face pres) as [face|].
  - rewrite extrema_loop_arg_loops.
    pose proof (arg_loop_max_gt (cp_owned face) b Hb) as Hf.
    destruct (arg_loop dlt 1e15%Q (vget (cp_owned face)) _) as [mf jf].
    destruct (arg_loop dgt (-1e15)%Q (vget (cp_owned face)) _) as [xf kf].
    cbn [maxT_l fst] in *. change (std_max xc xf) with (pick dgt xc xf).
    rewrite pick_max_gt, Hc, Hf. split.
    + intros [(x & Hx & Hlt)|(x & Hx & Hlt)]; exists x;
        (split; [apply elem_of_app; auto | exact Hlt]).
    + intros (x & Hx & Hlt). apply elem_of_app in Hx as [Hx|Hx]; eauto.
  - cbn [maxT_l fst] in *. rewrite Hc, app_nil_r. reflexivity.
Qed.

Lemma local_extrema_contributions mesh pres :
  let r := {| rk_mesh := mesh; rk_up := pres |} in
  local_minT_c (local_extrema mesh pres)
    = contribution dlt 1e15%Q (cell_view r) /\
  local_maxT_c (local_extrema mesh pres)
    = contribution dgt (-1e15)%Q (cell_view r) /\
  local_minT_f (local_extrema mesh pres)
    = contribution dlt 1e15%Q (face_view r) /\
  local_maxT_f (local_extrema mesh pres)
    = contribution dgt (-1e15)%Q (face_view r).
Proof.
  unfold local_extrema, contribution, cell_view, face_view.
  cbn [rk_mesh rk_up fst snd].
  rewrite extrema_loop_arg_loops.
  destruct (arg_loop dlt 1e15%Q (vget (cp_owned (cv_cell pres))) _) as [mc ic].
  destruct (arg_loop dgt (-1e15)%Q (vget (cp_owned (cv_cell pres))) _) as [xc jc].
  destruct (cv_face pres) as [face|].
  - rewrite extrema_loop_arg_loops.
    destruct (arg_loop dlt 1e15%Q (vget (cp_owned face)) _) as [mf jf].
    destruct (arg_loop dgt (-1e15)%Q (vget (cp_owned face)) _) as [xf kf].
    repeat split.
  - repeat split.
Qed.

Lemma peers_contributions (proj : LocalExtrema -> ENorm_t)
  (view : Rank -> list double * (nat -> Z)) better init (peers : list Rank) :
  (forall mesh pres,
      proj (local_extrema mesh pres)
      = contribution better init (view {| rk_mesh := mesh; rk_up := pres |})) ->
  proj <$> ((fun r => local_extrema (rk_mesh r) (rk_up r)) <$> peers)
  = contribution better init <$> (view <$> peers).
Proof.
  intros H. rewrite <- !list_fmap_compose. apply list_fmap_ext.
  intros i [mesh pres] _. cbn. apply H.
Qed.

(** The global minimum is below a bound exactly when some unknown of some
    process is. *)
Lemma global_min_lt pk peers up b :
  ~ (1e15 < b)%Q ->
  (Allreduce MPI_MIN (minT_l (local_extrema (mesh_ pk) up))
     (minT_l <$> ((fun r => local_extrema (rk_mesh r) (rk_up r)) <$> peers))
   < b)%Q <->
  exists r x, r ∈ ranks pk peers up /\ x ∈ unknowns (rk_up r) /\ (x < b)%Q.
Proof.
  intros Hb. change MPI_MIN with (pick dlt).
  destruct (Allreduce_pick dlt Qle Qle_refl Qle_trans dlt_le not_dlt_le
              (minT_l (local_extrema (mesh_ pk) up))
              (minT_l <$> ((fun r => local_extrema (rk_mesh r) (rk_up r))
                           <$> peers))) as [Hall Hin].
  assert (Hl : forall y,
    y ∈ minT_l (local_extrema (mesh_ pk) up)
        :: (minT_l <$> ((fun r => local_extrema (rk_mesh r) (rk_up r))
                        <$> peers)) <->
    exists r, r ∈ ranks pk peers up /\
              y = minT_l (local_extrema (rk_mesh r) (rk_up r))).
  { intros y. unfold ranks. rewrite <- list_fmap_compose. split.
    - intros Hy. apply elem_of_cons in Hy as [->|Hy].
      + eexists. split; [apply list_elem_of_here | reflexivity].
      + apply list_elem_of_fmap in Hy as (r & -> & Hr).
        exists r. split; [apply list_elem_of_further; exact Hr | reflexivity].
    - intros (r & Hr & ->). apply elem_of_cons in Hr as [->|Hr].
      + apply list_elem_of_here.
      + apply list_elem_of_further, list_elem_of_fmap. eauto. }
  split.
  - intros Hlt. apply Hl in Hin as (r & Hr & Heq). rewrite Heq in Hlt.
    apply local_minT_lt in Hlt as (x & Hx & Hxb); [|exact Hb].
    exists r, x. auto.
  - intros (r & x & Hr & Hx & Hxb).
    eapply Qle_lt_trans.
    + apply Hall. apply Hl. exists r. split; [exact Hr | reflexivity].
    + apply local_minT_lt; [exact Hb|]. eauto.
Qed.

Lemma global_max_gt pk peers up b :
  ~ (b < -1e15)%Q ->
  (b < Allreduce MPI_MAX (maxT_l (local_extrema (mesh_ pk) up))
         (maxT_l <$> ((fun r => local_extrema (rk_mesh r) (rk_up r))
                      <$> peers)))%Q <->
  exists r x, r ∈ ranks pk peers up /\ x ∈ unknowns (rk_up r) /\ (b < x)%Q.
Proof.
  intros Hb. change MPI_MAX with (pick dgt).
  destruct (Allreduce_pick dgt ge ge_refl ge_trans dgt_ge not_dgt_ge
              (maxT_l (local_extrema (mesh_ pk) up))
              (maxT_l <$> ((fun r => local_extrema (rk_mesh r) (rk_up r))
                           <$> peers))) as [Hall Hin].
  assert (Hl : forall y,
    y ∈ maxT_l (local_extrema (mesh_ pk) up)
        :: (maxT_l <$> ((fun r => local_extrema (rk_mesh r) (rk_up r))
                        <$> peers)) <->
    exists r, r ∈ ranks pk peers up /\
              y = maxT_l (local_extrema (rk_mesh r) (rk_up r))).
  { intros y. unfold ranks. rewrite <- list_fmap_compose. split.
    - intros Hy. apply elem_of_cons in Hy as [->|Hy].
      + eexists. split; [apply list_elem_of_here | reflexivity].
      + apply list_elem_of_fmap in Hy as (r & -> & Hr).
        exists r. split; [apply list_elem_of_further; exact Hr | reflexivity].
    - intros (r & Hr & ->). apply elem_of_cons in Hr as [->|Hr].
      + apply list_elem_of_here.
      + apply list_elem_of_further, list_elem_of_fmap. eauto. }
  split.
  - intros Hlt. apply Hl in Hin as (r & Hr & Heq). rewrite Heq in Hlt.
    apply local_maxT_gt in Hlt as (x & Hx & Hxb); [|exact Hb].
    exists r, x. auto.
  - intros (r & x & Hr & Hx & Hxb).
    eapply Qlt_le_trans.
    + apply local_maxT_gt; [exact Hb|]. eauto.
    + apply (Hall (maxT_l (local_extrema (rk_mesh r) (rk_up r)))).
      apply Hl. exists r. split; [exact Hr | reflexivity].
Qed.

(** ** Admissibility *)

Lemma IsAdmissible_answer pk peers up :
  (IsAdmissible pk peers up).1.1 =
  negb (dlt (Allreduce MPI_MIN (minT_l (local_extrema (mesh_ pk) up))
               (minT_l <$> ((fun r => local_extrema (rk_mesh r) (rk_up r))
                            <$> peers))) (-1e9)%Q
        || dgt (Allreduce MPI_MAX (maxT_l (local_extrema (mesh_ pk) up))
                  (maxT_l <$> ((fun r => local_extrema (rk_mesh r) (rk_up r))
                               <$> peers))) 1e8%Q).
Proof.
  unfold IsAdmissible. cbv zeta.
  destruct (dlt _ (-1e9)%Q || dgt _ 1e8%Q); reflexivity.
Qed.

Lemma IsAdmissible_false pk peers up :
  (IsAdmissible pk peers up).1.1 = false <->
  exists r x, r ∈ ranks pk peers up /\ x ∈ unknowns (rk_up r) /\
              out_of_bounds x.
Proof.
  rewrite IsAdmissible_answer, negb_false_iff, orb_true_iff.
  unfold dgt. rewrite !dlt_lt.
  rewrite global_min_lt by (intros H; vm_compute in H; discriminate H).
  rewrite global_max_gt by (intros H; vm_compute in H; discriminate H).
  unfold out_of_bounds. split.
  - intros [(r & x & Hr & Hx & Hb)|(r & x & Hr & Hx & Hb)];
      exists r, x; auto.
  - intros (r & x & Hr & Hx & [Hb|Hb]); [left|right]; eauto.
Qed.

(** C7, as stated, fails in its last part: the diagnostics are written
    only when the verbose object is at level medium or above.  With a
    silent verbose object a cell pressure of 2e8 is rejected and nothing
    is reported. *)
Lemma IsAdmissible_silent_rejection :
  vo_ (example_pk 5%Q false false false) = VERB_NONE /\
  IsAdmissible (example_pk 5%Q false false false) [] (example_iterate 2e8%Q)
  = (false, example_pk 5%Q false false false, []).
Proof. split; [reflexivity | vm_compute; reflexivity]. Qed.

(** C7, amended.  [IsAdmissible] answers false exactly when some primary
    unknown (an owned cell pressure of some process or, where the vector
    has faces, an owned face pressure) is below -1e9 or above 1e8, and
    true exactly when all of them lie within these bounds; the kernel is
    the same after the call.  On a rejection, and when the verbose object
    is at level medium or above, the lines written carry a least and a
    greatest cell pressure of all processes and, when the iterate has
    faces, the same for the faces ([reports]): the least one is the
    least cell pressure with the global id of a cell that holds it when
    some cell pressure is below the value 1e15 from which the loops
    start, and that start value at the id -1 otherwise; the greatest one
    likewise, with the start value -1e15.  Below that level no extrema
    are written. *)
Theorem IsAdmissible_bounds (pk : Richards) (peers : list Rank)
  (up : CompositeVector) :
  let answer := (IsAdmissible pk peers up).1.1 in
  let pk' := (IsAdmissible pk peers up).1.2 in
  let log := (IsAdmissible pk peers up).2 in
  (answer = false <->
   exists r x, r ∈ ranks pk peers up /\ x ∈ unknowns (rk_up r) /\
               out_of_bounds x) /\
  (answer = true <->
   forall r x, r ∈ ranks pk peers up -> x ∈ unknowns (rk_up r) ->
               (-1e9 <= x)%Q /\ (x <= 1e8)%Q) /\
  pk' = pk /\
  (answer = false -> os_OK (vo_ pk) VERB_MEDIUM = true ->
   (exists mn mx,
       LogCellExtrema mn mx ∈ log /\
       reports Qle 1e15%Q (cell_view <$> ranks pk peers up) mn /\
       reports ge (-1e15)%Q (cell_view <$> ranks pk peers up) mx) /\
   (is_Some (cv_face up) ->
    exists mn mx,
      LogFaceExtrema mn mx ∈ log /\
      reports Qle 1e15%Q (face_view <$> ranks pk peers up) mn /\
      reports ge (-1e15)%Q (face_view <$> ranks pk peers up) mx)) /\
  (os_OK (vo_ pk) VERB_MEDIUM = false ->
   forall mn mx,
     (LogCellExtrema mn mx ∉ log) /\ (LogFaceExtrema mn mx ∉ log)).
Proof.
  cbv zeta. split; [apply IsAdmissible_false|]. split.
  { rewrite <- not_false_iff_true, IsAdmissible_false. unfold out_of_bounds.
    split.
    - intros Hn r x Hr Hx. split.
      + apply Qnot_lt_le. intros Hlt. apply Hn. exists r, x. auto.
      + apply Qnot_lt_le. intros Hlt. apply Hn. exists r, x. auto.
    - intros Hall (r & x & Hr & Hx & [Hb|Hb]);
        destruct (Hall r x Hr Hx) as [Hlo Hhi].
      + exact (Qlt_not_le _ _ Hb Hlo).
      + exact (Qlt_not_le _ _ Hb Hhi). }
  split.
  { unfold IsAdmissible. cbv zeta.
    destruct (dlt _ (-1e9)%Q || dgt _ 1e8%Q); reflexivity. }
  destruct (local_extrema_contributions (mesh_ pk) up)
    as (Emc & Exc & Emf & Exf).
  pose proof (peers_contributions local_minT_c cell_view dlt 1e15%Q peers
    (fun mesh pres => proj1 (local_extrema_contributions mesh pres))) as Pmc.
  pose proof (peers_contributions local_maxT_c cell_view dgt (-1e15)%Q peers
    (fun mesh pres =>
       proj1 (proj2 (local_extrema_contributions mesh pres)))) as Pxc.
  pose proof (peers_contributions local_minT_f face_view dlt 1e15%Q peers
    (fun mesh pres =>
       proj1 (proj2 (proj2 (local_extrema_contributions mesh pres)))))
    as Pmf.
  pose proof (peers_contributions local_maxT_f face_view dgt (-1e15)%Q peers
    (fun mesh pres =>
       proj2 (proj2 (proj2 (local_extrema_contributions mesh pres)))))
    as Pxf.
  unfold IsAdmissible. cbv zeta.
  change MPI_MINLOC with (pick_loc dlt). change MPI_MAXLOC with (pick_loc dgt).
  rewrite Emc, Exc, Emf, Exf, Pmc, Pxc, Pmf, Pxf.
  destruct (dlt _ (-1e9)%Q || dgt _ 1e8%Q); cbn [fst snd]; split.
  - intros _ Hvo. rewrite Hvo. split.
    + eexists _, _. split.
      * rewrite !elem_of_app. right. right. left.
        apply list_elem_of_further, list_elem_of_here.
      * split.
        -- apply (Allreduce_reports dlt Qle Qle_refl Qle_trans dlt_le
                    not_dlt_le Qle_antisym Qle_compat_l dlt_strict).
        -- apply (Allreduce_reports dgt ge ge_refl ge_trans dgt_ge
                    not_dgt_ge ge_antisym ge_compat_l dgt_strict).
    + intros [face Hface]. rewrite Hface. eexists _, _. split.
      * rewrite !elem_of_app. right. right. right. apply list_elem_of_here.
      * split.
        -- apply (Allreduce_reports dlt Qle Qle_refl Qle_trans dlt_le
                    not_dlt_le Qle_antisym Qle_compat_l dlt_strict).
        -- apply (Allreduce_reports dgt ge ge_refl ge_trans dgt_ge
                    not_dgt_ge ge_antisym ge_compat_l dgt_strict).
  - intros Hvo mn mx. rewrite Hvo.
    destruct (os_OK (vo_ pk) VERB_EXTREME), (os_OK (vo_ pk) VERB_HIGH);
      cbn; split; intros H;
      repeat (apply elem_of_cons in H as [H|H]; [discriminate|]);
      apply elem_of_nil in H; exact H.
  - intros [=].
  - intros Hvo mn mx.
    destruct (os_OK (vo_ pk) VERB_EXTREME), (os_OK (vo_ pk) VERB_HIGH);
      cbn; split; intros H;
      repeat (apply elem_of_cons in H as [H|H]; [discriminate|]);
      apply elem_of_nil in H; exact H.
Qed.

(** On the example, at level medium: the rejected iterate is reported
    with its worst cell, cell 1 at 2e8. *)
Example IsAdmissible_report :
  IsAdmissible (Richards_ctor example_mesh (example_state 5%Q) VERB_MEDIUM)
    [] (example_iterate 2e8%Q)
  = (false, Richards_ctor example_mesh (example_state 5%Q) VERB_MEDIUM,
     [LogNotAdmissible;
      LogCellExtrema (mkENorm 1%Q 0) (mkENorm 2e8%Q 1);
      LogFaceExtrema (mkENorm 0%Q 1) (mkENorm 7%Q 2)]).
Proof. vm_compute. reflexivity. Qed.

(** The loops for the least pressure start from 1e15: an iterate whose
    cell pressures all are above that value is rejected, and the value
    reported as the least cell pressure is the start value, at the id
    -1. *)
Example IsAdmissible_report_start_value :
  IsAdmissible (Richards_ctor example_mesh (example_state 5%Q) VERB_MEDIUM)
    [] {| cv_cell := mkComponent [2e15%Q; 3e15%Q] [];
          cv_face := None; cv_boundary_face := None |}
  = (false, Richards_ctor example_mesh (example_state 5%Q) VERB_MEDIUM,
     [LogNotAdmissible;
      LogCellExtrema (mkENorm 1e15%Q (-1)) (mkENorm 3e15%Q 1)]).
Proof. vm_compute. reflexivity. Qed.

End FlowTheory.

(** * The energy kernel: properties *)

Module EnergyTheory.
Import Energy Reductions.

Section Collaborators.

Variable evaluate : string -> State -> CompositeVector.
Variable evaluate_derivative : string -> string -> State -> CompositeVector.
Variable IsDependency : string -> string -> bool.
Variable compose_bcs :
  Config -> State -> gmap nat double -> gmap nat double -> nat ->
  list Matrix_bc * list double.
Variable stiffness_Acc : CompositeVector -> list double.

Abbreviation update_precon :=
  (update_precon evaluate evaluate_derivative IsDependency compose_bcs
                 stiffness_Acc).
Abbreviation AddSourcesToPrecon_ :=
  (AddSourcesToPrecon_ evaluate_derivative IsDependency).
Abbreviation precon_kernel := (precon_kernel compose_bcs).

(** ** The preconditioner update *)

Lemma dle_le x y : dle x y = true <-> (x <= y)%Q.
Proof. unfold dle. rewrite negb_true_iff. apply dlt_ge. Qed.

Lemma config_UpdateBoundaryConditions_ pk :
  config (UpdateBoundaryConditions_ compose_bcs pk) = config pk /\
  S_next_ (UpdateBoundaryConditions_ compose_bcs pk) = S_next_ pk /\
  mfd_preconditioner_ (UpdateBoundaryConditions_ compose_bcs pk)
    = mfd_preconditioner_ pk.
Proof.
  unfold UpdateBoundaryConditions_.
  destruct (compose_bcs _ _ _ _ _) as [markers values]. auto.
Qed.

Lemma precon_kernel_members up pk :
  config (precon_kernel up pk) = config pk /\
  S_next_ (precon_kernel up pk) = solution_to_state up (S_next_ pk) /\
  mfd_preconditioner_ (precon_kernel up pk) = mfd_preconditioner_ pk.
Proof.
  unfold precon_kernel.
  destruct (config_UpdateBoundaryConditions_
    (with_bc_functions
       (Compute (time (S_next_ pk)) (bc_temperature_ pk))
       (Compute (time (S_next_ pk)) (bc_flux_ pk))
       (with_S_next (solution_to_state up (S_next_ pk)) pk)))
    as (-> & -> & ->).
  auto.
Qed.

(** [update_precon] runs through when its assertion on the time holds,
    and is then the sequence of its blocks. *)
Lemma update_precon_blocks t up h pk :
  (Qabs (time (S_next_ pk) - t) <= 1e-4 * t)%Q ->
  let pk1 := precon_kernel up pk in
  let S := solution_to_state up (S_next_ pk) in
  let conductivity := evaluate (conductivity_key_ (config pk)) S in
  let de_dT :=
    cells (evaluate_derivative (energy_key_ (config pk))
                               (key_ (config pk)) S) in
  update_precon t up h pk =
  Ok (with_preconditioner
        (assemble pk1
           (mfd_call ApplyBoundaryConditions
              (with_Acc_cells
                 (AddSourcesToPrecon_ pk1 h
                    (update_diagonal pk1 de_dT h
                       (stiffness_Acc conductivity)))
                 (mfd_call CreateMFDrhsVectors
                    (mfd_call CreateMFDstiffnessMatrices
                       (with_Acc_cells (stiffness_Acc conductivity)
                          (mfd_preconditioner_ pk)))))))
        pk1).
Proof.
  intros Hassert. cbv zeta. unfold Energy.update_precon.
  apply dle_le in Hassert. unfold dabs. rewrite Hassert.
  cbn [ASSERT mbind result_bind].
  unfold precon_kernel, UpdateBoundaryConditions_.
  cbn [S_next_ config bc_temperature_ bc_flux_ bc_markers_
       mfd_preconditioner_ with_S_next with_bc_functions].
  destruct (compose_bcs _ _ _ _ _) as [markers values]. reflexivity.
Qed.

Lemma calls_with_Acc_cells acc m : calls (with_Acc_cells acc m) = calls m.
Proof. reflexivity. Qed.

Lemma calls_mfd_call c m : calls (mfd_call c m) = calls m ++ [c].
Proof. reflexivity. Qed.

Lemma Acc_cells_mfd_call c m : Acc_cells (mfd_call c m) = Acc_cells m.
Proof. reflexivity. Qed.

Lemma Acc_cells_assemble pk m : Acc_cells (assemble pk m) = Acc_cells m.
Proof.
  unfold assemble.
  destruct (coupled_to_subsurface pk), (assemble_preconditioner_ (config pk));
    reflexivity.
Qed.

Lemma coupled_precon_kernel up pk :
  coupled_to_subsurface (precon_kernel up pk) = coupled_to_subsurface pk.
Proof.
  unfold coupled_to_subsurface.
  destruct (precon_kernel_members up pk) as (-> & _). reflexivity.
Qed.

(** C3, amended.  When its assertion on the time holds,
    [update_precon] runs through and makes these calls on the
    preconditioner, in this order: the stiffness matrices, the
    right-hand sides, the boundary conditions, and then, when the kernel
    is coupled to the subsurface (by temperature or by flux), the global
    assembly alone; when it is not coupled and
    [assemble_preconditioner_] is set, the global assembly, the Schur
    complement and the update of the preconditioner; and nothing more
    when it is not coupled and the flag is not set. *)
Theorem preconditioner_assembly (t : double) (up : CompositeVector)
  (h : double) (pk : EnergyBase) :
  (Qabs (time (S_next_ pk) - t) <= 1e-4 * t)%Q ->
  exists pk',
    update_precon t up h pk = Ok pk' /\
    calls (mfd_preconditioner_ pk') =
    calls (mfd_preconditioner_ pk)
    ++ [CreateMFDstiffnessMatrices; CreateMFDrhsVectors;
        ApplyBoundaryConditions]
    ++ assembly_calls pk /\
    (coupled_to_subsurface pk = true ->
     assembly_calls pk = [AssembleGlobalMatrices]) /\
    (coupled_to_subsurface pk = false ->
     assemble_preconditioner_ (config pk) = true ->
     assembly_calls pk =
     [AssembleGlobalMatrices; ComputeSchurComplement;
      UpdatePreconditioner]) /\
    (coupled_to_subsurface pk = false ->
     assemble_preconditioner_ (config pk) = false ->
     assembly_calls pk = []).
Proof.
  intros Hassert. eexists.
  split; [apply update_precon_blocks; exact Hassert|].
  split.
  - cbn [mfd_preconditioner_ with_preconditioner].
    unfold assemble, assembly_calls. rewrite coupled_precon_kernel.
    destruct (precon_kernel_members up pk) as (-> & _).
    destruct (coupled_to_subsurface pk),
      (assemble_preconditioner_ (config pk));
      cbn [calls mfd_call with_Acc_cells]; rewrite <- ?app_assoc;
      reflexivity.
  - unfold assembly_calls. repeat split.
    + intros ->. reflexivity.
    + intros -> ->. reflexivity.
    + intros -> ->. reflexivity.
Qed.

(** ** The accumulation derivative on the diagonal *)

Lemma update_diagonal_lookup pk de_dT h Acc :
  let pres := GetFieldData (S_next_ pk) "surface_pressure" in
  let patm := GetScalarData (S_next_ pk) "atmospheric_pressure" in
  length (update_diagonal pk de_dT h Acc) = length Acc /\
  forall c,
    update_diagonal pk de_dT h Acc !! c =
    if decide (c < length de_dT) then
      (fun x =>
         (x + (if coupled_to_subsurface pk && dlt (vget pres c) patm
               then 0 else vget de_dT c / h))%Q) <$> (Acc !! c)
    else Acc !! c.
Proof.
  cbv zeta. unfold update_diagonal.
  destruct (coupled_to_subsurface pk); cbn [andb].
  - destruct (index_loop_lookup
      (fun c x =>
         (x + (if dge (vget (GetFieldData (S_next_ pk) "surface_pressure") c)
                      (GetScalarData (S_next_ pk) "atmospheric_pressure")
               then vget de_dT c / h else 0))%Q)
      (length de_dT) Acc) as [Hlen Hat].
    split; [exact Hlen|]. intros c. rewrite (Hat c).
    case_decide; [|reflexivity]. unfold dge.
    destruct (dlt _ _); reflexivity.
  - destruct (index_loop_lookup
      (fun c x => (x + vget de_dT c / h)%Q) (length de_dT) Acc)
      as [Hlen Hat].
    split; [exact Hlen|]. intros c. rewrite (Hat c). reflexivity.
Qed.

(** C4.  When its assertion on the time holds, [update_precon] runs
    through, and the cell diagonal it leaves is the diagonal [A1] below
    with the derivative of the source taken off by
    [AddSourcesToPrecon_] (which leaves [A1] as it is without a source
    that depends on the temperature).  [A1] is the diagonal [A0] of the
    stiffness matrices with, for every cell [c], the accumulation term
    added: nothing ([+ 0]) when the kernel is coupled to the subsurface
    (by temperature or by flux) and the surface pressure of the cell is
    strictly below the atmospheric pressure, and exactly [de_dT / h] in
    every other case, that is coupled with the surface pressure at or
    above the atmospheric one, or not coupled. *)
Theorem accumulation_derivative (t : double) (up : CompositeVector)
  (h : double) (pk : EnergyBase) :
  (Qabs (time (S_next_ pk) - t) <= 1e-4 * t)%Q ->
  let S := solution_to_state up (S_next_ pk) in
  let de_dT :=
    cells (evaluate_derivative (energy_key_ (config pk))
                               (key_ (config pk)) S) in
  let pres := GetFieldData S "surface_pressure" in
  let patm := GetScalarData S "atmospheric_pressure" in
  let A0 := stiffness_Acc (evaluate (conductivity_key_ (config pk)) S) in
  exists pk' A1,
    update_precon t up h pk = Ok pk' /\
    config pk' = config pk /\ S_next_ pk' = S /\
    Acc_cells (mfd_preconditioner_ pk') = AddSourcesToPrecon_ pk' h A1 /\
    (is_source_term_ (config pk) = false ->
     Acc_cells (mfd_preconditioner_ pk') = A1) /\
    length A1 = length A0 /\
    forall c, c < length de_dT -> c < length A0 ->
      (coupled_to_subsurface pk = true -> (vget pres c < patm)%Q ->
       A1 !! c = Some (vget A0 c + 0)%Q) /\
      (coupled_to_subsurface pk = true -> (patm <= vget pres c)%Q ->
       A1 !! c = Some (vget A0 c + vget de_dT c / h)%Q) /\
      (coupled_to_subsurface pk = false ->
       A1 !! c = Some (vget A0 c + vget de_dT c / h)%Q).
Proof.
  intros Hassert. cbv zeta.
  destruct (precon_kernel_members up pk) as (Hc & HS & Hm).
  set (pk1 := precon_kernel up pk) in *.
  set (S := solution_to_state up (S_next_ pk)) in *.
  set (de_dT := cells (evaluate_derivative (energy_key_ (config pk))
                                           (key_ (config pk)) S)).
  set (A0 := stiffness_Acc (evaluate (conductivity_key_ (config pk)) S)).
  exists (with_preconditioner
            (assemble pk1
               (mfd_call ApplyBoundaryConditions
                  (with_Acc_cells
                     (AddSourcesToPrecon_ pk1 h
                        (update_diagonal pk1 de_dT h A0))
                     (mfd_call CreateMFDrhsVectors
                        (mfd_call CreateMFDstiffnessMatrices
                           (with_Acc_cells A0
                              (mfd_preconditioner_ pk)))))))
            pk1),
         (update_diagonal pk1 de_dT h A0).
  split; [apply update_precon_blocks; exact Hassert|].
  split; [exact Hc|]. split; [exact HS|].
  cbn [mfd_preconditioner_ with_preconditioner].
  rewrite Acc_cells_assemble. cbn [Acc_cells mfd_call with_Acc_cells].
  split.
  { unfold Energy.AddSourcesToPrecon_. cbn [config S_next_ with_preconditioner].
    reflexivity. }
  split.
  { intros Hsrc. unfold Energy.AddSourcesToPrecon_.
    rewrite Hc, Hsrc. reflexivity. }
  destruct (update_diagonal_lookup pk1 de_dT h A0) as [Hlen Hat].
  split; [exact Hlen|].
  unfold pk1 in Hat. rewrite coupled_precon_kernel in Hat.
  fold pk1 in Hat. rewrite HS in Hat.
  intros c Hc1 Hc2. rewrite (Hat c).
  destruct (decide (c < length de_dT)) as [_|]; [|contradiction].
  destruct (lookup_lt_is_Some_2 A0 c Hc2) as [x Hx].
  assert (Hv : vget A0 c = x) by (unfold vget; rewrite Hx; reflexivity).
  rewrite Hv, Hx. cbn [fmap option_fmap option_map].
  repeat split.
  - intros -> Hlt. apply dlt_lt in Hlt. rewrite Hlt. reflexivity.
  - intros -> Hge. apply dlt_ge in Hge. rewrite Hge. reflexivity.
  - intros ->. reflexivity.
Qed.

End Collaborators.

(** ** The preconditioner update on the example *)

Abbreviation example_update_precon :=
  (update_precon example_evaluate example_evaluate_derivative
                 (fun _ _ => false) example_compose_bcs
                 example_stiffness_Acc).

Lemma example_assertion cfg niter :
  (Qabs (time (S_next_ (example_pk cfg niter)) - 10) <= 1e-4 * 10)%Q.
Proof. apply Qle_bool_iff. vm_compute. reflexivity. Defined.

(** C3, as stated, fails both ways.  A surface kernel coupled to the
    subsurface by temperature assembles the global matrices and stops
    there: it forms no Schur complement.  A kernel without coupling, with
    [assemble_preconditioner_] set, does the global assembly and the Schur
    complement. *)
Lemma preconditioner_assembly_counterexample :
  (coupled_to_subsurface
     (example_pk (example_config true false true VERB_NONE) 0) = true /\
   exists pk',
     example_update_precon 10%Q (example_vector 1 2 3 4 5) 2%Q
       (example_pk (example_config true false true VERB_NONE) 0) = Ok pk' /\
     calls (mfd_preconditioner_ pk') =
     [CreateMFDstiffnessMatrices; CreateMFDrhsVectors;
      ApplyBoundaryConditions; AssembleGlobalMatrices] /\
     ComputeSchurComplement ∉ calls (mfd_preconditioner_ pk')) /\
  (coupled_to_subsurface
     (example_pk (example_config false false true VERB_NONE) 0) = false /\
   exists pk',
     example_update_precon 10%Q (example_vector 1 2 3 4 5) 2%Q
       (example_pk (example_config false false true VERB_NONE) 0) = Ok pk' /\
     calls (mfd_preconditioner_ pk') =
     [CreateMFDstiffnessMatrices; CreateMFDrhsVectors;
      ApplyBoundaryConditions; AssembleGlobalMatrices;
      ComputeSchurComplement; UpdatePreconditioner]).
Proof.
  split.
  - split; [vm_compute; reflexivity|]. eexists.
    split; [vm_compute; reflexivity|].
    cbn [mfd_preconditioner_ calls].
    split; [reflexivity|].
    intros H.
    repeat (apply elem_of_cons in H as [H|H]; [discriminate H|]).
    apply elem_of_nil in H. exact H.
  - split; [vm_compute; reflexivity|]. eexists.
    split; [vm_compute; reflexivity|]. reflexivity.
Qed.

(** The coupled kernel of the example assembles and stops. *)
Lemma preconditioner_assembly_witness :
  (Qabs (time (S_next_
                 (example_pk (example_config true false true VERB_NONE) 0))
         - 10) <= 1e-4 * 10)%Q /\
  exists pk',
    example_update_precon 10%Q (example_vector 1 2 3 4 5) 2%Q
      (example_pk (example_config true false true VERB_NONE) 0) = Ok pk' /\
    calls (mfd_preconditioner_ pk') =
    [CreateMFDstiffnessMatrices; CreateMFDrhsVectors;
     ApplyBoundaryConditions; AssembleGlobalMatrices].
Proof.
  split; [apply example_assertion|].
  destruct (preconditioner_assembly example_evaluate
              example_evaluate_derivative (fun _ _ => false)
              example_compose_bcs example_stiffness_Acc
              10%Q (example_vector 1 2 3 4 5) 2%Q
              (example_pk (example_config true false true VERB_NONE) 0)
              (example_assertion _ _))
    as (pk' & Hrun & Hcalls & Hcoupled & _).
  exists pk'. split; [exact Hrun|].
  rewrite Hcalls, Hcoupled; reflexivity.
Defined.

(** On the coupled example with [h = 2]: cell 0 is ponded and receives
    [de_dT / h = 2 / 2], cell 1 is dry and receives nothing. *)
Lemma accumulation_derivative_witness :
  (Qabs (time (S_next_
                 (example_pk (example_config true false true VERB_NONE) 0))
         - 10) <= 1e-4 * 10)%Q /\
  exists pk',
    example_update_precon 10%Q (example_vector 1 2 3 4 5) 2%Q
      (example_pk (example_config true false true VERB_NONE) 0) = Ok pk' /\
    Acc_cells (mfd_preconditioner_ pk') !! 0 = Some (10 + 2 / 2)%Q /\
    Acc_cells (mfd_preconditioner_ pk') !! 1 = Some (10 + 0)%Q.
Proof.
  split; [apply example_assertion|].
  destruct (accumulation_derivative example_evaluate
              example_evaluate_derivative (fun _ _ => false)
              example_compose_bcs example_stiffness_Acc
              10%Q (example_vector 1 2 3 4 5) 2%Q
              (example_pk (example_config true false true VERB_NONE) 0)
              (example_assertion _ _))
    as (pk' & A1 & Hrun & _ & _ & _ & Hsrc & _ & Hat).
  exists pk'. split; [exact Hrun|].
  rewrite (Hsrc eq_refl). split.
  - destruct (Hat 0) as (_ & Hponded & _); [cbn; lia | cbn; lia |].
    rewrite Hponded; [reflexivity | reflexivity |].
    apply Qle_bool_iff. vm_compute. reflexivity.
  - destruct (Hat 1) as (Hdry & _); [cbn; lia | cbn; lia |].
    rewrite Hdry; [reflexivity | reflexivity |].
    apply Qlt_alt. vm_compute. reflexivity.
Defined.

(** ** The error norm *)

Section ErrorNorm.

Variable evaluate : string -> State -> CompositeVector.

Abbreviation enorm := (enorm evaluate).
Abbreviation enorm_cell_ratio := (enorm_cell_ratio evaluate).
Abbreviation enorm_cell_loop := (enorm_cell_loop evaluate).

(** The worst cell ratio of one process: above 0 and every cell ratio,
    and one of them unless it is 0. *)
Lemma enorm_cell_loop_spec pk du :
  let r := (enorm_cell_loop pk du).1 in
  (0 <= r)%Q /\
  (forall c, c < length (cells du) -> (enorm_cell_ratio pk du c <= r)%Q) /\
  (r = 0%Q \/
   exists c, c < length (cells du) /\ r = enorm_cell_ratio pk du c).
Proof.
  cbv zeta.
  change (enorm_cell_loop pk du)
    with (arg_loop dgt 0%Q (enorm_cell_ratio pk du) (length (cells du))).
  destruct (arg_loop_spec dgt ge ge_refl ge_trans dgt_ge not_dgt_ge
              0%Q (enorm_cell_ratio pk du) (length (cells du)))
    as (Hi & Hall & Hat).
  split; [exact Hi|]. split; [exact Hall|].
  destruct Hat as [->|(c & Hc & ->)]; [left; reflexivity|].
  right. exists c. split; [exact Hc | reflexivity].
Qed.

(** The same for the worst face ratio. *)
Lemma enorm_face_loop_spec pk du :
  let r := enorm_face_loop pk du in
  (0 <= r)%Q /\
  (forall f, f < length (faces du) -> (enorm_face_ratio pk du f <= r)%Q) /\
  (r = 0%Q \/
   exists f, f < length (faces du) /\ r = enorm_face_ratio pk du f).
Proof.
  cbv zeta. unfold enorm_face_loop.
  change (foldl (fun enorm_face f =>
                   std_max enorm_face (enorm_face_ratio pk du f)) 0%Q
                (seq 0 (length (faces du))))
    with (foldl (fun a f => pick dgt a (enorm_face_ratio pk du f)) 0%Q
                (seq 0 (length (faces du)))).
  rewrite <- (foldl_fmap (pick dgt) 0%Q (seq 0 (length (faces du)))
                (enorm_face_ratio pk du)).
  destruct (Allreduce_pick dgt ge ge_refl ge_trans dgt_ge not_dgt_ge 0%Q
              (enorm_face_ratio pk du <$> seq 0 (length (faces du))))
    as [Hall Hin].
  unfold Allreduce in *. split; [apply Hall, list_elem_of_here|]. split.
  - intros f Hf. apply Hall. apply list_elem_of_further.
    apply list_elem_of_fmap. exists f. split; [reflexivity|].
    apply elem_of_seq. lia.
  - apply elem_of_cons in Hin as [Hin|Hin]; [left; exact Hin|].
    apply list_elem_of_fmap in Hin as (f & Hf & Hin).
    apply elem_of_seq in Hin. right. exists f. split; [lia | exact Hf].
Qed.

(** The value returned is above the worst cell and face ratio of every
    process, and is one of them. *)
Lemma enorm_ranks pk peers u du :
  let r := enorm pk peers u du in
  let all := {| rk_pk := pk; rk_du := du |} :: peers in
  (forall rk, rk ∈ all ->
     ((enorm_cell_loop (rk_pk rk) (rk_du rk)).1 <= r)%Q /\
     (enorm_face_loop (rk_pk rk) (rk_du rk) <= r)%Q) /\
  (exists rk, rk ∈ all /\
     (r = (enorm_cell_loop (rk_pk rk) (rk_du rk)).1 \/
      r = enorm_face_loop (rk_pk rk) (rk_du rk))).
Proof.
  cbv zeta. unfold Energy.enorm.
  change MPI_MAX with (pick dgt). change std_max with (pick dgt).
  set (ec := fun rk => (enorm_cell_loop (rk_pk rk) (rk_du rk)).1).
  set (ef := fun rk => enorm_face_loop (rk_pk rk) (rk_du rk)).
  set (me := {| rk_pk := pk; rk_du := du |}).
  change ((enorm_cell_loop pk du).1) with (ec me).
  change (enorm_face_loop pk du) with (ef me).
  assert (Hle : forall a b, (a <= pick dgt a b)%Q /\ (b <= pick dgt a b)%Q)
    by (intros a b; apply (pick_le dgt ge ge_refl dgt_ge not_dgt_ge)).
  destruct (os_OK (vo_ (config pk)) VERB_MEDIUM).
  - destruct (Allreduce_pick dgt ge ge_refl ge_trans dgt_ge not_dgt_ge
                (ec me) (ec <$> peers)) as [Hc_all Hc_in].
    destruct (Allreduce_pick dgt ge ge_refl ge_trans dgt_ge not_dgt_ge
                (ef me) (ef <$> peers)) as [Hf_all Hf_in].
    set (ec_g := Allreduce (pick dgt) (ec me) (ec <$> peers)) in *.
    set (ef_g := Allreduce (pick dgt) (ef me) (ef <$> peers)) in *.
    destruct (Allreduce_pick dgt ge ge_refl ge_trans dgt_ge not_dgt_ge
                (pick dgt ef_g ec_g)
                ((fun _ : Rank => pick dgt ef_g ec_g) <$> peers))
      as [_ Hin].
    assert (Hr : Allreduce (pick dgt) (pick dgt ef_g ec_g)
                   ((fun _ : Rank => pick dgt ef_g ec_g) <$> peers)
                 = pick dgt ef_g ec_g).
    { apply elem_of_cons in Hin as [Hin|Hin]; [exact Hin|].
      apply list_elem_of_fmap in Hin as (rk & Hin & _). exact Hin. }
    rewrite Hr. change (ec me :: (ec <$> peers)) with (ec <$> (me :: peers))
      in *.
    change (ef me :: (ef <$> peers)) with (ef <$> (me :: peers)) in *.
    destruct (Hle ef_g ec_g) as [Hfg Hcg]. split.
    + intros rk Hrk. split.
      * apply Qle_trans with ec_g; [|exact Hcg].
        apply Hc_all. apply list_elem_of_fmap. eauto.
      * apply Qle_trans with ef_g; [|exact Hfg].
        apply Hf_all. apply list_elem_of_fmap. eauto.
    + destruct (pick_in dgt ef_g ec_g) as [->| ->].
      * apply list_elem_of_fmap in Hf_in as (rk & Heq & Hrk).
        exists rk. split; [exact Hrk | right; exact Heq].
      * apply list_elem_of_fmap in Hc_in as (rk & Heq & Hrk).
        exists rk. split; [exact Hrk | left; exact Heq].
  - set (v := fun rk => pick dgt (ef rk) (ec rk)).
    change (pick dgt (ef me) (ec me)) with (v me).
    change ((fun r : Rank =>
               pick dgt (enorm_face_loop (rk_pk r) (rk_du r))
                        (enorm_cell_loop (rk_pk r) (rk_du r)).1) <$> peers)
      with (v <$> peers).
    destruct (Allreduce_pick dgt ge ge_refl ge_trans dgt_ge not_dgt_ge
                (v me) (v <$> peers)) as [Hall Hin].
    change (v me :: (v <$> peers)) with (v <$> (me :: peers)) in *.
    split.
    + intros rk Hrk.
      assert (Hv : (v rk <= Allreduce (pick dgt) (v me) (v <$> peers))%Q)
        by (apply Hall, list_elem_of_fmap; eauto).
      destruct (Hle (ef rk) (ec rk)) as [Hf Hc].
      split; eapply Qle_trans; eauto.
    + apply list_elem_of_fmap in Hin as (rk & Heq & Hrk).
      exists rk. split; [exact Hrk|]. rewrite Heq. unfold v.
      destruct (pick_in dgt (ef rk) (ec rk)) as [->| ->]; auto.
Qed.

(** The ratios the loops compute, from the entries they read. *)
Lemma enorm_cell_ratio_entry pk du c x vol e :
  cells du !! c = Some x ->
  GetFieldData (S_next_ pk) (cell_vol_key_ (config pk)) !! c = Some vol ->
  cells (evaluate (energy_key_ (config pk)) (S_next_ pk)) !! c = Some e ->
  enorm_cell_ratio pk du c =
  (Qabs ((time (S_next_ pk) - time (S_inter_ pk)) * x)
   / (atol_ (config pk) * vol * 2e6 + rtol_ (config pk) * Qabs e))%Q.
Proof.
  intros Hx Hvol He. unfold Energy.enorm_cell_ratio, dabs, vget.
  rewrite Hx, Hvol, He. reflexivity.
Qed.

Lemma enorm_face_ratio_entry pk du f y :
  faces du !! f = Some y ->
  enorm_face_ratio pk du f =
  (1e-4 * Qabs y / (atol_ (config pk) + rtol_ (config pk) * 273.15))%Q.
Proof.
  intros Hy. unfold enorm_face_ratio, dabs, vget. rewrite Hy. reflexivity.
Qed.

(** C6.  The error norm returned to the time integrator is the maximum,
    over the cells of all processes, of the ratio
    [|h * res_c| / (atol * cv_c * 2e6 + rtol * |energy_c|)], where [h]
    is the time step between the two states, [res_c] the residual,
    [cv_c] the volume and [energy_c] the energy of the cell, and, over
    the faces of all processes, of the ratio
    [1e-4 * |res_f| / (atol + rtol * 273.15)]: it is at least every one
    of these ratios and it is one of them, the ratio of the worst cell
    or face (or the 0 the two loops start from, when no ratio is
    positive).  The ratios are those of processes on which they are
    defined: every cell has its volume and energy and no denominator is
    zero. *)
Theorem enorm_is_maximum (pk : EnergyBase) (peers : list Rank)
  (u du : CompositeVector) :
  (forall rk, rk ∈ {| rk_pk := pk; rk_du := du |} :: peers ->
              well_scaled evaluate (rk_pk rk) (rk_du rk)) ->
  let r := enorm pk peers u du in
  let all := {| rk_pk := pk; rk_du := du |} :: peers in
  (forall rk c x vol e, rk ∈ all ->
     cells (rk_du rk) !! c = Some x ->
     GetFieldData (S_next_ (rk_pk rk)) (cell_vol_key_ (config (rk_pk rk)))
       !! c = Some vol ->
     cells (evaluate (energy_key_ (config (rk_pk rk))) (S_next_ (rk_pk rk)))
       !! c = Some e ->
     (Qabs ((time (S_next_ (rk_pk rk)) - time (S_inter_ (rk_pk rk))) * x)
      / (atol_ (config (rk_pk rk)) * vol * 2e6
         + rtol_ (config (rk_pk rk)) * Qabs e) <= r)%Q) /\
  (forall rk f y, rk ∈ all ->
     faces (rk_du rk) !! f = Some y ->
     (1e-4 * Qabs y
      / (atol_ (config (rk_pk rk)) + rtol_ (config (rk_pk rk)) * 273.15)
      <= r)%Q) /\
  (0 <= r)%Q /\
  ((exists rk c x vol e, rk ∈ all /\
      cells (rk_du rk) !! c = Some x /\
      GetFieldData (S_next_ (rk_pk rk)) (cell_vol_key_ (config (rk_pk rk)))
        !! c = Some vol /\
      cells (evaluate (energy_key_ (config (rk_pk rk))) (S_next_ (rk_pk rk)))
        !! c = Some e /\
      r = (Qabs ((time (S_next_ (rk_pk rk)) - time (S_inter_ (rk_pk rk))) * x)
           / (atol_ (config (rk_pk rk)) * vol * 2e6
              + rtol_ (config (rk_pk rk)) * Qabs e))%Q) \/
   (exists rk f y, rk ∈ all /\
      faces (rk_du rk) !! f = Some y /\
      r = (1e-4 * Qabs y
           / (atol_ (config (rk_pk rk))
              + rtol_ (config (rk_pk rk)) * 273.15))%Q) \/
   r = 0%Q).
Proof.
  intros Hscaled. cbv zeta.
  destruct (enorm_ranks pk peers u du) as [Hall (rk0 & Hrk0 & Hr)].
  split; [|split; [|split]].
  - intros rk c x vol e Hrk Hx Hvol He.
    rewrite <- (enorm_cell_ratio_entry _ _ _ _ _ _ Hx Hvol He).
    destruct (enorm_cell_loop_spec (rk_pk rk) (rk_du rk)) as (_ & Hc_all & _).
    apply Qle_trans with ((enorm_cell_loop (rk_pk rk) (rk_du rk)).1).
    + apply Hc_all. eapply lookup_lt_Some, Hx.
    + apply Hall. exact Hrk.
  - intros rk f y Hrk Hy.
    rewrite <- (enorm_face_ratio_entry (rk_pk rk) _ _ _ Hy).
    destruct (enorm_face_loop_spec (rk_pk rk) (rk_du rk)) as (_ & Hf_all & _).
    apply Qle_trans with (enorm_face_loop (rk_pk rk) (rk_du rk)).
    + apply Hf_all. eapply lookup_lt_Some, Hy.
    + apply Hall. exact Hrk.
  - destruct (enorm_cell_loop_spec pk du) as (H0 & _).
    apply Qle_trans with ((enorm_cell_loop pk du).1); [exact H0|].
    apply (Hall {| rk_pk := pk; rk_du := du |}). apply list_elem_of_here.
  - destruct Hr as [Hr|Hr]; rewrite Hr.
    + destruct (enorm_cell_loop_spec (rk_pk rk0) (rk_du rk0))
        as (_ & _ & [H0|(c & Hc & Heq)]).
      * right. right. exact H0.
      * left. destruct (Hscaled rk0 Hrk0) as (_ & Hcells & _).
        destruct (Hcells c Hc) as (vol & e & Hvol & He & _).
        destruct (lookup_lt_is_Some_2 _ _ Hc) as [x Hx].
        exists rk0, c, x, vol, e.
        rewrite Heq, (enorm_cell_ratio_entry _ _ _ _ _ _ Hx Hvol He). auto 6.
    + destruct (enorm_face_loop_spec (rk_pk rk0) (rk_du rk0))
        as (_ & _ & [H0|(f & Hf & Heq)]).
      * right. right. exact H0.
      * right. left.
        destruct (lookup_lt_is_Some_2 _ _ Hf) as [y Hy].
        exists rk0, f, y.
        rewrite Heq, (enorm_face_ratio_entry (rk_pk rk0) _ _ _ Hy). auto.
Qed.

End ErrorNorm.

Lemma example_well_scaled :
  forall rk,
    rk ∈ [{| rk_pk :=
               example_pk (example_config false false true VERB_NONE) 0;
             rk_du := example_vector 137 412.5 1 2 0 |}] ->
    well_scaled example_evaluate (rk_pk rk) (rk_du rk).
Proof.
  intros rk Hrk. apply list_elem_of_singleton in Hrk as ->.
  split; [eexists; reflexivity|]. split.
  - intros c Hc. cbn in Hc.
    destruct c as [|[|c]]; [| |lia];
      (eexists _, _; split; [reflexivity|]; split; [reflexivity|]);
      intros H; vm_compute in H; discriminate H.
  - intros H. vm_compute in H. discriminate H.
Defined.

(** On the example, with [h = 2], cell 1 has the residual 412.5, the
    volume 1 and the energy 550: the norm is at least its ratio
    825 / 2000550. *)
Lemma enorm_is_maximum_witness :
  (forall rk,
     rk ∈ [{| rk_pk :=
                example_pk (example_config false false true VERB_NONE) 0;
              rk_du := example_vector 137 412.5 1 2 0 |}] ->
     well_scaled example_evaluate (rk_pk rk) (rk_du rk)) /\
  (Qabs ((10 - 8) * 412.5) / (1 * 1 * 2e6 + 1 * Qabs 550)
   <= enorm example_evaluate
        (example_pk (example_config false false true VERB_NONE) 0) []
        (example_vector 274 275 274 274.5 275)
        (example_vector 137 412.5 1 2 0))%Q.
Proof.
  split; [exact example_well_scaled|].
  destruct (enorm_is_maximum example_evaluate
              (example_pk (example_config false false true VERB_NONE) 0) []
              (example_vector 274 275 274 274.5 275)
              (example_vector 137 412.5 1 2 0) example_well_scaled)
    as (Hcells & _).
  apply (Hcells
           {| rk_pk := example_pk (example_config false false true VERB_NONE) 0;
              rk_du := example_vector 137 412.5 1 2 0 |} 1 412.5%Q 1%Q 550%Q).
  - apply list_elem_of_here.
  - reflexivity.
  - reflexivity.
  - vm_compute. reflexivity.
Defined.

(** On the example, with [h = 2], the residual has the cell ratios
    274 / 2000548 and 825 / 2000550 and smaller face ratios: the norm is
    the ratio of cell 1, below the sum of the two cell ratios. *)
Example enorm_is_not_the_sum :
  enorm example_evaluate
    (example_pk (example_config false false true VERB_NONE) 0) []
    (example_vector 274 275 274 274.5 275)
    (example_vector 137 412.5 1 2 0)
  = enorm_cell_ratio example_evaluate
      (example_pk (example_config false false true VERB_NONE) 0)
      (example_vector 137 412.5 1 2 0) 1 /\
  (enorm_cell_ratio example_evaluate
     (example_pk (example_config false false true VERB_NONE) 0)
     (example_vector 137 412.5 1 2 0) 1 == 825 / 2000550)%Q /\
  (enorm_cell_ratio example_evaluate
     (example_pk (example_config false false true VERB_NONE) 0)
     (example_vector 137 412.5 1 2 0) 0 == 274 / 2000548)%Q /\
  (enorm example_evaluate
     (example_pk (example_config false false true VERB_NONE) 0) []
     (example_vector 274 275 274 274.5 275)
     (example_vector 137 412.5 1 2 0)
   < 274 / 2000548 + 825 / 2000550)%Q.
Proof.
  split; [vm_compute; reflexivity|].
  split; [vm_compute; reflexivity|].
  split; vm_compute; reflexivity.
Qed.

(** ** The residual *)

Lemma GetFieldData_set_field key v S :
  GetFieldData (set_field key v S) key = v.
Proof.
  unfold GetFieldData, set_field; simpl. rewrite lookup_insert_eq.
  reflexivity.
Qed.

Lemma State_eq (S1 S2 : State) :
  time S1 = time S2 -> temperature S1 = temperature S2 ->
  fields S1 = fields S2 -> scalars S1 = scalars S2 -> S1 = S2.
Proof. destruct S1, S2; simpl. intros -> -> -> ->. reflexivity. Qed.

(** Once the fields that [fun] writes are written, two states that were
    the same up to these fields are the same. *)
Lemma overwrite_same_state cfg S1 S2 K F :
  same_state cfg S1 S2 ->
  match update_flux_ cfg with
  | UPDATE_FLUX_ITERATION =>
    set_field (energy_flux_key_ cfg) F
      (set_field (uw_conductivity_key_ cfg) K S1)
    = set_field (energy_flux_key_ cfg) F
        (set_field (uw_conductivity_key_ cfg) K S2)
  | _ => set_field (uw_conductivity_key_ cfg) K S1
         = set_field (uw_conductivity_key_ cfg) K S2
  end.
Proof.
  intros (Ht & HT & Hs & Hf). unfold overwritten in Hf.
  destruct (update_flux_ cfg) eqn:Hu;
    apply State_eq; simpl; try assumption; apply map_eq; intros key.
  - destruct (decide (energy_flux_key_ cfg = key)) as [<-|Hne];
      [rewrite !lookup_insert_eq; reflexivity|].
    rewrite !(lookup_insert_ne _ (energy_flux_key_ cfg)) by exact Hne.
    destruct (decide (uw_conductivity_key_ cfg = key)) as [<-|Hne'];
      [rewrite !lookup_insert_eq; reflexivity|].
    rewrite !lookup_insert_ne by exact Hne'.
    apply Hf. intros [->|[_ ->]]; congruence.
  - destruct (decide (uw_conductivity_key_ cfg = key)) as [<-|Hne'];
      [rewrite !lookup_insert_eq; reflexivity|].
    rewrite !lookup_insert_ne by exact Hne'.
    apply Hf. intros [->|[? _]]; congruence.
  - destruct (decide (uw_conductivity_key_ cfg = key)) as [<-|Hne'];
      [rewrite !lookup_insert_eq; reflexivity|].
    rewrite !lookup_insert_ne by exact Hne'.
    apply Hf. intros [->|[? _]]; congruence.
  - destruct (decide (uw_conductivity_key_ cfg = key)) as [<-|Hne'];
      [rewrite !lookup_insert_eq; reflexivity|].
    rewrite !lookup_insert_ne by exact Hne'.
    apply Hf. intros [->|[? _]]; congruence.
Qed.

(** A state with the fields that [fun] writes written is the same, up to
    these fields, as it was. *)
Lemma same_state_overwritten cfg S K F :
  same_state cfg
    match update_flux_ cfg with
    | UPDATE_FLUX_ITERATION =>
      set_field (energy_flux_key_ cfg) F
        (set_field (uw_conductivity_key_ cfg) K S)
    | _ => set_field (uw_conductivity_key_ cfg) K S
    end S.
Proof.
  unfold same_state, overwritten.
  destruct (update_flux_ cfg) eqn:Hu; simpl;
    (split; [reflexivity|]; split; [reflexivity|];
     split; [reflexivity|]); intros key Hkey;
    rewrite ?lookup_insert_ne; try reflexivity;
    intros <-; apply Hkey; auto.
Qed.

Lemma PutScalar_idem x v : PutScalar x (PutScalar x v) = PutScalar x v.
Proof.
  assert (Hl : forall l : list double,
    (fun _ => x) <$> ((fun _ => x) <$> l) = (fun _ => x) <$> l).
  { intros l. induction l as [|y l IH]; simpl; [reflexivity|].
    f_equal. exact IH. }
  assert (Hc : forall c,
    PutScalar_component x (PutScalar_component x c) = PutScalar_component x c).
  { intros c. unfold PutScalar_component; simpl. rewrite !Hl. reflexivity. }
  unfold PutScalar; simpl. rewrite Hc.
  destruct (cv_face v), (cv_boundary_face v); simpl; rewrite ?Hc; reflexivity.
Qed.

(** The field handed to the advection operator has the layout of the
    field the kernel held. *)
Lemma layout_with_cells l v :
  layout (with_cells l (PutScalar 0%Q v)) = layout v.
Proof.
  unfold layout.
  change (with_cells [] (PutScalar 0%Q (with_cells l (PutScalar 0%Q v))))
    with (with_cells [] (PutScalar 0%Q (PutScalar 0%Q v))).
  rewrite PutScalar_idem. reflexivity.
Qed.

Section Residual.

Variable evaluate : string -> State -> CompositeVector.
Variable compose_bcs :
  Config -> State -> gmap nat double -> gmap nat double -> nat ->
  list Matrix_bc * list double.
Variable upwind_conductivity : Config -> State -> list double.
Variable UpdateFlux : list double -> CompositeVector -> list double.
Variable ComputeNegativeResidual :
  list double -> list Matrix_bc -> list double ->
  CompositeVector -> CompositeVector -> CompositeVector.
Variable ApplyDirichletBCsToEnthalpy_ :
  Config -> State -> gmap nat double -> list Matrix_bc -> list double ->
  CompositeVector -> CompositeVector.
Variable Advection_Apply :
  list double -> gmap nat double -> CompositeVector -> CompositeVector.

(** Modelled from the spec: what the collaborators that are not among
    the sources read and keep.  The composer of the boundary conditions
    and the upwinding of the conductivity, which [fun] calls before it
    writes the upwinded conductivity and the energy flux, do not read
    these two fields; the composer fills arrays of the size it is given;
    the operators on the advected field work in place, they keep the
    layout of the field. *)
Hypothesis compose_bcs_reads : forall cfg S1 S2 T F n,
  same_state cfg S1 S2 -> compose_bcs cfg S1 T F n = compose_bcs cfg S2 T F n.
Hypothesis compose_bcs_size : forall cfg S T F n,
  length (compose_bcs cfg S T F n).1 = n.
Hypothesis upwind_conductivity_reads : forall cfg S1 S2,
  same_state cfg S1 S2 ->
  upwind_conductivity cfg S1 = upwind_conductivity cfg S2.
Hypothesis enthalpy_bcs_layout : forall cfg S T markers values field,
  layout (ApplyDirichletBCsToEnthalpy_ cfg S T markers values field)
  = layout field.
Hypothesis advection_layout : forall flux F field,
  layout (Advection_Apply flux F field) = layout field.

Abbreviation fun_ :=
  (fun_ evaluate compose_bcs upwind_conductivity UpdateFlux
        ComputeNegativeResidual ApplyDirichletBCsToEnthalpy_
        Advection_Apply).
Abbreviation fun_kernel := (fun_kernel compose_bcs).
Abbreviation ApplyDiffusion_ :=
  (ApplyDiffusion_ upwind_conductivity UpdateFlux ComputeNegativeResidual).
Abbreviation AddAccumulation_ := (AddAccumulation_ evaluate).
Abbreviation AddAdvection_ :=
  (AddAdvection_ evaluate ApplyDirichletBCsToEnthalpy_ Advection_Apply).
Abbreviation AddSources_ := (AddSources_ evaluate).

Lemma fun_blocks t_old t_new u_old u_new g pk :
  fun_ t_old t_new u_old u_new g pk =
  let d := ApplyDiffusion_ (fun_kernel t_new u_new pk) (PutScalar 0.0%Q g) in
  let a := AddAdvection_ d.1 (AddAccumulation_ d.1 d.2) true in
  (a.1, AddSources_ a.1 a.2).
Proof.
  unfold Energy.fun_, Energy.fun_kernel. cbv zeta.
  cbn [niter_ S_next_ bc_temperature_ bc_flux_ with_niter with_S_next].
  destruct (Energy.ApplyDiffusion_ _ _ _ _ _) as [pk1 res1]. cbn [fst snd].
  destruct (Energy.AddAdvection_ _ _ _ _ _ _) as [pk2 res2]. reflexivity.
Qed.

Lemma fun_kernel_agree t_new u_new g1 g2 pk1 pk2 :
  same_inputs t_new u_new g1 g2 pk1 pk2 ->
  agree_reads (fun_kernel t_new u_new pk1) (fun_kernel t_new u_new pk2).
Proof.
  intros (Hc & HS & Hi & HT & HF & Hn & Hg & Ha).
  unfold Energy.fun_kernel, UpdateBoundaryConditions_.
  cbn [config S_next_ bc_temperature_ bc_flux_ bc_markers_ with_niter
       with_S_next with_bc_functions Compute bf_values].
  rewrite (compose_bcs_reads _ _ _ _ _ _ HS), Hc, HT, HF, Hn.
  destruct (compose_bcs _ _ _ _ _) as [markers values].
  unfold agree_reads.
  cbn [config S_next_ S_inter_ bc_temperature_ bc_flux_ bc_markers_
       bc_values_ advection_field_ with_niter with_S_next
       with_bc_functions with_bcs Compute bf_values].
  rewrite <- Hc. split; [reflexivity|]. split; [exact HS|].
  repeat split; assumption || reflexivity.
Qed.

(** The state the diffusion block leaves. *)
Lemma S_next_ApplyDiffusion_ pk g :
  S_next_ (ApplyDiffusion_ pk g).1 =
  match update_flux_ (config pk) with
  | UPDATE_FLUX_ITERATION =>
    set_field (energy_flux_key_ (config pk))
      (UpdateFlux (upwind_conductivity (config pk) (S_next_ pk))
                  (temperature (S_next_ pk)))
      (set_field (uw_conductivity_key_ (config pk))
         (upwind_conductivity (config pk) (S_next_ pk)) (S_next_ pk))
  | _ => set_field (uw_conductivity_key_ (config pk))
           (upwind_conductivity (config pk) (S_next_ pk)) (S_next_ pk)
  end.
Proof.
  unfold Energy.ApplyDiffusion_, UpdateConductivityData_. cbv zeta.
  cbn [config S_next_ with_S_next].
  rewrite GetFieldData_set_field.
  destruct (update_flux_ (config pk)); reflexivity.
Qed.

(** The residual of the diffusion block. *)
Lemma ApplyDiffusion_residual pk g :
  (ApplyDiffusion_ pk g).2 =
  ComputeNegativeResidual (upwind_conductivity (config pk) (S_next_ pk))
    (bc_markers_ pk) (bc_values_ pk) (temperature (S_next_ pk)) g.
Proof.
  unfold Energy.ApplyDiffusion_, UpdateConductivityData_. cbv zeta.
  cbn [config S_next_ with_S_next snd].
  rewrite GetFieldData_set_field.
  destruct (update_flux_ (config pk)); reflexivity.
Qed.

(** What the diffusion block keeps. *)
Lemma ApplyDiffusion_keeps pk g :
  let pk' := (ApplyDiffusion_ pk g).1 in
  config pk' = config pk /\ S_inter_ pk' = S_inter_ pk /\
  niter_ pk' = niter_ pk /\
  bc_temperature_ pk' = bc_temperature_ pk /\ bc_flux_ pk' = bc_flux_ pk /\
  bc_markers_ pk' = bc_markers_ pk /\ bc_values_ pk' = bc_values_ pk /\
  advection_field_ pk' = advection_field_ pk.
Proof.
  unfold Energy.ApplyDiffusion_. cbv zeta. cbn [config with_S_next].
  destruct (update_flux_ (config pk)); repeat split.
Qed.

Lemma ApplyDiffusion_agree pk1 pk2 g :
  agree_reads pk1 pk2 ->
  agree (ApplyDiffusion_ pk1 g).1 (ApplyDiffusion_ pk2 g).1 /\
  (ApplyDiffusion_ pk1 g).2 = (ApplyDiffusion_ pk2 g).2.
Proof.
  intros (Hc & HS & Hi & HT & HF & Hm & Hv & Ha).
  pose proof HS as (_ & Htemp & _).
  split.
  - destruct (ApplyDiffusion_keeps pk1 g)
      as (C1 & I1 & _ & T1 & F1 & M1 & V1 & A1).
    destruct (ApplyDiffusion_keeps pk2 g)
      as (C2 & I2 & _ & T2 & F2 & M2 & V2 & A2).
    unfold agree.
    rewrite C1, C2, I1, I2, T1, T2, F1, F2, M1, M2, V1, V2, A1, A2.
    rewrite !S_next_ApplyDiffusion_.
    rewrite <- Hc, <- Htemp, <- (upwind_conductivity_reads _ _ _ HS).
    pose proof (overwrite_same_state (config pk1) _ _
                  (upwind_conductivity (config pk1) (S_next_ pk1))
                  (UpdateFlux (upwind_conductivity (config pk1) (S_next_ pk1))
                              (temperature (S_next_ pk1))) HS) as Hover.
    repeat split; try assumption.
    destruct (update_flux_ (config pk1)); exact Hover.
  - rewrite !ApplyDiffusion_residual.
    rewrite <- Hc, <- Htemp, <- (upwind_conductivity_reads _ _ _ HS), Hm, Hv.
    reflexivity.
Qed.

Lemma AddAccumulation_agree pk1 pk2 g :
  agree pk1 pk2 -> AddAccumulation_ pk1 g = AddAccumulation_ pk2 g.
Proof.
  intros (Hc & HS & Hi & _). unfold Energy.AddAccumulation_.
  rewrite Hc, HS, Hi. reflexivity.
Qed.

Lemma AddAdvection_agree pk1 pk2 g negate :
  agree pk1 pk2 ->
  agree (AddAdvection_ pk1 g negate).1 (AddAdvection_ pk2 g negate).1 /\
  (AddAdvection_ pk1 g negate).2 = (AddAdvection_ pk2 g negate).2.
Proof.
  intros (Hc & HS & Hi & HT & HF & Hm & Hv & Ha).
  unfold Energy.AddAdvection_. cbv zeta. cbn [fst snd].
  change (with_cells ?l (PutScalar 0%Q (advection_field_ pk1)))
    with (with_cells l (layout (advection_field_ pk1))).
  change (with_cells ?l (PutScalar 0%Q (advection_field_ pk2)))
    with (with_cells l (layout (advection_field_ pk2))).
  rewrite Hc, HS, HT, HF, Hm, Hv, Ha. split; [|reflexivity].
  unfold agree.
  cbn [config S_next_ S_inter_ bc_temperature_ bc_flux_ bc_markers_
       bc_values_ advection_field_ with_advection_field].
  repeat split; assumption || reflexivity.
Qed.

Lemma AddSources_agree pk1 pk2 g :
  agree pk1 pk2 -> AddSources_ pk1 g = AddSources_ pk2 g.
Proof.
  intros (Hc & HS & _). unfold Energy.AddSources_. rewrite Hc, HS. reflexivity.
Qed.

(** What the advection block keeps. *)
Lemma AddAdvection_keeps pk g negate :
  let pk' := (AddAdvection_ pk g negate).1 in
  config pk' = config pk /\ S_next_ pk' = S_next_ pk /\
  S_inter_ pk' = S_inter_ pk /\ niter_ pk' = niter_ pk /\
  bc_temperature_ pk' = bc_temperature_ pk /\ bc_flux_ pk' = bc_flux_ pk /\
  bc_markers_ pk' = bc_markers_ pk /\ bc_values_ pk' = bc_values_ pk /\
  layout (advection_field_ pk') = layout (advection_field_ pk).
Proof.
  unfold Energy.AddAdvection_. cbv zeta.
  cbn [fst config S_next_ S_inter_ niter_ bc_temperature_ bc_flux_
       bc_markers_ bc_values_ advection_field_ with_advection_field].
  repeat split.
  rewrite advection_layout, enthalpy_bcs_layout. apply layout_with_cells.
Qed.

(** What the kernel of the blocks holds. *)
Lemma fun_kernel_members t_new u_new pk :
  let k := fun_kernel t_new u_new pk in
  config k = config pk /\
  S_next_ k = solution_to_state u_new (S_next_ pk) /\
  S_inter_ k = S_inter_ pk /\ niter_ k = S (niter_ pk) /\
  bc_temperature_ k = Compute t_new (bc_temperature_ pk) /\
  bc_flux_ k = Compute t_new (bc_flux_ pk) /\
  bc_markers_ k =
    (compose_bcs (config pk) (solution_to_state u_new (S_next_ pk))
       (bf_func (bc_temperature_ pk) t_new) (bf_func (bc_flux_ pk) t_new)
       (length (bc_markers_ pk))).1 /\
  bc_values_ k =
    (compose_bcs (config pk) (solution_to_state u_new (S_next_ pk))
       (bf_func (bc_temperature_ pk) t_new) (bf_func (bc_flux_ pk) t_new)
       (length (bc_markers_ pk))).2 /\
  advection_field_ k = advection_field_ pk.
Proof.
  unfold Energy.fun_kernel, UpdateBoundaryConditions_. cbv zeta.
  cbn [config S_next_ bc_temperature_ bc_flux_ bc_markers_ with_niter
       with_S_next with_bc_functions Compute bf_values].
  destruct (compose_bcs _ _ _ _ _) as [markers values]. repeat split.
Qed.

(** The kernel a call leaves and the kernel it was called on have the
    same inputs for the next call. *)
Lemma fun_same_inputs t_old t_new u_old u_new g g' pk :
  PutScalar 0.0%Q g' = PutScalar 0.0%Q g ->
  same_inputs t_new u_new g' g (fun_ t_old t_new u_old u_new g pk).1 pk.
Proof.
  intros Hg. rewrite fun_blocks. cbv zeta. cbn [fst].
  set (k := fun_kernel t_new u_new pk).
  set (d := ApplyDiffusion_ k (PutScalar 0.0%Q g)).
  destruct (fun_kernel_members t_new u_new pk)
    as (Ck & Sk & Ik & _ & Tk & Fk & Mk & _ & Ak).
  fold k in Ck, Sk, Ik, Tk, Fk, Mk, Ak.
  destruct (ApplyDiffusion_keeps k (PutScalar 0.0%Q g))
    as (Cd & Id & _ & Td & Fd & Md & _ & Ad). fold d in Cd, Id, Td, Fd, Md, Ad.
  pose proof (S_next_ApplyDiffusion_ k (PutScalar 0.0%Q g)) as Sd.
  fold d in Sd.
  destruct (AddAdvection_keeps d.1 (AddAccumulation_ d.1 d.2) true)
    as (Ca & Sa & Ia & _ & Ta & Fa & Ma & _ & Aa).
  unfold same_inputs.
  rewrite Ca, Sa, Ia, Ta, Fa, Ma, Aa, Cd, Id, Td, Fd, Md, Ad, Ck, Ik, Tk,
    Fk, Mk, Ak.
  split; [reflexivity|]. split.
  { rewrite Sd, Ck, Sk.
    pose proof (same_state_overwritten (config pk)
                  (solution_to_state u_new (S_next_ pk))
                  (upwind_conductivity (config pk)
                     (solution_to_state u_new (S_next_ pk)))
                  (UpdateFlux
                     (upwind_conductivity (config pk)
                        (solution_to_state u_new (S_next_ pk)))
                     (temperature (solution_to_state u_new (S_next_ pk)))))
      as (H1 & _ & H3 & H4).
    destruct (update_flux_ (config pk)); (split; [exact H1|]);
      (split; [reflexivity|]); (split; [exact H3 | exact H4]). }
  split; [reflexivity|]. split; [reflexivity|]. split; [reflexivity|].
  split; [apply compose_bcs_size|]. split; [exact Hg | reflexivity].
Qed.

(** The cells of the residual after the three blocks that follow the
    diffusion. *)
Lemma AddAccumulation_lookup pk g c x :
  cells g !! c = Some x ->
  cells (AddAccumulation_ pk g) !! c =
  Some (1.0 * x
        + (1.0 / (time (S_next_ pk) - time (S_inter_ pk)))
          * vget (cells (evaluate (energy_key_ (config pk)) (S_next_ pk))) c
        + (-1.0 / (time (S_next_ pk) - time (S_inter_ pk)))
          * vget (cells (evaluate (energy_key_ (config pk)) (S_inter_ pk)))
                 c)%Q.
Proof.
  intros Hx. unfold Energy.AddAccumulation_. cbv zeta.
  change (cells (with_cells ?l g)) with l.
  rewrite list_lookup_imap, Hx. reflexivity.
Qed.

Lemma AddAdvection_lookup pk g c x :
  cells g !! c = Some x ->
  cells (AddAdvection_ pk g true).2 !! c =
  Some (x - vget (cells (advection_field_ (AddAdvection_ pk g true).1)) c)%Q.
Proof.
  intros Hx. unfold Energy.AddAdvection_. cbv zeta.
  cbn [fst snd advection_field_ with_advection_field].
  match goal with
  | |- context [Advection_Apply ?a ?b ?f] =>
    set (field_c := cells (Advection_Apply a b f))
  end.
  change (cells (with_cells ?l g)) with l.
  destruct (index_loop_lookup (fun c x => (x - vget field_c c)%Q)
              (length (cells g)) (cells g)) as [_ Hat].
  rewrite (Hat c), Hx.
  case_decide as Hc; [reflexivity|].
  exfalso. apply Hc. eapply lookup_lt_Some, Hx.
Qed.

Lemma AddSources_lookup pk g c x :
  cells g !! c = Some x ->
  cells (AddSources_ pk g) !! c =
  Some (if is_source_term_ (config pk)
        then (x - vget (cells (evaluate (source_key_ (config pk))
                                        (S_next_ pk))) c)%Q
        else x).
Proof.
  intros Hx. unfold Energy.AddSources_.
  destruct (is_source_term_ (config pk)); [|exact Hx]. cbv zeta.
  change (cells (with_cells ?l g)) with l.
  match goal with
  | |- context [vget ?l _] =>
    match l with
    | cells (evaluate _ _) => set (source1 := l)
    end
  end.
  destruct (index_loop_lookup (fun c x => (x - vget source1 c)%Q)
              (length (cells g)) (cells g)) as [_ Hat].
  rewrite (Hat c), Hx.
  case_decide as Hc; [reflexivity|].
  exfalso. apply Hc. eapply lookup_lt_Some, Hx.
Qed.


End Residual.

(** ** The residual on the example *)

Abbreviation example_fun :=
  (fun_ example_evaluate example_compose_bcs example_conductivity
        example_flux example_residual example_enthalpy_bcs
        example_advection).

Lemma example_same_inputs :
  same_inputs 10%Q (example_vector 274 275 274 274.5 275)
    (example_vector 0 0 0 0 0) (example_vector 4 4 4 4 4)
    (example_pk (example_config false false true VERB_NONE) 0)
    (example_pk_later (example_config false false true VERB_NONE)).
Proof.
  unfold same_inputs.
  split; [reflexivity|]. split.
  { split; [reflexivity|]. split; [reflexivity|]. split; [reflexivity|].
    intros key Hkey.
    change (fields (example_state 10%Q) !! key
            = <["energy_flux":=[9%Q; 9%Q; 9%Q]]>
                (<["upwind_thermal_conductivity":=[2%Q; 2%Q; 2%Q]]>
                   (fields (example_state 10%Q))) !! key).
    rewrite lookup_insert_ne
      by (intros <-; apply Hkey; right; split; reflexivity).
    rewrite lookup_insert_ne by (intros <-; apply Hkey; left; reflexivity).
    reflexivity. }
  split; [reflexivity|]. split; [reflexivity|]. split; [reflexivity|].
  split; [reflexivity|]. split; reflexivity.
Defined.

Lemma example_compose_bcs_reads :
  forall cfg S1 S2 T F n,
    same_state cfg S1 S2 ->
    example_compose_bcs cfg S1 T F n = example_compose_bcs cfg S2 T F n.
Proof. reflexivity. Defined.

Lemma example_conductivity_reads :
  forall cfg S1 S2,
    same_state cfg S1 S2 ->
    example_conductivity cfg S1 = example_conductivity cfg S2.
Proof.
  intros cfg S1 S2 (_ & HT & _). unfold example_conductivity.
  rewrite HT. reflexivity.
Defined.


End EnergyTheory.

(** * Further properties of the flow kernel *)

Module ComposerTheory.
Import Flow Reductions FlowTheory Composer.

(** ** What the composer keeps *)

Lemma shape_set_bc f m v pk : shape (set_bc f m v pk) = shape pk.
Proof. unfold shape, set_bc; simpl. rewrite !length_insert. reflexivity. Qed.

Lemma shape_foldl {A} (step : Richards -> A -> Richards) (l : list A) :
  (forall acc a, shape (step acc a) = shape acc) ->
  forall pk, shape (foldl step pk l) = shape pk.
Proof.
  intros Hstep. induction l as [|a l IH]; intros pk; simpl.
  - reflexivity.
  - rewrite IH. apply Hstep.
Qed.

Lemma shape_map_fold (step : nat -> double -> Richards -> Richards)
  (m : gmap nat double) pk :
  (forall k v acc, shape (step k v acc) = shape acc) ->
  shape (map_fold step pk m) = shape pk.
Proof.
  intros Hstep.
  apply (map_fold_weak_ind (fun r _ => shape r = shape pk)).
  - reflexivity.
  - intros k v m' r _ IH. rewrite Hstep. exact IH.
Qed.

Lemma seepage_bcs_keeps pk r :
  seepage_bcs pk = Ok r -> env r = env pk /\ shape r = shape pk.
Proof.
  unfold seepage_bcs. revert r.
  apply (map_fold_weak_ind (fun (res : result Richards) _ =>
           forall r, res = Ok r -> env r = env pk /\ shape r = shape pk)).
  - intros r [= <-]. split; reflexivity.
  - intros f v m' res _ IH r H.
    apply bind_Ok in H as (cur & -> & H).
    apply bind_Ok in H as (p & _ & H).
    destruct (IH cur eq_refl) as [E S].
    destruct (dlt p v); injection H as <-;
      rewrite env_set_bc, shape_set_bc; split; assumption.
Qed.

Lemma flux_bcs_keeps kr pk r :
  flux_bcs kr pk = Ok r -> env r = env pk /\ shape r = shape pk.
Proof.
  intros H.
  destruct (has_temperature_dec pk) as [Ht|Ht].
  - rewrite (flux_bcs_Ok kr pk Ht) in H. injection H as <-.
    split; [apply env_flux_loop|].
    apply shape_map_fold. intros; apply shape_set_bc.
  - rewrite (flux_bcs_Err kr pk Ht) in H. discriminate.
Qed.

Lemma UpdateBoundaryConditions_keeps kr pk pk' :
  UpdateBoundaryConditions_ kr pk = Ok pk' ->
  env pk' = env pk /\ shape pk' = shape pk.
Proof.
  unfold UpdateBoundaryConditions_. intros H.
  apply bind_Ok in H as (p3 & H3 & H).
  apply bind_Ok in H as (p4 & H4 & H). injection H as <-.
  apply flux_bcs_keeps in H3 as [E3 S3].
  apply seepage_bcs_keeps in H4 as [E4 S4].
  split.
  - rewrite env_remaining_bcs, env_surface_flux_bcs, env_surface_head_bcs,
      E4, E3, env_dirichlet_bcs, env_init_bcs. reflexivity.
  - assert (S1 : forall p, shape (init_bcs p) = shape p).
    { intros p. apply shape_foldl. intros; apply shape_set_bc. }
    assert (S2 : forall p, shape (dirichlet_bcs p) = shape p).
    { intros p. apply shape_map_fold. intros; apply shape_set_bc. }
    assert (S5 : forall p, shape (surface_head_bcs p) = shape p).
    { intros p. unfold surface_head_bcs.
      destruct (coupled_to_surface_via_head_ p); [|reflexivity].
      apply shape_foldl. intros; apply shape_set_bc. }
    assert (S6 : forall p, shape (surface_flux_bcs kr p) = shape p).
    { intros p. unfold surface_flux_bcs.
      destruct (coupled_to_surface_via_flux_ p); [|reflexivity].
      apply shape_foldl. intros; apply shape_set_bc. }
    assert (S7 : forall p, shape (remaining_bcs p) = shape p).
    { intros p. unfold remaining_bcs. apply shape_foldl.
      intros acc f. repeat case_decide; try reflexivity.
      apply shape_set_bc. }
    rewrite S7, S6, S5, S4, S3, S2, S1. reflexivity.
Qed.

(** X1.  A pass of the composer that runs through changes nothing of the
    kernel but the contents of the two boundary arrays: the mesh, the
    state, the boundary functions, the flags and the iteration count are
    the ones it had, and both arrays keep their sizes. *)
Theorem UpdateBoundaryConditions_keeps_members (kr : bool)
  (pk pk' : Richards) :
  UpdateBoundaryConditions_ kr pk = Ok pk' ->
  env pk' = env pk /\
  length (bc_markers_ pk') = length (bc_markers_ pk) /\
  length (bc_values_ pk') = length (bc_values_ pk).
Proof.
  intros H. apply UpdateBoundaryConditions_keeps in H as [E S].
  split; [exact E|]. unfold shape in S. injection S as S1 S2. auto.
Qed.

(** On the example the arrays keep their five entries. *)
Lemma UpdateBoundaryConditions_keeps_members_witness :
  exists pk',
    UpdateBoundaryConditions_ true (example_pk 5%Q false false false)
      = Ok pk' /\
    env pk' = env (example_pk 5%Q false false false) /\
    length (bc_markers_ pk') = 5 /\ length (bc_values_ pk') = 5.
Proof.
  eexists. split; [vm_compute; reflexivity|].
  apply (UpdateBoundaryConditions_keeps_members true
           (example_pk 5%Q false false false)).
  vm_compute. reflexivity.
Defined.

(** ** Failure of the composer *)

Lemma can_compose_dec pk : {can_compose pk} + {~ can_compose pk}.
Proof.
  unfold can_compose.
  destruct (has_temperature_dec pk) as [Ht|Ht]; [|right; tauto].
  destruct (has_boundary_values_dec (pressure (S_next_ pk))) as [Hv|Hv];
    [left; tauto|].
  destruct (decide (bc_seepage_ pk = ∅)) as [He|He]; [left; tauto|].
  right. tauto.
Qed.

(** The exception of a pass whose look-ups are not served: the one of
    the temperature, which is asked for first, or else the one of the
    boundary pressures. *)
Lemma UpdateBoundaryConditions_Err kr pk :
  ~ can_compose pk ->
  (~ has_temperature pk /\
   UpdateBoundaryConditions_ kr pk = Err (MissingField "temperature")) \/
  (has_temperature pk /\
   UpdateBoundaryConditions_ kr pk =
   Err (Exception ("No component is defined for boundary faces" ++ LF))).
Proof.
  intros Hn. unfold UpdateBoundaryConditions_.
  set (p2 := dirichlet_bcs (init_bcs pk)).
  assert (E2 : env p2 = env pk).
  { unfold p2. rewrite env_dirichlet_bcs, env_init_bcs. reflexivity. }
  assert (Ht2 : has_temperature p2 <-> has_temperature pk).
  { destruct (rules_env _ _ E2) as (_&_&_&_&_&_&_&HS&_).
    unfold has_temperature. rewrite HS.
    destruct pk, p2. unfold env in E2. simpl in *.
    injection E2 as -> -> -> -> -> -> -> -> -> -> ->. reflexivity. }
  destruct (has_temperature_dec pk) as [Ht|Ht].
  - right. split; [exact Ht|].
    rewrite (flux_bcs_Ok kr p2) by (apply Ht2; exact Ht). simpl.
    set (p3 := flux_loop kr p2).
    assert (E3 : env p3 = env pk).
    { unfold p3. rewrite env_flux_loop. exact E2. }
    destruct (rules_env _ _ E3) as (_&_&_&_&_&_&_&HS&Hsp).
    rewrite seepage_bcs_Err; [reflexivity | |].
    + rewrite HS. intros Hv. apply Hn. split; [exact Ht | left; exact Hv].
    + rewrite Hsp. intros He. apply Hn. split; [exact Ht | right; exact He].
  - left. split; [exact Ht|].
    rewrite (flux_bcs_Err kr p2) by (rewrite Ht2; exact Ht). reflexivity.
Qed.

(** A pass that fails was not served. *)
Lemma UpdateBoundaryConditions_fails_aux kr pk :
  (exists e, UpdateBoundaryConditions_ kr pk = Err e) -> ~ can_compose pk.
Proof.
  intros [e He] Hcan.
  destruct (UpdateBoundaryConditions_composed kr pk Hcan) as (pk' & Hok & _).
  congruence.
Qed.

(** X4.  The composer fails exactly when one of its two unguarded
    look-ups is not served: the fluxes are to be shut off on frozen
    faces and the state holds no temperature field, or there are seepage
    faces and the pressure field has neither a "face" nor a
    "boundary_face" component to read their pressures from.  In every
    other case it runs through. *)
Theorem UpdateBoundaryConditions_fails_iff (kr : bool) (pk : Richards) :
  (exists e, UpdateBoundaryConditions_ kr pk = Err e) <->
  (infiltrate_only_if_unfrozen_ pk = true /\
   temperature (S_next_ pk) = None) \/
  (bc_seepage_ pk <> ∅ /\ ~ has_boundary_values (pressure (S_next_ pk))).
Proof.
  split.
  - intros H. apply UpdateBoundaryConditions_fails_aux in H.
    destruct (infiltrate_only_if_unfrozen_ pk) eqn:Hinf.
    + destruct (temperature (S_next_ pk)) as [temp|] eqn:Htemp; [|auto].
      right. split.
      * intros He. apply H. split; [|right; exact He].
        intros _. rewrite Htemp. eauto.
      * intros Hv. apply H. split; [|left; exact Hv].
        intros _. rewrite Htemp. eauto.
    + right. split.
      * intros He. apply H. split; [|right; exact He].
        unfold has_temperature. rewrite Hinf. discriminate.
      * intros Hv. apply H. split; [|left; exact Hv].
        unfold has_temperature. rewrite Hinf. discriminate.
  - intros H.
    assert (Hn : ~ can_compose pk).
    { intros [Ht Hrun]. destruct H as [[Hinf Htemp]|[Hne Hv]].
      - destruct (Ht Hinf) as [temp Hsome]. congruence.
      - destruct Hrun; contradiction. }
    destruct (UpdateBoundaryConditions_Err kr pk Hn) as [[_ He]|[_ He]];
      eauto.
Qed.

(** ** Stale entries *)

Lemma Richards_eq (a b : Richards) :
  env a = env b -> bc_markers_ a = bc_markers_ b ->
  bc_values_ a = bc_values_ b -> a = b.
Proof.
  destruct a, b. unfold env; simpl. intros [=] -> ->; subst. reflexivity.
Qed.

Lemma bc_at_ext (a b : Richards) :
  length (bc_markers_ a) = length (bc_values_ a) ->
  length (bc_markers_ b) = length (bc_values_ b) ->
  (forall f, bc_at a f = bc_at b f) ->
  bc_markers_ a = bc_markers_ b /\ bc_values_ a = bc_values_ b.
Proof.
  intros La Lb H.
  assert (Hboth : forall f,
    bc_markers_ a !! f = bc_markers_ b !! f /\
    bc_values_ a !! f = bc_values_ b !! f).
  { intros f. specialize (H f). unfold bc_at in H.
    destruct (bc_markers_ a !! f) as [ma|] eqn:Hma;
      destruct (bc_values_ a !! f) as [va|] eqn:Hva;
      destruct (bc_markers_ b !! f) as [mb|] eqn:Hmb;
      destruct (bc_values_ b !! f) as [vb|] eqn:Hvb;
      try (injection H as -> ->); try discriminate; try (split; reflexivity);
      exfalso;
      repeat match goal with
      | H : _ !! _ = Some _ |- _ => apply lookup_lt_Some in H
      | H : _ !! _ = None |- _ => apply lookup_ge_None in H
      end; lia. }
  split; apply list_eq; intros f; apply Hboth.
Qed.

Lemma composed_bc_env kr a b f :
  env a = env b -> composed_bc kr a f = composed_bc kr b f.
Proof.
  intros E. destruct (rules_env _ _ E) as (R1&R2&R3&R4&R5&_&M&_).
  unfold composed_bc, explicit_bc, default_bc.
  rewrite R1, R2, R3, R4, R5, M. reflexivity.
Qed.

Lemma has_temperature_env a b :
  env a = env b -> has_temperature a -> has_temperature b.
Proof.
  destruct a, b. unfold env, has_temperature; simpl.
  intros [=]; subst. tauto.
Qed.

(** Two passes that run through, on kernels that agree on what the
    composer reads and on the sizes of their arrays, give the same
    kernel. *)
Lemma composed_results_eq kr pk1 pk2 r1 r2 :
  env pk1 = env pk2 ->
  length (bc_markers_ pk1) = length (bc_values_ pk1) ->
  length (bc_markers_ pk2) = length (bc_markers_ pk1) ->
  length (bc_values_ pk2) = length (bc_values_ pk1) ->
  UpdateBoundaryConditions_ kr pk1 = Ok r1 ->
  UpdateBoundaryConditions_ kr pk2 = Ok r2 ->
  r1 = r2.
Proof.
  intros E L1 Lm Lv H1 H2.
  assert (Hrun : can_compose pk1).
  { destruct (can_compose_dec pk1) as [Hc|Hc]; [exact Hc|].
    destruct (UpdateBoundaryConditions_Err kr pk1 Hc) as [[_ He]|[_ He]];
      congruence. }
  destruct (UpdateBoundaryConditions_composed kr pk1 Hrun)
    as (r1' & H1' & E1 & A1).
  destruct (UpdateBoundaryConditions_composed kr pk2
              (can_compose_env _ _ E Hrun))
    as (r2' & H2' & E2 & A2).
  assert (r1' = r1) by congruence. assert (r2' = r2) by congruence. subst.
  apply UpdateBoundaryConditions_keeps in H1 as [_ S1].
  apply UpdateBoundaryConditions_keeps in H2 as [_ S2].
  unfold shape in S1, S2. injection S1 as S1m S1v. injection S2 as S2m S2v.
  destruct (bc_at_ext r1 r2) as [Hm Hvs]; [lia | lia | |].
  - intros f. rewrite A1, A2, (composed_bc_env kr pk1 pk2 f E).
    unfold bc_at.
    destruct (bc_markers_ pk1 !! f) as [m1|] eqn:Hm1;
      destruct (bc_values_ pk1 !! f) as [v1|] eqn:Hv1;
      destruct (bc_markers_ pk2 !! f) as [m2|] eqn:Hm2;
      destruct (bc_values_ pk2 !! f) as [v2|] eqn:Hv2;
      try reflexivity; exfalso;
      repeat match goal with
      | H : _ !! _ = Some _ |- _ => apply lookup_lt_Some in H
      | H : _ !! _ = None |- _ => apply lookup_ge_None in H
      end; lia.
  - apply Richards_eq; [congruence | exact Hm | exact Hvs].
Qed.

(** Two passes that fail, on kernels that agree on what the composer
    reads, raise the same exception. *)
Lemma failed_results_eq kr pk1 pk2 :
  env pk1 = env pk2 -> ~ can_compose pk1 ->
  UpdateBoundaryConditions_ kr pk1 = UpdateBoundaryConditions_ kr pk2.
Proof.
  intros E Hn1.
  assert (Hn2 : ~ can_compose pk2).
  { intros Hc. apply Hn1. exact (can_compose_env _ _ (eq_sym E) Hc). }
  destruct (UpdateBoundaryConditions_Err kr pk1 Hn1) as [[Ht1 ->]|[Ht1 ->]];
    destruct (UpdateBoundaryConditions_Err kr pk2 Hn2) as [[Ht2 ->]|[Ht2 ->]];
    try reflexivity; exfalso.
  - apply Ht1. exact (has_temperature_env _ _ (eq_sym E) Ht2).
  - apply Ht2. exact (has_temperature_env _ _ E Ht1).
Qed.

(** X2.  The result of the composer does not depend on what the two
    arrays held before: two kernels that agree on the members the
    composer reads, with arrays of the same sizes (markers and values of
    equal length, as the setup leaves them), get the same result, be it
    the same arrays or the same exception. *)
Theorem UpdateBoundaryConditions_ignores_stale_entries (kr : bool)
  (pk1 pk2 : Richards) :
  env pk1 = env pk2 ->
  length (bc_markers_ pk1) = length (bc_values_ pk1) ->
  length (bc_markers_ pk2) = length (bc_markers_ pk1) ->
  length (bc_values_ pk2) = length (bc_values_ pk1) ->
  UpdateBoundaryConditions_ kr pk1 = UpdateBoundaryConditions_ kr pk2.
Proof.
  intros E L1 Lm Lv.
  destruct (can_compose_dec pk1) as [Hc|Hc];
    [|apply failed_results_eq; assumption].
  destruct (UpdateBoundaryConditions_composed kr pk1 Hc) as (r1 & H1 & _).
  destruct (UpdateBoundaryConditions_composed kr pk2
              (can_compose_env _ _ E Hc)) as (r2 & H2 & _).
  rewrite H1, H2. f_equal.
  apply (composed_results_eq kr pk1 pk2); assumption.
Qed.

(** The arrays of the example with other stale entries give the same
    result. *)
Lemma UpdateBoundaryConditions_ignores_stale_entries_witness :
  UpdateBoundaryConditions_ true (example_pk 5%Q false false false)
  = UpdateBoundaryConditions_ true example_stale_pk.
Proof.
  apply UpdateBoundaryConditions_ignores_stale_entries;
    vm_compute; reflexivity.
Defined.

(** X3.  The composer is idempotent: run again on the kernel it returned,
    it returns that kernel unchanged. *)
Theorem UpdateBoundaryConditions_idempotent (kr : bool) (pk pk' : Richards) :
  length (bc_markers_ pk) = length (bc_values_ pk) ->
  UpdateBoundaryConditions_ kr pk = Ok pk' ->
  UpdateBoundaryConditions_ kr pk' = Ok pk'.
Proof.
  intros L H.
  destruct (UpdateBoundaryConditions_keeps _ _ _ H) as [E S].
  unfold shape in S. injection S as Sm Sv.
  destruct (UpdateBoundaryConditions_ kr pk') as [r|e] eqn:H'.
  - f_equal. symmetry.
    apply (composed_results_eq kr pk pk'); auto.
  - exfalso.
    rewrite <- (failed_results_eq kr pk' pk) in H; [congruence|exact E|].
    apply (UpdateBoundaryConditions_fails_aux kr). eauto.
Qed.

(** On the example a second pass changes nothing. *)
Lemma UpdateBoundaryConditions_idempotent_witness :
  UpdateBoundaryConditions_ false example_composed_pk
  = Ok example_composed_pk.
Proof.
  apply (UpdateBoundaryConditions_idempotent false
           (example_pk 5%Q false false false));
    vm_compute; reflexivity.
Defined.

(** ** The flag [kr] *)

Lemma composed_bc_kr pk f :
  (composed_bc true pk f).1 = (composed_bc false pk f).1 /\
  ((composed_bc true pk f).1 <> OPERATOR_BC_NEUMANN ->
   composed_bc true pk f = composed_bc false pk f).
Proof.
  unfold composed_bc, explicit_bc, surface_flux_rule, surface_head_rule,
    seepage_rule, flux_rule, pressure_rule, default_bc.
  repeat match goal with
  | |- context [if ?b then _ else _] => destruct b
  | |- context [_ <$> ?o] => destruct o; simpl
  end; split; try reflexivity; intros Hm; try reflexivity;
    exfalso; apply Hm; reflexivity.
Qed.

(** X5.  The flag [kr] of the composer, which says whether the relative
    permeability is part of the flux, changes values of Neumann faces
    only: with and without it every face gets the same kind of
    condition, and a face that is not Neumann (Dirichlet or unmarked)
    gets the same value. *)
Theorem UpdateBoundaryConditions_kinds (pk r1 r2 : Richards) :
  UpdateBoundaryConditions_ true pk = Ok r1 ->
  UpdateBoundaryConditions_ false pk = Ok r2 ->
  forall f m v,
    bc_at r1 f = Some (m, v) ->
    exists v', bc_at r2 f = Some (m, v') /\
               (m <> OPERATOR_BC_NEUMANN -> v' = v).
Proof.
  intros H1 H2 f m v Hf.
  assert (Hrun : can_compose pk).
  { destruct (can_compose_dec pk) as [Hc|Hc]; [exact Hc|].
    destruct (UpdateBoundaryConditions_Err true pk Hc) as [[_ He]|[_ He]];
      congruence. }
  destruct (UpdateBoundaryConditions_composed true pk Hrun)
    as (r1' & H1' & _ & A1).
  destruct (UpdateBoundaryConditions_composed false pk Hrun)
    as (r2' & H2' & _ & A2).
  assert (r1' = r1) by congruence. assert (r2' = r2) by congruence. subst.
  rewrite A1 in Hf. rewrite A2.
  destruct (bc_at pk f) as [old|]; [|discriminate].
  simpl in Hf. injection Hf as Hf. simpl.
  destruct (composed_bc_kr pk f) as [Hk Hv].
  destruct (composed_bc false pk f) as [m' v'] eqn:Hc.
  rewrite Hf in Hk, Hv. simpl in Hk. subst m'.
  exists v'. split; [reflexivity|].
  intros Hm. specialize (Hv Hm). congruence.
Qed.

(** On the example face 1 is Neumann with the flux 4, or 4 / 0.5 once
    divided by the relative permeability, and face 0 is Dirichlet at 0
    either way. *)
Lemma UpdateBoundaryConditions_kinds_witness :
  exists r1 r2,
    UpdateBoundaryConditions_ true (example_pk 5%Q false false false)
      = Ok r1 /\
    UpdateBoundaryConditions_ false (example_pk 5%Q false false false)
      = Ok r2 /\
    bc_at r1 0 = Some (OPERATOR_BC_DIRICHLET, 0%Q) /\
    exists v', bc_at r2 0 = Some (OPERATOR_BC_DIRICHLET, v') /\
               (OPERATOR_BC_DIRICHLET <> OPERATOR_BC_NEUMANN -> v' = 0%Q).
Proof.
  eexists. eexists.
  split; [vm_compute; reflexivity|].
  split; [vm_compute; reflexivity|].
  split; [vm_compute; reflexivity|].
  eapply (UpdateBoundaryConditions_kinds
            (example_pk 5%Q false false false));
    vm_compute; reflexivity.
Defined.

End ComposerTheory.

Module SetupTheory.
Import Flow Reductions FlowTheory Composer.

Lemma length_resize {A} n (x : A) v : length (resize n x v) = n.
Proof.
  unfold resize. rewrite length_app, length_take, length_replicate. lia.
Qed.

Lemma lookup_resize {A} n (x : A) v f :
  f < n -> resize n x v !! f = Some (default x (v !! f)).
Proof.
  intros Hlt. unfold resize.
  destruct (decide (f < length v)) as [Hf|Hf].
  - rewrite lookup_app_l by (rewrite length_take; lia).
    rewrite lookup_take_lt by lia.
    destruct (lookup_lt_is_Some_2 v f Hf) as [y ->]. reflexivity.
  - rewrite lookup_app_r by (rewrite length_take; lia).
    rewrite length_take, lookup_replicate_2 by lia.
    rewrite (proj2 (lookup_ge_None v f)) by lia. reflexivity.
Qed.

Lemma setup_boundary_conditions_arrays plist fac pk pk1 :
  setup_boundary_conditions plist fac pk = Ok pk1 ->
  mesh_ pk1 = mesh_ pk /\
  bc_markers_ pk1 =
    resize (num_faces_used (mesh_ pk)) OPERATOR_BC_NONE (bc_markers_ pk) /\
  bc_values_ pk1 = resize (num_faces_used (mesh_ pk)) 0%Q (bc_values_ pk) /\
  is_Some (pl_sublists plist !! "boundary conditions").
Proof.
  unfold setup_boundary_conditions. intros H. invert_binds H.
  injection H as <-. simpl. repeat split.
  unfold sublist_must_exist in Ha3.
  destruct (pl_sublists plist !! "boundary conditions"); [eauto|discriminate].
Qed.

Lemma setup_coupling_arrays plist uf pk pk' :
  setup_coupling plist uf pk = Ok pk' ->
  mesh_ pk' = mesh_ pk /\ bc_markers_ pk' = bc_markers_ pk /\
  bc_values_ pk' = bc_values_ pk /\
  update_flux_ pk' =
    if coupled_to_surface_via_head_ pk' then UPDATE_FLUX_ITERATION else uf.
Proof.
  unfold setup_coupling. intros H. invert_binds H.
  injection H as <-. simpl. repeat split.
Qed.

(** X6.  After a setup that passes, the two boundary arrays have one
    entry for every face the process uses, owned or ghost: an entry the
    arrays already had is kept, a new one is unmarked with the value
    0. *)
Theorem SetupRichardsFlow_arrays (plist : ParameterList)
  (fac : FlowBCFactory) (pk pk' : Richards) :
  SetupRichardsFlow_ plist fac pk = Ok pk' ->
  mesh_ pk' = mesh_ pk /\
  length (bc_markers_ pk') = num_faces_used (mesh_ pk) /\
  length (bc_values_ pk') = num_faces_used (mesh_ pk) /\
  forall f, f < num_faces_used (mesh_ pk) ->
    bc_at pk' f =
    Some (default OPERATOR_BC_NONE (bc_markers_ pk !! f),
          default 0%Q (bc_values_ pk !! f)).
Proof.
  intros H. unfold SetupRichardsFlow_ in H. invert_binds H.
  injection H as ->.
  apply setup_boundary_conditions_arrays in Ha as (M1 & Hm & Hv & _).
  apply setup_coupling_arrays in Ha1 as (M2 & Hm2 & Hv2 & _).
  rewrite M2, M1. split; [reflexivity|].
  rewrite Hm2, Hv2, Hm, Hv, !length_resize.
  split; [reflexivity|]. split; [reflexivity|].
  intros f Hf. unfold bc_at. rewrite Hm2, Hv2, Hm, Hv.
  rewrite !lookup_resize by assumption. reflexivity.
Qed.

(** Set up from the constructor, the example has five unmarked
    entries. *)
Lemma SetupRichardsFlow_arrays_witness :
  exists pk',
    SetupRichardsFlow_ (example_plist true false) example_factory
      (Richards_ctor example_mesh (example_state 5%Q) VERB_NONE) = Ok pk' /\
    length (bc_markers_ pk') = 5 /\ length (bc_values_ pk') = 5 /\
    bc_at pk' 4 = Some (OPERATOR_BC_NONE, 0%Q).
Proof.
  eexists. split; [vm_compute; reflexivity|].
  destruct (SetupRichardsFlow_arrays (example_plist true false)
              example_factory
              (Richards_ctor example_mesh (example_state 5%Q) VERB_NONE)
              _ eq_refl) as (_ & Hm & Hv & Hat).
  split; [exact Hm|]. split; [exact Hv|].
  apply (Hat 4). vm_compute. lia.
Defined.

Lemma setup_update_flux_Ok plist uf :
  setup_update_flux plist = Ok uf ->
  exists s,
    get_string (pl_entries plist) "update flux mode" "iteration" = Ok s /\
    ((s = "iteration" /\ uf = UPDATE_FLUX_ITERATION) \/
     (s = "timestep" /\ uf = UPDATE_FLUX_TIMESTEP) \/
     (s = "vis" /\ uf = UPDATE_FLUX_VIS) \/
     (s = "never" /\ uf = UPDATE_FLUX_NEVER)).
Proof.
  unfold setup_update_flux. intros H. invert_binds H.
  exists a. split; [assumption|].
  repeat match type of H with
  | (if String.eqb ?x ?y then _ else _) = _ =>
    destruct (String.eqb_spec x y) as [->|]
  end; try discriminate; injection H as <-; auto.
Qed.

Lemma setup_upwinding_Ok plist :
  setup_upwinding plist = Ok tt ->
  exists s,
    get_string (pl_entries plist) "relative permeability method"
               "upwind with gravity" = Ok s /\
    (s = "upwind with gravity" \/ s = "cell centered" \/
     s = "upwind with Darcy flux" \/ s = "arithmetic mean").
Proof.
  unfold setup_upwinding. intros H. invert_binds H.
  exists a. split; [assumption|].
  repeat match type of H with
  | (if String.eqb ?x ?y then _ else _) = _ =>
    destruct (String.eqb_spec x y) as [->|]
  end; try discriminate; auto.
Qed.

(** X7.  After a setup that passes, the fluxes are updated at the
    frequency the entry "update flux mode" names ("iteration" when it is
    absent), unless the kernel is coupled to the surface by head: then
    they are updated at every iteration, whatever the entry says. *)
Theorem SetupRichardsFlow_update_flux (plist : ParameterList)
  (fac : FlowBCFactory) (pk pk' : Richards) :
  SetupRichardsFlow_ plist fac pk = Ok pk' ->
  exists s,
    get_string (pl_entries plist) "update flux mode" "iteration" = Ok s /\
    update_flux_ pk' =
    if coupled_to_surface_via_head_ pk' then UPDATE_FLUX_ITERATION
    else if String.eqb s "iteration" then UPDATE_FLUX_ITERATION
    else if String.eqb s "timestep" then UPDATE_FLUX_TIMESTEP
    else if String.eqb s "vis" then UPDATE_FLUX_VIS
    else UPDATE_FLUX_NEVER.
Proof.
  intros H. unfold SetupRichardsFlow_ in H. invert_binds H.
  injection H as ->.
  apply setup_update_flux_Ok in Ha0 as (s & Hs & Hcases).
  apply setup_coupling_arrays in Ha1 as (_ & _ & _ & Hu).
  exists s. split; [exact Hs|]. rewrite Hu.
  destruct (coupled_to_surface_via_head_ pk'); [reflexivity|].
  destruct Hcases as [[-> ->]|[[-> ->]|[[-> ->]|[-> ->]]]]; reflexivity.
Qed.

(** Coupled by head, the example updates its fluxes at every iteration
    though its parameter list asks for "timestep". *)
Lemma SetupRichardsFlow_update_flux_witness :
  exists pk',
    SetupRichardsFlow_ example_head_plist example_factory
      (Richards_ctor example_mesh (example_state 5%Q) VERB_NONE) = Ok pk' /\
    get_string (pl_entries example_head_plist) "update flux mode" "iteration"
      = Ok "timestep"%string /\
    coupled_to_surface_via_head_ pk' = true /\
    update_flux_ pk' = UPDATE_FLUX_ITERATION.
Proof.
  eexists. split; [vm_compute; reflexivity|].
  destruct (SetupRichardsFlow_update_flux example_head_plist
              example_factory
              (Richards_ctor example_mesh (example_state 5%Q) VERB_NONE)
              _ eq_refl) as (s & Hs & Hu).
  split; [vm_compute; reflexivity|]. split; [reflexivity|]. exact Hu.
Defined.

(** X8.  A setup passes only with a parameter list that has a "boundary
    conditions" sublist, an "update flux mode" among "iteration",
    "timestep", "vis" and "never", and a "relative permeability method"
    among "upwind with gravity", "cell centered", "upwind with Darcy
    flux" and "arithmetic mean" (each entry may be absent, its default is
    a known name): any other name is an error. *)
Theorem SetupRichardsFlow_validates (plist : ParameterList)
  (fac : FlowBCFactory) (pk pk' : Richards) :
  SetupRichardsFlow_ plist fac pk = Ok pk' ->
  is_Some (pl_sublists plist !! "boundary conditions") /\
  (exists s,
     get_string (pl_entries plist) "update flux mode" "iteration" = Ok s /\
     s ∈ ["iteration"; "timestep"; "vis"; "never"]) /\
  (exists s,
     get_string (pl_entries plist) "relative permeability method"
                "upwind with gravity" = Ok s /\
     s ∈ ["upwind with gravity"; "cell centered"; "upwind with Darcy flux";
          "arithmetic mean"]).
Proof.
  intros H. unfold SetupRichardsFlow_ in H. invert_binds H.
  apply setup_boundary_conditions_arrays in Ha as (_ & _ & _ & Hbc).
  apply setup_update_flux_Ok in Ha0 as (s & Hs & Hcases).
  destruct a3. apply setup_upwinding_Ok in Ha3 as (s' & Hs' & Hcases').
  split; [exact Hbc|]. split.
  - exists s. split; [exact Hs|].
    destruct Hcases as [[-> _]|[[-> _]|[[-> _]|[-> _]]]];
      repeat first [apply list_elem_of_here | apply list_elem_of_further].
  - exists s'. split; [exact Hs'|].
    destruct Hcases' as [->|[->|[->| ->]]];
      repeat first [apply list_elem_of_here | apply list_elem_of_further].
Qed.

Lemma SetupRichardsFlow_validates_witness :
  is_Some (pl_sublists (example_plist true false) !! "boundary conditions").
Proof.
  apply (SetupRichardsFlow_validates (example_plist true false)
           example_factory
           (Richards_ctor example_mesh (example_state 5%Q) VERB_NONE)
           _ eq_refl).
Defined.

End SetupTheory.

Module ApplyTheory.
Import Flow Reductions FlowTheory.

Lemma ApplyBoundaryConditions_faces pk pres face :
  cv_face pres = Some face ->
  exists pres_f,
    ApplyBoundaryConditions_ pk pres =
      Ok {| cv_cell := cv_cell pres;
            cv_face := Some {| cp_owned := pres_f;
                               cp_ghost := cp_ghost face |};
            cv_boundary_face := cv_boundary_face pres |} /\
    length pres_f = length (cp_owned face) /\
    forall f,
      pres_f !! f =
      if decide (f < length (cp_owned face) /\
                 default OPERATOR_BC_NONE (bc_markers_ pk !! f)
                 = OPERATOR_BC_DIRICHLET)
      then Some (vget (bc_values_ pk) f) else cp_owned face !! f.
Proof.
  intros Hface. unfold ApplyBoundaryConditions_. rewrite Hface.
  eexists. split; [reflexivity|].
  destruct (apply_loop_spec (bc_markers_ pk) (bc_values_ pk)
              (length (cp_owned face)) (cp_owned face)) as [Hlen Hat].
  split; [exact Hlen|].
  intros f. rewrite (Hat f).
  repeat case_decide; try reflexivity; absurd_decisions.
Qed.

(** X9.  Applying the boundary conditions is idempotent: applied to
    the vector it returned, [ApplyBoundaryConditions_] returns that
    vector. *)
Theorem ApplyBoundaryConditions_idempotent (pk : Richards)
  (pres pres' : CompositeVector) :
  ApplyBoundaryConditions_ pk pres = Ok pres' ->
  ApplyBoundaryConditions_ pk pres' = Ok pres'.
Proof.
  intros H.
  destruct (cv_face pres) as [face|] eqn:Hface.
  2:{ unfold ApplyBoundaryConditions_ in H. rewrite Hface in H.
      discriminate. }
  destruct (ApplyBoundaryConditions_faces pk pres face Hface)
    as (pres_f & Hrun & Hlen & Hat).
  rewrite Hrun in H. injection H as <-.
  match goal with
  | |- ApplyBoundaryConditions_ _ ?p = _ =>
    destruct (ApplyBoundaryConditions_faces pk p _ eq_refl)
      as (pres_f2 & Hrun2 & Hlen2 & Hat2)
  end.
  rewrite Hrun2. cbn [cv_cell cv_face cv_boundary_face cp_owned cp_ghost] in *.
  do 4 f_equal. apply list_eq. intros f.
  rewrite Hat2, Hlen, Hat.
  repeat case_decide; try reflexivity; absurd_decisions.
Qed.

Lemma ApplyBoundaryConditions_idempotent_witness :
  exists pres',
    ApplyBoundaryConditions_ example_composed_pk
      (pressure (example_state 5%Q)) = Ok pres' /\
    ApplyBoundaryConditions_ example_composed_pk pres' = Ok pres'.
Proof.
  eexists. split; [vm_compute; reflexivity|].
  apply (ApplyBoundaryConditions_idempotent example_composed_pk
           (pressure (example_state 5%Q))).
  vm_compute. reflexivity.
Defined.

(** X10.  Once the boundary conditions are applied to a pressure vector
    with a "face" component, [BoundaryValue] reads, at every owned face
    marked Dirichlet, the boundary value of that face. *)
Theorem BoundaryValue_after_apply (pk : Richards)
  (pres pres' : CompositeVector) (face : Component) (f : nat) :
  ApplyBoundaryConditions_ pk pres = Ok pres' ->
  cv_face pres = Some face ->
  f < length (cp_owned face) ->
  bc_markers_ pk !! f = Some OPERATOR_BC_DIRICHLET ->
  BoundaryValue (mesh_ pk) pres' f = Ok (vget (bc_values_ pk) f).
Proof.
  intros H Hface Hlt Hm.
  destruct (ApplyBoundaryConditions_faces pk pres face Hface)
    as (pres_f & Hrun & Hlen & Hat).
  rewrite Hrun in H. injection H as <-.
  unfold BoundaryValue. cbn [cv_face]. f_equal.
  rewrite vview_owned by (cbn [cp_owned]; lia). cbn [cp_owned].
  unfold vget at 1. rewrite Hat, Hm. simpl.
  case_decide as Hc; [reflexivity|]. exfalso. apply Hc. auto.
Qed.

(** Face 0 of the composed example is a seepage face held at its
    threshold 0: the value read back is 0, not the 5 of the iterate. *)
Lemma BoundaryValue_after_apply_witness :
  exists pres',
    ApplyBoundaryConditions_ example_composed_pk
      (pressure (example_state 5%Q)) = Ok pres' /\
    BoundaryValue example_mesh pres' 0 = Ok 0%Q.
Proof.
  eexists. split; [vm_compute; reflexivity|].
  apply (BoundaryValue_after_apply example_composed_pk
           (pressure (example_state 5%Q)) _
           (mkComponent [5%Q; 0%Q; 7%Q; 3%Q] [0%Q]) 0);
    [vm_compute; reflexivity | reflexivity | simpl; lia | reflexivity].
Defined.

End ApplyTheory.

Module PredictorTheory.
Import Flow Reductions Predictor.

Lemma inject_nat_S n :
  (inject_Z (Z.of_nat (S n)) == inject_Z (Z.of_nat n) + 1)%Q.
Proof. rewrite Nat2Z.inj_succ, <- Z.add_1_r, inject_Z_plus. reflexivity. Qed.

Lemma inject_nat_pos n : 0 < n -> (0 < inject_Z (Z.of_nat n))%Q.
Proof.
  intros H. change 0%Q with (inject_Z 0). rewrite <- Zlt_Qlt. lia.
Qed.

(** The sum of the loop over the cells of a face lies between the
    multiples of any two bounds of the summands. *)
Lemma face_value_bounds (u_c : list double) (lo hi : double)
  (cells : list nat) :
  (forall c, c ∈ cells -> (lo <= vget u_c c <= hi)%Q) ->
  forall acc,
    (acc + lo * inject_Z (Z.of_nat (length cells))
     <= foldl (fun face_value c => face_value + vget u_c c) acc cells
     <= acc + hi * inject_Z (Z.of_nat (length cells)))%Q.
Proof.
  induction cells as [|c cells IH]; intros Hb acc.
  - simpl. split; apply Qle_lteq; right; ring.
  - cbn [foldl length].
    destruct (Hb c) as [Hlo Hhi]; [apply list_elem_of_here|].
    destruct (IH (fun c' Hc' => Hb c' (list_elem_of_further _ _ _ Hc'))
                 (acc + vget u_c c)%Q) as [IHlo IHhi].
    rewrite inject_nat_S. split.
    + eapply Qle_trans; [|exact IHlo].
      assert (E : (acc + lo * (inject_Z (Z.of_nat (length cells)) + 1)
                   == (acc + lo) + lo * inject_Z (Z.of_nat (length cells)))%Q)
        by ring.
      rewrite E.
      apply Qplus_le_compat; [|apply Qle_refl].
      apply Qplus_le_compat; [apply Qle_refl | exact Hlo].
    + eapply Qle_trans; [exact IHhi|].
      assert (E : (acc + hi * (inject_Z (Z.of_nat (length cells)) + 1)
                   == (acc + hi) + hi * inject_Z (Z.of_nat (length cells)))%Q)
        by ring.
      rewrite E.
      apply Qplus_le_compat; [|apply Qle_refl].
      apply Qplus_le_compat; [apply Qle_refl | exact Hhi].
Qed.

(** X11.  The first guess of the consistent faces refreshes the ghost
    cells from their masters and puts on every owned face that has cells
    the mean of the pressures of its cells, owned or ghost: the pressure
    of the cell on a face with one cell, half the sum of the two
    pressures on a face with two cells and, in general, a value between
    any two bounds of the pressures of its cells.  The owned cells, the
    ghost faces and the boundary faces are left alone. *)
Theorem average_cells_to_faces_between (master : nat -> double)
  (mesh : Mesh) (u u' : CompositeVector) (face : Component) (f : nat) :
  average_cells_to_faces master mesh u = Ok u' ->
  cv_face u = Some face ->
  f < length (cp_owned face) ->
  face_get_cells mesh f <> [] ->
  exists face' v,
    cv_face u' = Some face' /\
    cp_owned face' !! f = Some v /\
    (forall c, face_get_cells mesh f = [c] ->
       (v == vget (cp_owned (cv_cell u') ++ cp_ghost (cv_cell u')) c)%Q) /\
    (forall c1 c2, face_get_cells mesh f = [c1; c2] ->
       (v == (vget (cp_owned (cv_cell u') ++ cp_ghost (cv_cell u')) c1
              + vget (cp_owned (cv_cell u') ++ cp_ghost (cv_cell u')) c2)
             / 2)%Q) /\
    (forall lo hi,
       (forall c, c ∈ face_get_cells mesh f ->
          (lo <= vget (cp_owned (cv_cell u') ++ cp_ghost (cv_cell u')) c
           <= hi)%Q) ->
       (lo <= v <= hi)%Q) /\
    length (cp_owned face') = length (cp_owned face) /\
    cp_ghost face' = cp_ghost face /\
    cp_owned (cv_cell u') = cp_owned (cv_cell u) /\
    length (cp_ghost (cv_cell u')) = length (cp_ghost (cv_cell u)) /\
    (forall i, i < length (cp_ghost (cv_cell u)) ->
       cp_ghost (cv_cell u') !! i = Some (master i)) /\
    cv_boundary_face u' = cv_boundary_face u.
Proof.
  intros H Hface Hlt Hne.
  unfold average_cells_to_faces in H. cbv zeta in H. rewrite Hface in H.
  injection H as <-. cbn [cv_face cv_cell cv_boundary_face].
  set (u_c := ghosted (ScatterMasterToGhosted master (cv_cell u))).
  change (cp_owned (ScatterMasterToGhosted master (cv_cell u))
          ++ cp_ghost (ScatterMasterToGhosted master (cv_cell u)))
    with u_c.
  pose proof (index_loop_lookup
    (fun f (_ : double) =>
       (foldl (fun face_value c => face_value + vget u_c c) 0.0
              (face_get_cells mesh f)
        / inject_Z (Z.of_nat (length (face_get_cells mesh f))))%Q)
    (length (cp_owned face)) (cp_owned face)) as [Hlen Hat].
  destruct (lookup_lt_is_Some_2 (cp_owned face) f Hlt) as [x Hx].
  eexists _, _. split; [reflexivity|]. cbn [cp_owned cp_ghost].
  split.
  { rewrite (Hat f), Hx. case_decide; [reflexivity | lia]. }
  split; [|split; [|split; [|split; [|split; [|split; [|split; [|split]]]]]]].
  - intros c Hc. rewrite Hc. cbn [foldl length].
    change (inject_Z (Z.of_nat 1)) with 1%Q. field.
  - intros c1 c2 Hc. rewrite Hc. cbn [foldl length].
    change (inject_Z (Z.of_nat 2)) with 2%Q. field.
  - intros lo hi Hb.
    destruct (face_value_bounds u_c lo hi _ Hb 0.0%Q) as [Hlo Hhi].
    assert (Hpos :
      (0 < inject_Z (Z.of_nat (length (face_get_cells mesh f))))%Q).
    { apply inject_nat_pos. destruct (face_get_cells mesh f); [congruence|].
      simpl. lia. }
    split.
    + apply Qle_shift_div_l; [exact Hpos|].
      eapply Qle_trans; [|exact Hlo].
      apply Qle_lteq. right. ring.
    + apply Qle_shift_div_r; [exact Hpos|].
      eapply Qle_trans; [exact Hhi|].
      apply Qle_lteq. right. ring.
  - exact Hlen.
  - reflexivity.
  - reflexivity.
  - apply length_imap.
  - intros i Hi. unfold ScatterMasterToGhosted. cbn [cp_ghost].
    rewrite list_lookup_imap.
    destruct (lookup_lt_is_Some_2 _ _ Hi) as [y ->]. reflexivity.
  - reflexivity.
Qed.

(** Face 3 of the example lies between the owned cell 0, of pressure 1,
    and the ghost cell 1, whose master holds the pressure 2: it takes
    the pressure 3 / 2, whatever the stale value of the ghost cell
    was. *)
Lemma average_cells_to_faces_between_witness :
  exists u' face' v,
    average_cells_to_faces (fun _ => 2%Q) example_mesh example_iterate
      = Ok u' /\
    cv_face u' = Some face' /\
    cp_owned face' !! 3 = Some v /\
    (v == (1 + 2) / 2)%Q.
Proof.
  destruct (average_cells_to_faces_between (fun _ => 2%Q) example_mesh
              example_iterate _
              (mkComponent [5%Q; 0%Q; 7%Q; 3%Q] [0%Q]) 3 eq_refl eq_refl)
    as (face' & v & Hf & Hv & _ & Hmean & _).
  - simpl. lia.
  - discriminate.
  - eexists _, face', v. split; [reflexivity|].
    split; [exact Hf|]. split; [exact Hv|].
    apply (Hmean 0 1). reflexivity.
Defined.

End PredictorTheory.

(** * Further properties of the energy kernel, the models and the
      evaluators *)

Module EnergyCallbacks.
Import Energy Reductions EnergyTheory.

Section ErrorNorm.

Variable evaluate : string -> State -> CompositeVector.

Lemma ratio_of_zero (a d x : double) : (x == 0)%Q -> (dabs (a * x) / d == 0)%Q.
Proof.
  intros Hx. unfold dabs. rewrite Hx.
  assert (E : (a * 0 == 0)%Q) by ring. rewrite E.
  unfold Qdiv. change (Qabs 0) with 0%Q. ring.
Qed.

(** X14.  A correction that is zero on the cells and faces of every
    process has the error norm zero, whatever the tolerances are. *)
Theorem enorm_of_zero (pk : EnergyBase) (peers : list Rank)
  (u du : CompositeVector) :
  (forall rk x, rk ∈ {| rk_pk := pk; rk_du := du |} :: peers ->
                x ∈ cells (rk_du rk) ++ faces (rk_du rk) -> (x == 0)%Q) ->
  (enorm evaluate pk peers u du == 0)%Q.
Proof.
  intros Hzero.
  destruct (enorm_ranks evaluate pk peers u du) as [_ (rk & Hrk & Hr)].
  destruct Hr as [Hr|Hr]; rewrite Hr.
  - destruct (enorm_cell_loop_spec evaluate (rk_pk rk) (rk_du rk))
      as (_ & _ & [->|(c & Hc & ->)]); [reflexivity|].
    unfold enorm_cell_ratio. apply ratio_of_zero.
    apply (Hzero rk); [exact Hrk|].
    apply elem_of_app. left. apply vget_elem_of, Hc.
  - destruct (enorm_face_loop_spec (rk_pk rk) (rk_du rk))
      as (_ & _ & [->|(f & Hf & ->)]); [reflexivity|].
    unfold enorm_face_ratio.
    assert (Hx : (vget (faces (rk_du rk)) f == 0)%Q).
    { apply (Hzero rk); [exact Hrk|].
      apply elem_of_app. right. apply vget_elem_of, Hf. }
    unfold dabs. rewrite Hx. change (Qabs 0) with 0%Q.
    unfold Qdiv. ring.
Qed.

End ErrorNorm.

(** The zero correction on the example. *)
Lemma enorm_of_zero_witness :
  (enorm example_evaluate
     (example_pk (example_config false false true VERB_NONE) 0) []
     (example_vector 274 275 274 274.5 275)
     (example_vector 0 0 0 0 0) == 0)%Q.
Proof.
  apply enorm_of_zero. intros rk x Hrk Hx.
  apply list_elem_of_singleton in Hrk as ->. simpl in Hx.
  repeat (apply elem_of_cons in Hx as [->|Hx]; [reflexivity|]).
  apply elem_of_nil in Hx. contradiction.
Defined.

End EnergyCallbacks.

Module ResidualTerms.
Import Energy Reductions EnergyTheory.

Section Collaborators.

Variable evaluate : string -> State -> CompositeVector.
Variable ApplyDirichletBCsToEnthalpy_ :
  Config -> State -> gmap nat double -> list Matrix_bc -> list double ->
  CompositeVector -> CompositeVector.
Variable Advection_Apply :
  list double -> gmap nat double -> CompositeVector -> CompositeVector.

Abbreviation AddAdvection_ :=
  (AddAdvection_ evaluate ApplyDirichletBCsToEnthalpy_ Advection_Apply).
Abbreviation AddAccumulation_ := (AddAccumulation_ evaluate).

(** X27.  The advection term changes the residual of every owned cell by
    the value the advection operator left for that cell in its field,
    subtracted when [negate] is set and added otherwise; the number of
    cells, the ghost cells, the faces and the boundary faces of the
    residual are the ones before the call. *)
Theorem AddAdvection_cells (pk : EnergyBase) (g : CompositeVector)
  (negate : bool) (c : nat) :
  c < length (cells g) ->
  let r := AddAdvection_ pk g negate in
  let field_c := cells (advection_field_ r.1) in
  vget (cells r.2) c =
    (if negate then (vget (cells g) c - vget field_c c)%Q
     else (vget (cells g) c + vget field_c c)%Q) /\
  length (cells r.2) = length (cells g) /\
  cp_ghost (cv_cell r.2) = cp_ghost (cv_cell g) /\
  cv_face r.2 = cv_face g /\
  cv_boundary_face r.2 = cv_boundary_face g.
Proof.
  intros Hc. cbv zeta. unfold Energy.AddAdvection_.
  cbn [fst snd advection_field_ with_advection_field].
  match goal with
  | |- context [Advection_Apply ?a ?b ?f] =>
    set (field_c := cells (Advection_Apply a b f))
  end.
  assert (Hframe : forall l,
    length (cells (with_cells l g)) = length l /\
    cp_ghost (cv_cell (with_cells l g)) = cp_ghost (cv_cell g) /\
    cv_face (with_cells l g) = cv_face g /\
    cv_boundary_face (with_cells l g) = cv_boundary_face g)
    by (intros l; repeat split).
  destruct (lookup_lt_is_Some_2 _ _ Hc) as [x Hx].
  destruct negate.
  - destruct (index_loop_lookup (fun c x => (x - vget field_c c)%Q)
                (length (cells g)) (cells g)) as [Hlen Hat].
    split.
    + change (cells (with_cells ?l g)) with l.
      unfold vget at 1. rewrite (Hat c).
      case_decide; [|lia]. unfold vget at 2. rewrite Hx. reflexivity.
    + destruct (Hframe (foldl
        (fun g_c c => <[c:=(vget g_c c - vget field_c c)%Q]> g_c)
        (cells g) (seq 0 (length (cells g))))) as (H1 & H2 & H3 & H4).
      rewrite H1, Hlen. auto.
  - destruct (index_loop_lookup (fun c x => (x + vget field_c c)%Q)
                (length (cells g)) (cells g)) as [Hlen Hat].
    split.
    + change (cells (with_cells ?l g)) with l.
      unfold vget at 1. rewrite (Hat c).
      case_decide; [|lia]. unfold vget at 2. rewrite Hx. reflexivity.
    + destruct (Hframe (foldl
        (fun g_c c => <[c:=(vget g_c c + vget field_c c)%Q]> g_c)
        (cells g) (seq 0 (length (cells g))))) as (H1 & H2 & H3 & H4).
      rewrite H1, Hlen. auto.
Qed.

(** X28.  Over a time step of non-zero length, the accumulation term
    adds nothing to the residual of a cell whose energy is the same at
    the old and at the new time. *)
Theorem AddAccumulation_steady (pk : EnergyBase) (g : CompositeVector)
  (c : nat) :
  c < length (cells g) ->
  ~ (time (S_next_ pk) == time (S_inter_ pk))%Q ->
  (vget (cells (evaluate (energy_key_ (config pk)) (S_next_ pk))) c
   == vget (cells (evaluate (energy_key_ (config pk)) (S_inter_ pk))) c)%Q ->
  (vget (cells (AddAccumulation_ pk g)) c == vget (cells g) c)%Q.
Proof.
  intros Hc _ He. unfold Energy.AddAccumulation_.
  cbn [cells with_cells cv_cell cp_owned].
  unfold vget at 1. rewrite list_lookup_imap.
  unfold cells in Hc.
  destruct (lookup_lt_is_Some_2 _ _ Hc) as [x Hx].
  unfold vget at 3. unfold cells. rewrite Hx.
  cbn [fmap option_fmap option_map default from_option id].
  unfold cells in He. rewrite He. unfold Qdiv. ring.
Qed.

End Collaborators.

Lemma AddAdvection_cells_witness :
  length (cells (Energy.AddAdvection_ example_evaluate example_enthalpy_bcs
                   example_advection
                   (example_pk (example_config false false true VERB_NONE) 0)
                   (example_vector 1 2 3 4 5) true).2) = 2.
Proof.
  refine (proj1 (proj2 (AddAdvection_cells example_evaluate
    example_enthalpy_bcs example_advection
    (example_pk (example_config false false true VERB_NONE) 0)
    (example_vector 1 2 3 4 5) true 0 _))).
  simpl. lia.
Defined.

(** The example has the same temperatures, hence the same energies, at
    the times 8 and 10. *)
Lemma AddAccumulation_steady_witness :
  (vget (cells (Energy.AddAccumulation_ example_evaluate
                  (example_pk (example_config false false true VERB_NONE) 0)
                  (example_vector 1 2 3 4 5))) 0 == 1)%Q.
Proof.
  apply (AddAccumulation_steady example_evaluate
           (example_pk (example_config false false true VERB_NONE) 0)
           (example_vector 1 2 3 4 5) 0).
  - simpl. lia.
  - intros H. vm_compute in H. discriminate H.
  - vm_compute. reflexivity.
Defined.

End ResidualTerms.

Module WRMTheory.
Import Flow Reductions FlowTheory WRM.

Section Libm.

Variable pow : double -> double -> double.
Variable Spline_value : option Spline -> double -> double.
Variable Spline_Derivative : option Spline -> double -> double.

Abbreviation InitializeFromPlist_ :=
  (InitializeFromPlist_ pow Spline_value Spline_Derivative).

Lemma InitializeFromPlist_members plist wrm :
  InitializeFromPlist_ plist = Ok wrm ->
  exists fname,
    get_string plist "Krel function name" "Mualem" = Ok fname /\
    ((fname = "Mualem" /\ function_ wrm = FLOW_WRM_MUALEM) \/
     (fname = "Burdine" /\ function_ wrm = FLOW_WRM_BURDINE)) /\
    get_double_required plist "van Genuchten alpha" = Ok (alpha_ wrm) /\
    map_to_n_m plist (function_ wrm) = Ok (m_ wrm, n_ wrm) /\
    exists width,
      get_double plist "smoothing interval width [saturation]" 0.0
        = Ok width /\
      s0_ wrm = (1.0 - width)%Q /\
      (is_Some (fit_ wrm) <-> (width > 0)%Q).
Proof.
  unfold WRM.InitializeFromPlist_. intros H. invert_binds H.
  exists a. split; [assumption|].
  assert (Hf : (a = "Mualem" /\ a0 = FLOW_WRM_MUALEM) \/
               (a = "Burdine" /\ a0 = FLOW_WRM_BURDINE)).
  { destruct (String.eqb_spec a "Mualem") as [->|];
      [injection Ha0 as <-; auto|].
    destruct (String.eqb_spec a "Burdine") as [->|];
      [injection Ha0 as <-; auto|]. discriminate. }
  assert (Hw : dlt (1.0 - a5) 1.0 = true <-> (a5 > 0)%Q).
  { rewrite dlt_lt. split; intros Hlt.
    - apply Qlt_minus_iff in Hlt. apply Qlt_minus_iff.
      eapply Qlt_compat; [| |exact Hlt]; ring.
    - apply Qlt_minus_iff in Hlt. apply Qlt_minus_iff.
      eapply Qlt_compat; [| |exact Hlt]; ring. }
  destruct a4 as [m n].
  destruct (dlt (1.0 - a5) 1.0) eqn:Hs; injection H as <-; simpl;
    (split; [exact Hf|]); (split; [assumption|]); (split; [assumption|]);
    exists a5; (split; [assumption|]); (split; [reflexivity|]).
  - split; [intros _; apply Hw; reflexivity | eauto].
  - split; [intros [? [=]] | intros Hp; apply Hw in Hp; discriminate].
Qed.

Lemma get_double_required_Ok plist name d :
  get_double_required plist name = Ok d <-> plist !! name = Some (PDouble d).
Proof.
  unfold get_double_required.
  destruct (plist !! name) as [[]|]; split; intros [=]; subst; reflexivity.
Qed.

Lemma map_to_n_m_Ok plist f m n :
  map_to_n_m plist f = Ok (m, n) ->
  (plist !! "van Genuchten m" = Some (PDouble m) /\
   n = match f with
       | FLOW_WRM_MUALEM => (1.0 / (1.0 - m))%Q
       | FLOW_WRM_BURDINE => (2.0 / (1.0 - m))%Q
       end) \/
  (plist !! "van Genuchten m" = None /\
   plist !! "van Genuchten n" = Some (PDouble n) /\
   m = match f with
       | FLOW_WRM_MUALEM => (1.0 - 1.0 / n)%Q
       | FLOW_WRM_BURDINE => (1.0 - 2.0 / n)%Q
       end).
Proof.
  unfold map_to_n_m, isParameter. intros H.
  case_bool_decide as Hm.
  - apply bind_Ok in H as (m' & Hm' & H).
    apply get_double_required_Ok in Hm'.
    left. destruct f; injection H as <- <-; auto.
  - apply bind_Ok in H as (n' & Hn' & H).
    apply get_double_required_Ok in Hn'.
    right. split.
    + destruct (plist !! "van Genuchten m"); [|reflexivity].
      exfalso. apply Hm. eauto.
    + destruct f; injection H as <- <-; auto.
Qed.

(** X16.  The model is built only from a parameter list that names a
    known curve ("Mualem", the default, or "Burdine"), gives "van
    Genuchten alpha" as a double, and gives "van Genuchten m" as a
    double or else, with no entry for [m], "van Genuchten n" as a
    double; the members hold these entries. *)
Theorem InitializeFromPlist_requires (plist : gmap string ParameterEntry)
  (wrm : WRMVanGenuchten) :
  InitializeFromPlist_ plist = Ok wrm ->
  (exists fname,
     get_string plist "Krel function name" "Mualem" = Ok fname /\
     ((fname = "Mualem" /\ function_ wrm = FLOW_WRM_MUALEM) \/
      (fname = "Burdine" /\ function_ wrm = FLOW_WRM_BURDINE))) /\
  plist !! "van Genuchten alpha" = Some (PDouble (alpha_ wrm)) /\
  (plist !! "van Genuchten m" = Some (PDouble (m_ wrm)) \/
   (plist !! "van Genuchten m" = None /\
    plist !! "van Genuchten n" = Some (PDouble (n_ wrm)))).
Proof.
  intros H.
  apply InitializeFromPlist_members in H as (fname & Hn & Hf & Ha & Hmn & _).
  split; [eauto|]. split; [apply get_double_required_Ok, Ha|].
  apply map_to_n_m_Ok in Hmn as [[Hm _]|(Hm & Hn' & _)]; auto.
Qed.

(** X17.  The capillary pressure is clamped outside the range of
    saturations of the model (residual saturation below 1): at or below
    the residual saturation it is the value of the curve at the
    effective saturation [1e-40], above the saturation 1 it is the value
    at the effective saturation 1, whatever the saturation is. *)
Theorem capillaryPressure_clamped (wrm : WRMVanGenuchten) (s : double) :
  (sr_ wrm < 1)%Q ->
  ((s <= sr_ wrm)%Q ->
   capillaryPressure pow wrm s =
   (pow 1e-40 (-1.0 / (m_ wrm * n_ wrm)) / alpha_ wrm)%Q) /\
  ((1 < s)%Q ->
   capillaryPressure pow wrm s =
   (pow (pow 1.0 (-1.0 / m_ wrm) - 1.0) (1 / n_ wrm) / alpha_ wrm)%Q).
Proof.
  intros Hsr.
  assert (Hden : (0 < 1.0 - sr_ wrm)%Q).
  { apply Qlt_minus_iff in Hsr. eapply Qlt_compat; [| |exact Hsr]; ring. }
  unfold capillaryPressure. cbv zeta. split; intros Hs.
  - assert (Hse : ((s - sr_ wrm) / (1.0 - sr_ wrm) <= 0)%Q).
    { apply Qle_shift_div_r; [exact Hden|].
      apply Qle_minus_iff. apply Qle_minus_iff in Hs.
      eapply Qle_trans; [exact Hs|]. apply Qle_lteq. right. ring. }
    remember ((s - sr_ wrm) / (1.0 - sr_ wrm))%Q as se eqn:Ese. clear Ese.
    assert (H1 : std_min se 1.0 = se).
    { unfold std_min. rewrite (proj2 (dlt_ge 1.0 se)); [reflexivity|].
      eapply Qle_trans; [exact Hse|]. vm_compute. discriminate. }
    rewrite H1.
    assert (H2 : std_max se 1e-40 = 1e-40%Q).
    { unfold std_max. rewrite (proj2 (dlt_lt se 1e-40)); [reflexivity|].
      eapply Qle_lt_trans; [exact Hse|]. vm_compute. reflexivity. }
    rewrite H2.
    assert (Hb : dlt 1e-40 1e-8 = true) by (vm_compute; reflexivity).
    rewrite Hb. reflexivity.
  - assert (Hse : (1 < (s - sr_ wrm) / (1.0 - sr_ wrm))%Q).
    { apply Qlt_shift_div_l; [exact Hden|].
      apply Qlt_minus_iff. apply Qlt_minus_iff in Hs.
      eapply Qlt_compat; [| |exact Hs]; ring. }
    remember ((s - sr_ wrm) / (1.0 - sr_ wrm))%Q as se eqn:Ese. clear Ese.
    assert (H1 : std_min se 1.0 = 1.0%Q).
    { unfold std_min. rewrite (proj2 (dlt_lt 1.0 se)); [reflexivity|].
      eapply Qle_lt_trans; [|exact Hse]. vm_compute. discriminate. }
    rewrite H1.
    assert (H2 : std_max 1.0 1e-40 = 1.0%Q) by (vm_compute; reflexivity).
    rewrite H2.
    assert (Hb : dlt 1.0 1e-8 = false) by (vm_compute; reflexivity).
    rewrite Hb. reflexivity.
Qed.

End Libm.

Lemma InitializeFromPlist_requires_witness :
  exists wrm,
    InitializeFromPlist_ example_pow example_spline example_spline
      example_plist = Ok wrm /\
    example_plist !! "van Genuchten alpha" = Some (PDouble (alpha_ wrm)).
Proof.
  eexists. split; [vm_compute; reflexivity|].
  apply (InitializeFromPlist_requires example_pow example_spline
           example_spline example_plist).
  vm_compute. reflexivity.
Defined.

Lemma capillaryPressure_clamped_witness :
  capillaryPressure example_pow example_wrm 2
  = capillaryPressure example_pow example_wrm 3.
Proof.
  destruct (capillaryPressure_clamped example_pow example_wrm 2)
    as [_ H2]; [vm_compute; reflexivity|].
  destruct (capillaryPressure_clamped example_pow example_wrm 3)
    as [_ H3]; [vm_compute; reflexivity|].
  rewrite H2, H3; [reflexivity | vm_compute; reflexivity
                   | vm_compute; reflexivity].
Defined.

End WRMTheory.

Module EvaluatorsTheory.
Import Reductions Evaluators.

Lemma get_string_absent plist name dflt :
  plist !! name = None -> get_string plist name dflt = Ok dflt.
Proof. intros H. unfold get_string. rewrite H. reflexivity. Qed.

Lemma GetFieldData_insert S k v k' :
  GetFieldData (<[k:=v]> S) k' =
  if decide (k = k') then v else GetFieldData S k'.
Proof.
  unfold GetFieldData. case_decide as Hk.
  - subst. rewrite lookup_insert_eq. reflexivity.
  - rewrite lookup_insert_ne by assumption. reflexivity.
Qed.

Lemma wc_dependencies wrt :
  wrt ∈ wc_dependencies_ RichardsWaterContent_ctor <->
  wrt = "porosity" \/ wrt = "saturation_liquid" \/
  wrt = "molar_density_liquid" \/ wrt = "saturation_gas" \/
  wrt = "molar_density_gas" \/ wrt = "mol_frac_gas".
Proof.
  unfold RichardsWaterContent_ctor. cbv zeta. cbn [wc_dependencies_].
  rewrite !elem_of_union, !elem_of_singleton, elem_of_empty. tauto.
Qed.

(** X19.  Asked for the derivative with respect to a key that is not
    one of its dependencies, the water content evaluator leaves the
    result vector as it is: no error, and no zero written. *)
Theorem water_content_derivative_other (S : gmap string (list double))
  (wrt : string) (result : list double) :
  wrt ∉ wc_dependencies_ RichardsWaterContent_ctor ->
  wc_EvaluateFieldPartialDerivative_ S wrt result = result.
Proof.
  intros Hdep. rewrite wc_dependencies in Hdep.
  unfold wc_EvaluateFieldPartialDerivative_. cbv zeta.
  repeat match goal with
  | |- context [String.eqb ?x ?y] =>
    destruct (String.eqb_spec x y) as [->|]; [exfalso; apply Hdep; tauto|]
  end.
  reflexivity.
Qed.

Lemma water_content_derivative_other_witness :
  wc_EvaluateFieldPartialDerivative_ example_wc_fields "temperature"
    [3%Q; 4%Q] = [3%Q; 4%Q].
Proof.
  apply water_content_derivative_other.
  rewrite wc_dependencies. intros H.
  repeat (destruct H as [H|H]; [discriminate H|]). discriminate H.
Defined.

End EvaluatorsTheory.

Module EnergySourceTheory.
Import Reductions Evaluators EvaluatorsTheory EnergySource FlowTheory.

(** X20.  The advected energy source never reads the density of the
    external water: the density it multiplies the external enthalpy with
    is the field of the internal density key, so replacing the field of
    the external density key (a key of its own) changes nothing of the
    source. *)
Theorem EvaluateField_ignores_external_density
  (ev : AdvectedEnergySourceEvaluator) (S : gmap string (list double))
  (v : list double) (result : list double) :
  external_density_key_ ev ∉
    [internal_enthalpy_key_ ev; external_enthalpy_key_ ev;
     mass_source_key_ ev; internal_density_key_ ev; cell_vol_key_ ev;
     conducted_source_key_ ev] ->
  EvaluateField_ ev (<[external_density_key_ ev:=v]> S) result
  = EvaluateField_ ev S result.
Proof.
  intros Hne. unfold EvaluateField_.
  rewrite !GetFieldData_insert.
  repeat case_decide; try reflexivity; exfalso; apply Hne;
    match goal with H : external_density_key_ ev = _ |- _ => rewrite H end;
    repeat first [apply list_elem_of_here | apply list_elem_of_further].
Qed.

Lemma EvaluateField_ignores_external_density_witness :
  exists ev,
    InitializeFromPlist_ example_plist "" ∅ = Ok ev /\
    EvaluateField_ ev
      (<[external_density_key_ ev:=[5%Q; 5%Q]]> (example_fields 4%Q))
      [0%Q; 0%Q]
    = EvaluateField_ ev (example_fields 4%Q) [0%Q; 0%Q].
Proof.
  eexists. split; [vm_compute; reflexivity|].
  apply EvaluateField_ignores_external_density.
  cbn [external_density_key_ internal_enthalpy_key_ external_enthalpy_key_
       mass_source_key_ internal_density_key_ cell_vol_key_
       conducted_source_key_].
  rewrite !elem_of_cons, elem_of_nil. intros H.
  repeat (destruct H as [H|H]; [discriminate H|]). exact H.
Defined.

Lemma append_inv_head (p a b : string) :
  (p ++ a)%string = (p ++ b)%string -> a = b.
Proof.
  induction p as [|c p IH]; simpl; [auto|].
  intros [= H]. auto.
Qed.

(** X21.  With the keys at their defaults (no key entry in the
    parameter list), under every domain name, the cell volume, which the
    source is multiplied with, is not among the dependencies the
    evaluator declares. *)
Theorem cell_volume_is_no_dependency (plist : gmap string ParameterEntry)
  (my_key : string) (ev : AdvectedEnergySourceEvaluator) :
  InitializeFromPlist_ plist my_key ∅ = Ok ev ->
  (forall name, name ∈ ["internal enthalpy key"; "external enthalpy key";
                        "mass source key"; "internal density key";
                        "external density key";
                        "conducted energy source key"; "cell volume key"] ->
                plist !! name = None) ->
  cell_vol_key_ ev ∉ dependencies_ ev.
Proof.
  intros H Habs.
  assert (Hget : forall name dflt,
    name ∈ ["internal enthalpy key"; "external enthalpy key";
            "mass source key"; "internal density key";
            "external density key";
            "conducted energy source key"; "cell volume key"] ->
    get_string plist name dflt = Ok dflt).
  { intros name dflt Hin. apply get_string_absent, Habs, Hin. }
  unfold InitializeFromPlist_ in H.
  apply bind_Ok in H as (dom & _ & H).
  remember (if String.eqb dom "" then dom else (dom ++ "_")%string)
    as prefix eqn:Hp. clear Hp.
  rewrite (Hget "internal enthalpy key"), (Hget "external enthalpy key"),
    (Hget "mass source key"), (Hget "internal density key"),
    (Hget "external density key") in H
    by repeat first [apply list_elem_of_here | apply list_elem_of_further].
  cbn [mbind result_bind] in H.
  apply bind_Ok in H as (incl & _ & H).
  destruct incl.
  - rewrite (Hget "conducted energy source key"), (Hget "cell volume key")
      in H
      by repeat first [apply list_elem_of_here | apply list_elem_of_further].
    cbn [mbind result_bind] in H.
    apply bind_Ok in H as (k & _ & H). injection H as <-.
    cbn [cell_vol_key_ dependencies_ fst snd].
    rewrite !elem_of_union, !elem_of_singleton, elem_of_empty.
    intros Hin.
    repeat match goal with
    | H : _ \/ _ |- _ => destruct H as [H|H]
    | H : (prefix ++ _)%string = (prefix ++ _)%string |- _ =>
      apply append_inv_head in H; discriminate H
    end. exact Hin.
  - cbn [mbind result_bind] in H.
    rewrite (Hget "cell volume key") in H
      by repeat first [apply list_elem_of_here | apply list_elem_of_further].
    cbn [mbind result_bind] in H.
    apply bind_Ok in H as (k & _ & H). injection H as <-.
    cbn [cell_vol_key_ dependencies_ fst snd].
    rewrite !elem_of_union, !elem_of_singleton, elem_of_empty.
    intros Hin.
    repeat match goal with
    | H : _ \/ _ |- _ => destruct H as [H|H]
    | H : (prefix ++ _)%string = (prefix ++ _)%string |- _ =>
      apply append_inv_head in H; discriminate H
    end. exact Hin.
Qed.

Lemma cell_volume_is_no_dependency_witness :
  exists ev,
    InitializeFromPlist_ example_plist "" ∅ = Ok ev /\
    cell_vol_key_ ev = "surface_cell_volume"%string /\
    cell_vol_key_ ev ∉ dependencies_ ev.
Proof.
  eexists. split; [vm_compute; reflexivity|]. split; [reflexivity|].
  apply (cell_volume_is_no_dependency example_plist "").
  - vm_compute. reflexivity.
  - intros name Hin. rewrite !elem_of_cons, elem_of_nil in Hin.
    repeat (destruct Hin as [->|Hin]; [reflexivity|]). contradiction.
Defined.

End EnergySourceTheory.

Module TopCellsTheory.
Import Flow Reductions FlowTheory TopCells.

Lemma copy_step_Ok surf mesh sv (rc : list double) c :
  copy_step surf mesh sv (Ok rc) c =
  if bool_decide (length (face_get_cells mesh (entity_get_parent surf c)) = 1)
  then Ok (<[cell_below mesh (entity_get_parent surf c):=vget sv c]> rc)
  else Err (AssertionFailure "cells.size() == 1").
Proof. unfold copy_step, ASSERT. simpl. case_bool_decide; reflexivity. Qed.

Lemma copy_loop_cases surf mesh sv (rc : list double) n :
  (exists rc', foldl (copy_step surf mesh sv) (Ok rc) (seq 0 n) = Ok rc') \/
  foldl (copy_step surf mesh sv) (Ok rc) (seq 0 n)
  = Err (AssertionFailure "cells.size() == 1").
Proof.
  induction n as [|n IH]; [left; eexists; reflexivity|].
  rewrite seq_S, foldl_app. cbn [foldl Nat.add].
  destruct IH as [[rc1 ->]| ->]; [|right; reflexivity].
  rewrite copy_step_Ok. case_bool_decide.
  - left. eexists. reflexivity.
  - right. reflexivity.
Qed.

(** The loop runs through exactly when every surface cell lies above a
    face with one cell, and then holds at every index the value of the
    last surface cell above it, or the entry it had. *)
Lemma copy_loop_spec surf mesh sv rc :
  let below := fun c => cell_below mesh (entity_get_parent surf c) in
  let n := num_cells_owned surf in
  ((forall c, c < n ->
      length (face_get_cells mesh (entity_get_parent surf c)) = 1) ->
   exists rc',
     copy_loop surf mesh sv rc = Ok rc' /\
     length rc' = length rc /\
     forall i, rc' !! i =
       match surface_cell_of below n i with
       | Some c => (fun _ => vget sv c) <$> rc !! i
       | None => rc !! i
       end) /\
  ((exists c, c < n /\
      length (face_get_cells mesh (entity_get_parent surf c)) <> 1) ->
   copy_loop surf mesh sv rc = Err (AssertionFailure "cells.size() == 1")).
Proof.
  cbv zeta. unfold copy_loop.
  generalize (num_cells_owned surf) as n.
  induction n as [|n [IHok IHerr]].
  - split.
    + intros _. exists rc. repeat split.
    + intros (c & Hc & _). lia.
  - rewrite seq_S, foldl_app. cbn [foldl Nat.add]. split.
    + intros Hall.
      destruct IHok as (rc1 & -> & Hlen & Hat); [intros c Hc; apply Hall; lia|].
      rewrite copy_step_Ok, bool_decide_eq_true_2 by (apply Hall; lia).
      eexists. split; [reflexivity|]. split.
      { rewrite length_insert. exact Hlen. }
      intros i. unfold surface_cell_of in *.
      rewrite seq_S, filter_app, filter_cons, filter_nil. cbn [Nat.add].
      case_decide as Hb.
      * rewrite last_snoc. subst i.
        destruct (decide (cell_below mesh (entity_get_parent surf n)
                          < length rc)) as [Hlt|Hge].
        -- rewrite list_lookup_insert_eq by lia.
           destruct (lookup_lt_is_Some_2 rc _ Hlt) as [x ->]. reflexivity.
        -- rewrite list_insert_ge by lia. rewrite Hat.
           rewrite (proj2 (lookup_ge_None rc _)) by lia.
           destruct (last _); reflexivity.
      * rewrite app_nil_r, list_lookup_insert_ne by assumption. apply Hat.
    + intros (c & Hc & Hne).
      destruct (decide (c = n)) as [->|Hcn].
      * destruct (copy_loop_cases surf mesh sv rc n) as [[rc1 ->]| ->];
          [|reflexivity].
        rewrite copy_step_Ok, bool_decide_eq_false_2 by exact Hne.
        reflexivity.
      * rewrite IHerr; [reflexivity|]. exists c. split; [lia | exact Hne].
Qed.

Lemma surface_cell_of_last (parent : nat -> nat) n f c :
  c < n -> parent c = f ->
  (forall c', c < c' -> c' < n -> parent c' <> f) ->
  surface_cell_of parent n f = Some c.
Proof.
  unfold surface_cell_of. induction n as [|n IH]; intros Hc Hp Hlater; [lia|].
  rewrite seq_S, filter_app, filter_cons, filter_nil. cbn [Nat.add].
  case_decide as Hn.
  - rewrite last_snoc. f_equal.
    destruct (decide (c = n)) as [->|Hne]; [reflexivity|].
    exfalso. apply (Hlater n); [lia | lia | exact Hn].
  - rewrite app_nil_r. apply IH; [|exact Hp|].
    + destruct (decide (c = n)) as [->|Hne]; [contradiction | lia].
    + intros c' H1 H2. apply Hlater; lia.
Qed.

Lemma Evaluate_run ev surf mesh sv result :
  Evaluate_ ev surf mesh sv result =
  match copy_loop surf mesh sv (Energy.cells result) with
  | Ok rc =>
    Ok (if negate_ ev then Scale (-1) (Energy.with_cells rc result)
        else Energy.with_cells rc result)
  | Err e => Err e
  end.
Proof. unfold Evaluate_. destruct (copy_loop _ _ _ _); reflexivity. Qed.

(** X23.  The evaluator fails exactly when some owned surface cell lies
    above a face that has not one cell (an interior face, or a face
    without cell): it then stops on its assertion. *)
Theorem Evaluate_fails_iff (ev : TopCellsSurfaceEvaluator)
  (surf : SurfaceMesh) (mesh : Mesh) (sv : list double)
  (result : CompositeVector) :
  (exists e, Evaluate_ ev surf mesh sv result = Err e) <->
  (exists c, c < num_cells_owned surf /\
             length (face_get_cells mesh (entity_get_parent surf c)) <> 1).
Proof.
  rewrite Evaluate_run.
  destruct (copy_loop_spec surf mesh sv (Energy.cells result)) as [Hok Herr].
  split.
  - intros [e He].
    destruct (decide (Forall
      (fun c => length (face_get_cells mesh (entity_get_parent surf c)) = 1)
      (seq 0 (num_cells_owned surf)))) as [Hall|Hex].
    + destruct Hok as (rc & Hrc & _).
      { intros c Hc. rewrite Forall_forall in Hall. apply Hall.
        apply elem_of_seq. lia. }
      rewrite Hrc in He. discriminate.
    + apply not_Forall_Exists in Hex; [|intros c; apply _].
      apply Exists_exists in Hex as (c & Hin & Hne).
      apply elem_of_seq in Hin. exists c. split; [lia | exact Hne].
  - intros Hex. rewrite (Herr Hex). eauto.
Qed.

(** X22.  When the evaluator runs through, the cell below a surface
    cell holds the value of that surface cell (of the last one, if
    several lie above the same cell), and every other entry of the
    result holds what it held before; with [negate_] set, all entries of
    all components have their sign changed, those the evaluator did not
    write included. *)
Theorem Evaluate_values (ev : TopCellsSurfaceEvaluator)
  (surf : SurfaceMesh) (mesh : Mesh) (sv : list double)
  (result r : CompositeVector) :
  let below := fun c => cell_below mesh (entity_get_parent surf c) in
  Evaluate_ ev surf mesh sv result = Ok r ->
  (forall c, c < num_cells_owned surf ->
     (forall c', c < c' -> c' < num_cells_owned surf ->
                 below c' <> below c) ->
     below c < length (Energy.cells result) ->
     Energy.cells r !! below c = Some (signed ev (vget sv c))) /\
  (forall i, (forall c, c < num_cells_owned surf -> below c <> i) ->
     Energy.cells r !! i = signed ev <$> Energy.cells result !! i) /\
  Energy.with_cells (Energy.cells r)
    (if negate_ ev then Scale (-1) result else result) = r.
Proof.
  cbv zeta. rewrite Evaluate_run. intros H.
  destruct (copy_loop_spec surf mesh sv (Energy.cells result)) as [Hok _].
  destruct (copy_loop surf mesh sv (Energy.cells result)) as [rc|e] eqn:Hrc;
    [|discriminate].
  destruct Hok as (rc' & Heq & Hlen & Hat).
  { intros c Hc.
    destruct (decide (length (face_get_cells mesh
                                (entity_get_parent surf c)) = 1)) as [|Hne];
      [assumption|].
    exfalso.
    destruct (copy_loop_spec surf mesh sv (Energy.cells result)) as [_ Herr].
    rewrite Herr in Hrc by eauto. discriminate. }
  injection Heq as <-.
  assert (Hcells : Energy.cells r = signed ev <$> rc).
  { injection H as <-. unfold signed.
    destruct (negate_ ev); simpl; [reflexivity|].
    rewrite list_fmap_id. reflexivity. }
  split; [|split].
  - intros c Hc Hlater Hlt. rewrite Hcells, list_lookup_fmap, Hat.
    rewrite (surface_cell_of_last _ _ _ c Hc eq_refl Hlater).
    destruct (lookup_lt_is_Some_2 _ _ Hlt) as [x ->]. reflexivity.
  - intros i Hnone. rewrite Hcells, list_lookup_fmap, Hat.
    rewrite surface_cell_of_None; [reflexivity|]. exact Hnone.
  - injection H as <-. destruct (negate_ ev); reflexivity.
Qed.

(** On the example the cells 0 and 2 take the surface values 5 and 6,
    negated, and the cell 1 in between has its old value 8 negated. *)
Lemma Evaluate_values_witness :
  exists r,
    Evaluate_ (mkTopCellsSurfaceEvaluator "flux" "surface_flux" "" true)
      example_surface example_mesh [5%Q; 6%Q] example_result = Ok r /\
    Energy.cells r !! 2 = Some (-1 * 6)%Q /\
    Energy.cells r !! 1 = Some (-1 * 8)%Q.
Proof.
  eexists. split; [vm_compute; reflexivity|].
  destruct (Evaluate_values
              (mkTopCellsSurfaceEvaluator "flux" "surface_flux" "" true)
              example_surface example_mesh [5%Q; 6%Q] example_result _
              eq_refl) as (Hbelow & Hother & _).
  split.
  - apply (Hbelow 1);
      [cbv; lia | intros c' H1 H2; cbv in H2; lia | cbv; lia].
  - apply (Hother 1). intros c Hc. cbv in Hc.
    destruct c as [|[|c]]; [discriminate | discriminate | lia].
Defined.

End TopCellsTheory.

Module EOSTheory.
Import Reductions FlowTheory EvaluatorsTheory TopCells EOS.

Lemma substring_append_prefix (pre x : string) :
  String.substring 0 (String.length pre) (pre ++ x) = pre.
Proof.
  induction pre as [|c pre IH]; simpl.
  - destruct x; reflexivity.
  - rewrite IH. reflexivity.
Qed.

Lemma substring_append_skip (pre y : string) k m :
  String.substring (String.length pre + k) m (pre ++ y)
  = String.substring k m y.
Proof. induction pre as [|c pre IH]; simpl; auto. Qed.

Lemma substring_all (s : string) m :
  String.length s <= m -> String.substring 0 m s = s.
Proof.
  revert m. induction s as [|c s IH]; intros m Hm; simpl.
  - destruct m; reflexivity.
  - destruct m; simpl in *; [lia|]. rewrite IH by lia. reflexivity.
Qed.

Lemma length_append (a b : string) :
  String.length (a ++ b) = String.length a + String.length b.
Proof. induction a as [|c a IH]; simpl; auto. Qed.

(** Replacing the occurrence of [old] at the end of [pre] by [new], with
    the offsets the constructor uses. *)
Lemma replace_at (pre old new suf : string) :
  (substr 0 (String.length pre) (pre ++ old ++ suf) ++ new
   ++ substr (String.length pre + String.length old)
        (String.length (pre ++ old ++ suf)) (pre ++ old ++ suf))%string
  = (pre ++ new ++ suf)%string.
Proof.
  unfold substr. rewrite substring_append_prefix.
  rewrite substring_append_skip.
  replace (String.length old) with (String.length old + 0) at 1 by lia.
  rewrite substring_append_skip, substring_all; [reflexivity|].
  rewrite !length_append. lia.
Qed.

Lemma EOSEvaluator_ctor_Ok plist ev :
  EOSEvaluator_ctor plist = Ok ev ->
  exists name,
    get_string_required plist "evaluator name" = Ok name /\
    get_string plist "tag" "" = Ok (tag_ ev) /\
    exists keys,
      match mode_ ev with
      | EOS_MODE_MOLAR | EOS_MODE_BOTH => molar_keys plist name (tag_ ev) []
      | EOS_MODE_MASS => Ok []
      end = Ok keys /\
      match mode_ ev with
      | EOS_MODE_MASS | EOS_MODE_BOTH => mass_keys plist name (tag_ ev) keys
      | EOS_MODE_MOLAR => Ok keys
      end = Ok (my_keys_ ev).
Proof.
  unfold EOSEvaluator_ctor. intros H. invert_binds H.
  injection H as <-. simpl. eauto 10.
Qed.

Lemma molar_keys_Ok plist name tag keys keys' :
  molar_keys plist name tag keys = Ok keys' ->
  exists key, keys' = keys ++ [(key, tag)].
Proof.
  unfold molar_keys. intros H.
  repeat case_match; apply bind_Ok in H as (k & _ & [= <-]); eauto.
Qed.

Lemma mass_keys_Ok plist name tag keys keys' :
  mass_keys plist name tag keys = Ok keys' ->
  exists key, keys' = keys ++ [(key, tag)].
Proof.
  unfold mass_keys. intros H.
  repeat case_match; apply bind_Ok in H as (k & _ & [= <-]); eauto.
Qed.

Lemma get_string_given plist name dflt k :
  plist !! name = Some (PString k) -> get_string plist name dflt = Ok k.
Proof. intros H. unfold get_string. rewrite H. reflexivity. Qed.

(** The key that each of the two blocks appends, when the parameter
    list gives it or the name of the evaluator provides it. *)
Lemma molar_keys_key plist name tag keys keys' :
  molar_keys plist name tag keys = Ok keys' ->
  (forall k, plist !! "molar density key" = Some (PString k) ->
             keys' = keys ++ [(k, tag)]) /\
  (plist !! "molar density key" = None -> is_Some (find "molar" name) ->
   keys' = keys ++ [(name, tag)]).
Proof.
  unfold molar_keys. intros H. split.
  - intros k Hk.
    repeat case_match;
      rewrite ?(get_string_given _ _ _ _ Hk) in H;
      unfold get_string_required in H; rewrite ?Hk in H;
      injection H as <-; reflexivity.
  - intros Hk [pos Hpos]. rewrite Hpos in H.
    rewrite (get_string_absent _ _ _ Hk) in H. injection H as <-.
    reflexivity.
Qed.

Lemma mass_keys_key plist name tag keys keys' :
  mass_keys plist name tag keys = Ok keys' ->
  (forall k, plist !! "mass density key" = Some (PString k) ->
             keys' = keys ++ [(k, tag)]) /\
  (plist !! "mass density key" = None -> is_Some (find "mass" name) ->
   keys' = keys ++ [(name, tag)]).
Proof.
  unfold mass_keys. intros H. split.
  - intros k Hk.
    repeat case_match;
      rewrite ?(get_string_given _ _ _ _ Hk) in H;
      unfold get_string_required in H; rewrite ?Hk in H;
      injection H as <-; reflexivity.
  - intros Hk [pos Hpos]. rewrite Hpos in H.
    rewrite (get_string_absent _ _ _ Hk) in H. injection H as <-.
    reflexivity.
Qed.

(** X24.  The evaluator provides one key in the modes "molar" and
    "mass" and two keys in the mode "both", the key of the molar density
    first and the key of the mass density last; every key carries the
    tag of the evaluator, and the mode is the one the entry "EOS basis"
    names ("molar" when absent).  The key of the molar density is the
    entry "molar density key" when the list gives it, and the name of
    the evaluator when the list does not and the name holds "molar";
    likewise the key of the mass density, with "mass density key" and
    "mass". *)
Theorem EOSEvaluator_keys_by_mode (plist : gmap string ParameterEntry)
  (ev : EOSEvaluator) (name : string) :
  EOSEvaluator_ctor plist = Ok ev ->
  plist !! "evaluator name" = Some (PString name) ->
  length (my_keys_ ev) =
    match mode_ ev with EOS_MODE_BOTH => 2 | _ => 1 end /\
  (forall key, key ∈ my_keys_ ev -> key.2 = tag_ ev) /\
  get_string plist "EOS basis" "molar" =
    Ok match mode_ ev with
       | EOS_MODE_MOLAR => "molar"
       | EOS_MODE_MASS => "mass"
       | EOS_MODE_BOTH => "both"
       end%string /\
  (mode_ ev <> EOS_MODE_MASS ->
   (forall k, plist !! "molar density key" = Some (PString k) ->
              head (my_keys_ ev) = Some (k, tag_ ev)) /\
   (plist !! "molar density key" = None -> is_Some (find "molar" name) ->
    head (my_keys_ ev) = Some (name, tag_ ev))) /\
  (mode_ ev <> EOS_MODE_MOLAR ->
   (forall k, plist !! "mass density key" = Some (PString k) ->
              last (my_keys_ ev) = Some (k, tag_ ev)) /\
   (plist !! "mass density key" = None -> is_Some (find "mass" name) ->
    last (my_keys_ ev) = Some (name, tag_ ev))).
Proof.
  intros H Hn.
  pose proof (EOSEvaluator_ctor_Ok _ _ H)
    as (name' & Hname & _ & keys & H1 & H2).
  assert (name' = name) as ->.
  { unfold get_string_required in Hname. rewrite Hn in Hname. congruence. }
  assert (Hkeys : exists k k',
    my_keys_ ev = match mode_ ev with
                  | EOS_MODE_BOTH => [(k, tag_ ev); (k', tag_ ev)]
                  | _ => [(k, tag_ ev)]
                  end).
  { destruct (mode_ ev).
    - injection H1 as <-. apply mass_keys_Ok in H2 as [k Hk].
      exists k, k. exact Hk.
    - apply molar_keys_Ok in H1 as [k Hk]. exists k, k.
      injection H2 as <-. exact Hk.
    - apply molar_keys_Ok in H1 as [k Hk]. subst keys.
      apply mass_keys_Ok in H2 as [k' Hk']. exists k, k'. exact Hk'. }
  destruct Hkeys as (k & k' & Hkeys).
  split; [|split; [|split; [|split]]].
  - rewrite Hkeys. destruct (mode_ ev); reflexivity.
  - intros key. rewrite Hkeys.
    destruct (mode_ ev); rewrite ?elem_of_cons, elem_of_nil;
      intros Hin; intuition (subst; reflexivity).
  - unfold EOSEvaluator_ctor in H. invert_binds H. injection H as <-.
    simpl. rewrite Ha0. f_equal.
    destruct (String.eqb_spec a0 "molar") as [->|];
      [injection Ha1 as <-; reflexivity|].
    destruct (String.eqb_spec a0 "mass") as [->|];
      [injection Ha1 as <-; reflexivity|].
    destruct (String.eqb_spec a0 "both") as [->|];
      [injection Ha1 as <-; reflexivity|]. discriminate.
  - intros Hmode.
    assert (Hm : molar_keys plist name (tag_ ev) [] = Ok keys)
      by (destruct (mode_ ev); congruence).
    destruct (molar_keys_key _ _ _ _ _ Hm) as [Hgiven Hdflt].
    assert (Hhead : head (my_keys_ ev) = head keys).
    { destruct (mode_ ev); [congruence| |].
      - injection H2 as <-. reflexivity.
      - apply molar_keys_Ok in Hm as [k0 ->].
        apply mass_keys_Ok in H2 as [k1 ->]. reflexivity. }
    rewrite Hhead. split.
    + intros k0 Hk0. rewrite (Hgiven k0 Hk0). reflexivity.
    + intros Hnone Hfind. rewrite (Hdflt Hnone Hfind). reflexivity.
  - intros Hmode.
    assert (Hm : mass_keys plist name (tag_ ev) keys = Ok (my_keys_ ev))
      by (destruct (mode_ ev); congruence).
    destruct (mass_keys_key _ _ _ _ _ Hm) as [Hgiven Hdflt]. split.
    + intros k0 Hk0. rewrite (Hgiven k0 Hk0). apply last_snoc.
    + intros Hnone Hfind. rewrite (Hdflt Hnone Hfind). apply last_snoc.
Qed.

(** In the mode "both", for the evaluator "molar_density_liquid": two
    keys with the tag "next", the name itself first. *)
Lemma EOSEvaluator_keys_by_mode_witness :
  exists ev,
    EOSEvaluator_ctor example_plist = Ok ev /\
    length (my_keys_ ev) = 2 /\
    (forall key, key ∈ my_keys_ ev -> key.2 = "next"%string) /\
    head (my_keys_ ev)
      = Some ("molar_density_liquid"%string, "next"%string).
Proof.
  eexists. split; [vm_compute; reflexivity|].
  destruct (EOSEvaluator_keys_by_mode example_plist _ "molar_density_liquid"
              eq_refl eq_refl)
    as (Hlen & Htag & _ & Hmolar & _).
  split; [exact Hlen|]. split; [exact Htag|].
  apply Hmolar; [discriminate | reflexivity | eexists; reflexivity].
Defined.

(** X25.  The key the evaluator derives for the other density is the
    name of the evaluator with the first "molar" replaced by "mass" (for
    a name without "mass", in the modes "mass" and "both", when the key
    is not given), and the first "mass" replaced by "molar" in the
    symmetric case: the text before and after the replaced word is
    kept. *)
Theorem EOSEvaluator_derived_keys (plist : gmap string ParameterEntry)
  (ev : EOSEvaluator) (pre suf : string) :
  EOSEvaluator_ctor plist = Ok ev ->
  (plist !! "evaluator name" = Some (PString (pre ++ "molar" ++ suf)) ->
   find "molar" (pre ++ "molar" ++ suf) = Some (String.length pre) ->
   find "mass" (pre ++ "molar" ++ suf) = None ->
   plist !! "mass density key" = None ->
   mode_ ev <> EOS_MODE_MOLAR ->
   last (my_keys_ ev) = Some ((pre ++ "mass" ++ suf)%string, tag_ ev)) /\
  (plist !! "evaluator name" = Some (PString (pre ++ "mass" ++ suf)) ->
   find "mass" (pre ++ "mass" ++ suf) = Some (String.length pre) ->
   find "molar" (pre ++ "mass" ++ suf) = None ->
   plist !! "molar density key" = None ->
   mode_ ev <> EOS_MODE_MASS ->
   head (my_keys_ ev) = Some ((pre ++ "molar" ++ suf)%string, tag_ ev)).
Proof.
  intros H.
  pose proof (EOSEvaluator_ctor_Ok _ _ H) as (name & Hname & _ & keys & H1 & H2).
  split.
  - intros Hn Hmolar Hmass Habs Hmode.
    assert (name = (pre ++ "molar" ++ suf)%string) as ->.
    { unfold get_string_required in Hname. rewrite Hn in Hname. congruence. }
    assert (Hk : mass_keys plist (pre ++ "molar" ++ suf) (tag_ ev) keys
                 = Ok (my_keys_ ev)) by (destruct (mode_ ev); congruence).
    unfold mass_keys in Hk. rewrite Hmass, Hmolar in Hk.
    rewrite get_string_absent in Hk by exact Habs.
    injection Hk as <-. rewrite last_snoc. do 2 f_equal.
    apply (replace_at pre "molar" "mass" suf).
  - intros Hn Hmass Hmolar Habs Hmode.
    assert (name = (pre ++ "mass" ++ suf)%string) as ->.
    { unfold get_string_required in Hname. rewrite Hn in Hname. congruence. }
    assert (Hk : molar_keys plist (pre ++ "mass" ++ suf) (tag_ ev) []
                 = Ok keys) by (destruct (mode_ ev); congruence).
    unfold molar_keys in Hk. rewrite Hmolar, Hmass in Hk.
    rewrite get_string_absent in Hk by exact Habs.
    injection Hk as <-.
    assert (Hhead : head (my_keys_ ev) =
      Some ((substr 0 (String.length pre) (pre ++ "mass" ++ suf) ++ "molar"
             ++ substr (String.length pre + 4)
                  (String.length (pre ++ "mass" ++ suf))
                  (pre ++ "mass" ++ suf))%string, tag_ ev)).
    { destruct (mode_ ev); [congruence| |].
      - injection H2 as <-. reflexivity.
      - apply mass_keys_Ok in H2 as [k ->]. reflexivity. }
    rewrite Hhead. do 2 f_equal.
    apply (replace_at pre "mass" "molar" suf).
Qed.

Lemma EOSEvaluator_derived_keys_witness :
  exists ev,
    EOSEvaluator_ctor example_plist = Ok ev /\
    last (my_keys_ ev) = Some ("mass_density_liquid"%string, "next"%string).
Proof.
  eexists. split; [vm_compute; reflexivity|].
  destruct (EOSEvaluator_derived_keys example_plist _ "" "_density_liquid"
              eq_refl) as [H _].
  apply H; [reflexivity | reflexivity | reflexivity | reflexivity
            | discriminate].
Defined.

End EOSTheory.

Module RelPermTheory.
Import Reductions FlowTheory RelPerm.

Lemma Qpower_even_nonneg (x : double) (a : Z) :
  Z.rem a 2 = 0%Z -> (0 <= x ^ a)%Q.
Proof.
  intros Hrem.
  assert (Ha : a = (2 * Z.quot a 2)%Z).
  { pose proof (Z.quot_rem' a 2) as E. rewrite Hrem in E. lia. }
  rewrite Ha, Qpower_mult. apply Qpower_0_le, Qsqr_nonneg.
Qed.

Lemma ZeroUFRelPermModel_ctor_Ok plist model :
  ZeroUFRelPermModel_ctor plist = Ok model ->
  get_int plist "unfrozen rel perm alpha" 4 = Ok (alpha_ model) /\
  Z.rem (alpha_ model) 2 = 0%Z /\
  get_real plist "unfrozen rel perm cutoff height" 0.01
    = Ok (h_cutoff_ model) /\
  pi_ model = pi_double.
Proof.
  unfold ZeroUFRelPermModel_ctor. intros H.
  apply bind_Ok in H as (a & Ha & H).
  destruct (Z.eqb_spec (Z.rem a 2) 0) as [Hr|Hr]; simpl in H; [|discriminate].
  apply bind_Ok in H as (hc & Hh & H). injection H as <-. auto.
Qed.

(** X26.  The surface relative permeability of a model that passed its
    constructor is never negative, whatever the sine is: the constructor
    accepts even exponents only, and the cutoff factor is a square. *)
Theorem SurfaceRelPerm_nonneg (sin : double -> double)
  (plist : gmap string NumericEntry) (model : ZeroUFRelPermModel)
  (uf h : double) :
  ZeroUFRelPermModel_ctor plist = Ok model ->
  (0 <= SurfaceRelPerm sin model uf h)%Q.
Proof.
  intros H. apply ZeroUFRelPermModel_ctor_Ok in H as (_ & Heven & _).
  unfold SurfaceRelPerm. cbv zeta.
  destruct (Energy.dle h 0); [apply Qle_refl|].
  destruct (dlt h (h_cutoff_ model)).
  - apply Qmult_le_0_compat;
      [apply Qpower_even_nonneg, Heven | apply Qsqr_nonneg].
  - apply Qpower_even_nonneg, Heven.
Qed.

Lemma SurfaceRelPerm_nonneg_witness :
  exists model,
    ZeroUFRelPermModel_ctor ∅ = Ok model /\
    (0 <= SurfaceRelPerm example_sin model 0.5 0.005)%Q.
Proof.
  eexists. split; [vm_compute; reflexivity|].
  apply (SurfaceRelPerm_nonneg example_sin ∅). vm_compute. reflexivity.
Defined.

End RelPermTheory.
